(** * Smart Doctor Assistant: booking engine

    A shallow embedding of the conversational booking engine of the
    Smart Doctor Assistant: the input validator, the appointment conflict
    validator with its alternative-slot search, the per-user conversation
    memory and the agent loop of the orchestrator.

    Part I holds the definitions, module by module, in the order of the
    backend packages ([utils/validators.py], [utils/appointment_validator.py],
    [utils/conversation_memory.py], [agents/orchestrator.py], [main.py]),
    followed by the text validators, the rate limiter
    ([middleware/rate_limiter.py]), the file-name sanitizer
    ([utils/security.py]), the retry wrapper of the client's API service
    ([services/api.js]), the storage and the doctor list of the React client
    ([hooks/useAPI.js], [context/AppContext.jsx],
    [components/PatientDashboard.jsx], [components/AppointmentModal.jsx]) and
    the unique index of the schema. Part II holds the properties. *)

From Stdlib Require Import ZArith List Sorted String Ascii Bool Lia Arith.
From Stdlib Require Import DecimalString.
Import ListNotations.

(* ===================================================================== *)
(** * Part I: definitions                                                 *)
(* ===================================================================== *)

(** ** Python's [datetime.date] and times of day *)

Module Calendar.
Local Open Scope Z_scope.

(** A [datetime.date]: proleptic Gregorian, years 1..9999. *)
Record date := mkdate { year : Z; month : Z; day : Z }.

Definition is_leap (y : Z) : bool :=
  ((y mod 4 =? 0) && negb (y mod 100 =? 0)) || (y mod 400 =? 0).

Definition days_in_month (y m : Z) : Z :=
  if m =? 2 then (if is_leap y then 29 else 28)
  else if (m =? 4) || (m =? 6) || (m =? 9) || (m =? 11) then 30
  else 31.

Definition valid_month (m : Z) : bool := (1 <=? m) && (m <=? 12).

Definition valid_date (d : date) : bool :=
  (1 <=? year d) && (year d <=? 9999) && valid_month (month d) &&
  (1 <=? day d) && (day d <=? days_in_month (year d) (month d)).

Definition date_eqb (a b : date) : bool :=
  (year a =? year b) && (month a =? month b) && (day a =? day b).

(** [a < b] on dates: the order of (year, month, day). *)
Definition date_ltb (a b : date) : bool :=
  (year a <? year b) ||
  ((year a =? year b) &&
   ((month a <? month b) || ((month a =? month b) && (day a <? day b)))).

(** The two ways [date.replace] and the [date] constructor raise
    [ValueError]. *)
Inductive value_error := MonthOutOfRange | DayOutOfRange.

(** [d.replace(month=m)]: builds [date(d.year, m, d.day)], which checks
    the month first and the day against that month next. *)
Definition replace_month (d : date) (m : Z) : value_error + date :=
  if negb (valid_month m) then inl MonthOutOfRange
  else if negb ((1 <=? day d) && (day d <=? days_in_month (year d) m))
       then inl DayOutOfRange
       else inr (mkdate (year d) m (day d)).

(** [date.toordinal()]: 0001-01-01 is day 1. *)
Definition days_before_year (y : Z) : Z :=
  let p := y - 1 in 365 * p + p / 4 - p / 100 + p / 400.

Fixpoint days_before_month_aux (y : Z) (k : nat) : Z :=
  match k with
  | O => 0
  | S k' => days_before_month_aux y k' + days_in_month y (Z.of_nat k)
  end.

Definition days_before_month (y m : Z) : Z :=
  days_before_month_aux y (Z.to_nat (m - 1)).

Definition toordinal (d : date) : Z :=
  days_before_year (year d) + days_before_month (year d) (month d) + day d.

(** [date.weekday()]: Monday is 0. *)
Definition weekday (d : date) : Z := (toordinal d + 6) mod 7.

Definition day_names : list string :=
  ["Monday"; "Tuesday"; "Wednesday"; "Thursday"; "Friday"; "Saturday";
   "Sunday"]%string.

(** [d.strftime("%A")]. *)
Definition day_name (d : date) : string :=
  nth (Z.to_nat (weekday d)) day_names ""%string.

Definition month_names : list string :=
  ["January"; "February"; "March"; "April"; "May"; "June"; "July";
   "August"; "September"; "October"; "November"; "December"]%string.

(** Decimal rendering, with zero padding to two digits for [%d], [%I],
    [%M]. *)
Definition string_of_Z (z : Z) : string :=
  NilEmpty.string_of_uint (N.to_uint (Z.to_N z)).

Definition two_digits (z : Z) : string :=
  let small := z <? 10 in
  if small then ("0" ++ string_of_Z z)%string else string_of_Z z.

(** [d.strftime("%B %d, %Y")], as in "December 22, 2025". *)
Definition format_date (d : date) : string :=
  (nth (Z.to_nat (month d - 1)) month_names "" ++ " " ++
   two_digits (day d) ++ ", " ++ string_of_Z (year d))%string.

(** A time of day, in minutes after midnight ([TIME] columns hold whole
    minutes throughout the application). *)
Definition time := Z.

Definition hm (h m : Z) : time := 60 * h + m.

(** [t.strftime("%I:%M %p")], as in "09:30 AM". *)
Definition format_time (t : time) : string :=
  let h := t / 60 in
  let h12 := if h mod 12 =? 0 then 12 else h mod 12 in
  let am := h <? 12 in
  (two_digits h12 ++ ":" ++ two_digits (t mod 60) ++ " " ++
   (if am then "AM" else "PM"))%string.

(** *** [datetime.strptime(s, "%Y-%m-%d").date()]

    The format compiles to the anchored pattern
    [(\d\d\d\d)-(1[0-2]|0[1-9]|[1-9])-(3[01]|[12]\d|0[1-9]|[1-9]| [1-9])];
    a match is then turned into a date, which checks the year and the day
    of the month. Every failure is a [ValueError]. *)

Fixpoint split_on (sep : ascii) (s : list ascii) : list (list ascii) :=
  match s with
  | [] => [[]]
  | c :: r =>
      if Ascii.eqb c sep then [] :: split_on sep r
      else match split_on sep r with
           | [] => [[c]]
           | w :: ws => (c :: w) :: ws
           end
  end.

Definition digit_of (c : ascii) : option Z :=
  let n := Z.of_nat (nat_of_ascii c) in
  if (48 <=? n) && (n <=? 57) then Some (n - 48) else None.

Definition parse_year (f : list ascii) : option Z :=
  match f with
  | [a; b; c; d] =>
      match digit_of a, digit_of b, digit_of c, digit_of d with
      | Some a, Some b, Some c, Some d => Some (1000 * a + 100 * b + 10 * c + d)
      | _, _, _, _ => None
      end
  | _ => None
  end.

Definition parse_month (f : list ascii) : option Z :=
  match f with
  | [a] => match digit_of a with
           | Some a => if 1 <=? a then Some a else None
           | None => None
           end
  | [a; b] =>
      match digit_of a, digit_of b with
      | Some a, Some b =>
          if ((a =? 1) && (b <=? 2)) || ((a =? 0) && (1 <=? b))
          then Some (10 * a + b) else None
      | _, _ => None
      end
  | _ => None
  end.

Definition parse_day (f : list ascii) : option Z :=
  match f with
  | [a] => match digit_of a with
           | Some a => if 1 <=? a then Some a else None
           | None => None
           end
  | [a; b] =>
      match digit_of b with
      | Some b =>
          match digit_of a with
          | Some a =>
              if ((a =? 3) && (b <=? 1)) || (a =? 1) || (a =? 2) ||
                 ((a =? 0) && (1 <=? b))
              then Some (10 * a + b) else None
          | None =>
              if Ascii.eqb a " " && (1 <=? b) then Some b else None
          end
      | None => None
      end
  | _ => None
  end.

Definition strptime_date (s : string) : option date :=
  match split_on "-" (list_ascii_of_string s) with
  | [fy; fm; fd] =>
      match parse_year fy, parse_month fm, parse_day fd with
      | Some y, Some m, Some d =>
          let r := mkdate y m d in
          if valid_date r then Some r else None
      | _, _, _ => None
      end
  | _ => None
  end.
End Calendar.

(** ** [backend/utils/validators.py]: [InputValidator] *)

Module InputValidator.
Import Calendar.
Local Open Scope Z_scope.

(** What a call of a validator comes to: a returned value, the
    validator's own [ValidationError], or a [ValueError] that nothing in
    the validator catches. *)
Inductive outcome (A : Type) : Type :=
| Returned (a : A)
| ValidationError (msg : string)
| ValueError (why : value_error).
Arguments Returned {A} a.
Arguments ValidationError {A} msg.
Arguments ValueError {A} why.

(** [validate_date(date_str)], with [date.today()] as [today].

    Only the parse sits inside the [try]; the past check and the
    six-month bound follow it unguarded. *)
Definition validate_date (today : date) (date_str : string) : outcome date :=
  match strptime_date date_str with
  | None => ValidationError "Invalid date format. Use YYYY-MM-DD"
  | Some appt_date =>
      if date_ltb appt_date today
      then ValidationError "Appointment date cannot be in the past"
      else
        (* Max 6 months in advance *)
        match replace_month today (month today + 6) with
        | inl e => ValueError e
        | inr max_date =>
            if date_ltb max_date appt_date
            then ValidationError "Cannot book more than 6 months in advance"
            else Returned appt_date
        end
  end.

Definition is_rejection {A} (o : outcome A) : bool :=
  match o with ValidationError _ => true | _ => false end.
End InputValidator.

(** ** The database schema and [backend/utils/appointment_validator.py] *)

Module Appointments.
Import Calendar.
Local Open Scope Z_scope.

(** A row of [doctors]. *)
Record Doctor := mkDoctor {
  doctor_pk : Z;
  doctor_name : string;
  specialization : string;
  available_days : list string;
  available_start_time : time;
  available_end_time : time;
  slot_duration_minutes : Z }.

(** A row of [appointments]; [status] is one of scheduled, completed,
    cancelled, no-show. *)
Record Appointment := mkAppointment {
  appointment_pk : Z;
  patient_id : Z;
  doctor_id : Z;
  appointment_date : date;
  appointment_time : time;
  duration_minutes : Z;
  status : string }.

(** The table, in insertion order. *)
Definition table := list Appointment.

(** [Appointment.appointment_end_time]: start plus duration. *)
Definition appointment_end_time (a : Appointment) : time :=
  appointment_time a + duration_minutes a.

Definition not_cancelled (a : Appointment) : bool :=
  negb (String.eqb (status a) "cancelled").

(** *** The two conflict queries *)

(** [filter(doctor_id == .., appointment_date == .., appointment_time ==
    .., status != 'cancelled')]. *)
Definition exact_slot_filter (did : Z) (appt_date : date) (appt_time : time)
  (a : Appointment) : bool :=
  (doctor_id a =? did) && date_eqb (appointment_date a) appt_date &&
  (appointment_time a =? appt_time) && not_cancelled a.

(** [.first()] of the exact-slot query. *)
Definition find_existing (db : table) (did : Z) (appt_date : date)
  (appt_time : time) : option Appointment :=
  find (exact_slot_filter did appt_date appt_time) db.

(** [filter(doctor_id == .., appointment_date == .., appointment_time <
    end_time, appointment_end_time > appt_time, status != 'cancelled')]. *)
Definition overlap_filter (did : Z) (appt_date : date)
  (appt_time end_time : time) (a : Appointment) : bool :=
  (doctor_id a =? did) && date_eqb (appointment_date a) appt_date &&
  (appointment_time a <? end_time) && (appt_time <? appointment_end_time a) &&
  not_cancelled a.

(** [.all()] of the overlap query. *)
Definition find_overlapping (db : table) (did : Z) (appt_date : date)
  (appt_time end_time : time) : list Appointment :=
  filter (overlap_filter did appt_date appt_time end_time) db.

(** *** Alternative slots *)

Definition max_suggestions : nat := 5.

Definition slot_is_free (db : table) (did : Z) (appt_date : date)
  (t : time) (duration : Z) : bool :=
  match find_overlapping db did appt_date t (t + duration) with
  | [] => true
  | _ :: _ => false
  end.

(** Modelled from the spec: the body of the alternative-slot search is
    not among the sources. The walk starts at the opening time and
    advances by the slot length; a slot that ends within working hours and
    overlaps no active booking is kept; the walk stops once five are
    found or the next slot would end after closing time. [fuel] bounds
    the number of rounds. *)
Fixpoint walk_slots (db : table) (doc : Doctor) (appt_date : date)
  (fuel : nat) (current : time) (found : nat) : list time :=
  match fuel with
  | O => []
  | S fuel' =>
      let dur := slot_duration_minutes doc in
      if (found <? max_suggestions)%nat &&
         (current + dur <=? available_end_time doc)
      then
        if slot_is_free db (doctor_pk doc) appt_date current dur
        then current :: walk_slots db doc appt_date fuel' (current + dur) (S found)
        else walk_slots db doc appt_date fuel' (current + dur) found
      else []
  end.

(** One round per minute of the working day is enough for any positive
    slot length. *)
Definition day_fuel (doc : Doctor) : nat :=
  S (Z.to_nat (available_end_time doc - available_start_time doc)).

Definition find_available_slots (db : table) (doc : Doctor)
  (appt_date : date) : list time :=
  walk_slots db doc appt_date (day_fuel doc) (available_start_time doc) 0.

(** The rows a request for [(did, d, t)] of length [dur] collides with:
    an active booking that starts at the same time, or one whose
    half-open interval meets the requested one. *)
Definition collides (did : Z) (d : date) (t : time) (dur : Z)
  (a : Appointment) : Prop :=
  doctor_id a = did /\ appointment_date a = d /\
  status a <> "cancelled"%string /\
  (appointment_time a = t \/
   (appointment_time a < t + dur /\ t < appointment_end_time a)).

(** A start time of the provider's grid: opening time plus a whole number
    of slot lengths. *)
Definition on_grid (doc : Doctor) (t : time) : Prop :=
  exists k : nat,
    t = available_start_time doc + Z.of_nat k * slot_duration_minutes doc.

(** A valid alternative: on the grid, inside working hours, and overlapping
    no active booking. *)
Definition open_slot (db : table) (doc : Doctor) (d : date) (t : time) : Prop :=
  on_grid doc t /\ available_start_time doc <= t /\
  t + slot_duration_minutes doc <= available_end_time doc /\
  slot_is_free db (doctor_pk doc) d t (slot_duration_minutes doc) = true.

(** *** Validation *)

(** The dictionary returned by the validator. *)
Record ValidationResult := mkValidation {
  valid : bool;
  error : string;
  error_type : string;
  suggested_slots : list time }.

Definition validation_ok : ValidationResult := mkValidation true "" "" [].

Definition join (l : list string) : string := String.concat ", " l.

Definition no_slots_message : string :=
  "No available slots found on this date. Please try another day.".

(** The conflict messages name at most three of the suggestions. *)
Definition listed (slots : list time) : string :=
  join (map format_time (firstn 3 slots)).

Definition booked_message (appt_date : date) (appt_time : time)
  (slots : list time) : string :=
  match slots with
  | [] => ("This time slot is already booked. " ++ no_slots_message)%string
  | _ :: _ =>
      ("This time slot (" ++ format_time appt_time ++
       ") is already booked. Available slots on " ++ format_date appt_date ++
       ": " ++ listed slots ++ ".")%string
  end.

Definition overlap_message (other : Appointment) (slots : list time) : string :=
  let head := ("This time slot overlaps with another appointment (" ++
               format_time (appointment_time other) ++ " - " ++
               format_time (appointment_end_time other) ++ "). ")%string in
  match slots with
  | [] => (head ++ no_slots_message)%string
  | _ :: _ => (head ++ "Try these times: " ++ listed slots ++ ".")%string
  end.

(** [check_appointment_conflicts]: the exact-slot query first, the
    overlap query next; [None] when the slot is free. The two queries are
    the source's; the function around them is not among the sources, and
    the wording of its answers follows the documented responses. *)
Definition check_appointment_conflicts (db : table) (doc : Doctor)
  (appt_date : date) (appt_time : time) (duration : Z)
  : option (string * list time) :=
  match find_existing db (doctor_pk doc) appt_date appt_time with
  | Some _ =>
      let slots := find_available_slots db doc appt_date in
      Some (booked_message appt_date appt_time slots, slots)
  | None =>
      match find_overlapping db (doctor_pk doc) appt_date appt_time
              (appt_time + duration) with
      | other :: _ =>
          let slots := find_available_slots db doc appt_date in
          Some (overlap_message other slots, slots)
      | [] => None
      end
  end.

(** Clinic holidays: New Year's Day, Independence Day, Christmas Day. *)
Definition holiday_name (d : date) : option string :=
  if (month d =? 1) && (day d =? 1) then Some "New Year's Day"%string
  else if (month d =? 7) && (day d =? 4) then Some "Independence Day"%string
  else if (month d =? 12) && (day d =? 25) then Some "Christmas Day"%string
  else None.

Definition horizon_days : Z := 180.

(** Modelled from the spec: [validate_date_against_availability] is not
    among the sources. Past dates, dates beyond the horizon, holidays and
    days off are rejected, in that order; the messages are the documented
    ones. [None] stands for the pair [(True, None)]. *)
Definition validate_date_against_availability (today appt_date : date)
  (doc : Doctor) : option string :=
  if date_ltb appt_date today
  then Some "Cannot book appointments in the past. Please select a future date."%string
  else if toordinal today + horizon_days <? toordinal appt_date
  then Some "Cannot book appointments more than 6 months in advance. Please select an earlier date."%string
  else match holiday_name appt_date with
  | Some h =>
      Some ("The clinic is closed on " ++ h ++ " (" ++ format_date appt_date ++
            "). Please choose another date.")%string
  | None =>
      if existsb (String.eqb (day_name appt_date)) (available_days doc)
      then None
      else Some (doctor_name doc ++ " is not available on " ++
                 day_name appt_date ++ "s. Available days: " ++
                 join (available_days doc) ++
                 ". Please select a different date.")%string
  end.

(** Modelled from the spec: [validate_time_against_availability] is not
    among the sources. Times outside [start, end) are rejected. *)
Definition validate_time_against_availability (appt_time : time)
  (doc : Doctor) : option string :=
  if (available_start_time doc <=? appt_time) &&
     (appt_time <? available_end_time doc)
  then None
  else Some ("The requested time " ++ format_time appt_time ++
             " is outside " ++ doctor_name doc ++ "'s working hours (" ++
             format_time (available_start_time doc) ++ " - " ++
             format_time (available_end_time doc) ++
             "). Please select a time within these hours.")%string.

(** Modelled from the spec: the body of
    [validate_complete_appointment(doctor, appt_date, appt_time, db)] is not
    among the sources. Date, then time, then conflicts; the first failure
    is returned, tagged with its [error_type]. *)
Definition validate_complete_appointment (today : date) (doc : Doctor)
  (appt_date : date) (appt_time : time) (db : table) : ValidationResult :=
  match validate_date_against_availability today appt_date doc with
  | Some e => mkValidation false e "date" []
  | None =>
      match validate_time_against_availability appt_time doc with
      | Some e => mkValidation false e "time" []
      | None =>
          match check_appointment_conflicts db doc appt_date appt_time
                  (slot_duration_minutes doc) with
          | Some (e, slots) => mkValidation false e "conflict" slots
          | None => validation_ok
          end
      end
  end.

(** *** The insert *)

(** [UNIQUE(doctor_id, appointment_date, appointment_time)]: the
    constraint looks at every row, whatever its status. *)
Definition same_slot (a b : Appointment) : bool :=
  (doctor_id a =? doctor_id b) &&
  date_eqb (appointment_date a) (appointment_date b) &&
  (appointment_time a =? appointment_time b).

Inductive db_error := UniqueViolation (constraint : string).

Definition slot_constraint : string :=
  "appointments_doctor_id_appointment_date_appointment_time_key".

Definition next_pk (db : table) : Z :=
  1 + fold_right (fun a m => Z.max (appointment_pk a) m) 0 db.

(** [db.add(appointment); db.commit()]: the row is stored, or the
    constraint raises and the table is as before. *)
Definition insert_appointment (db : table) (a : Appointment)
  : db_error + table :=
  if existsb (same_slot a) db then inl (UniqueViolation slot_constraint)
  else inr (db ++ [a]).

(** What a booking request is answered with: the confirmation, the
    validator's rejection, or the text of the exception caught around the
    insert ([except Exception as e: db.rollback(); return {"success":
    False, "error": str(e)}]). *)
Inductive BookingResponse :=
| Booked (a : Appointment)
| Rejected (v : ValidationResult)
| DatabaseFailure (e : db_error).

Definition new_appointment (db : table) (patient : Z) (doc : Doctor)
  (appt_date : date) (appt_time : time) : Appointment :=
  mkAppointment (next_pk db) patient (doctor_pk doc) appt_date appt_time
    (slot_duration_minutes doc) "scheduled".

(** The second half of a booking: the insert that follows a clean
    validation. *)
Definition insert_booking (db : table) (patient : Z) (doc : Doctor)
  (appt_date : date) (appt_time : time) : BookingResponse * table :=
  let a := new_appointment db patient doc appt_date appt_time in
  match insert_appointment db a with
  | inl e => (DatabaseFailure e, db)
  | inr db' => (Booked a, db')
  end.

(** [_book_appointment]: validate, answer with the rejection if there is
    one, insert otherwise. *)
Definition book_appointment (today : date) (db : table) (patient : Z)
  (doc : Doctor) (appt_date : date) (appt_time : time)
  : BookingResponse * table :=
  let v := validate_complete_appointment today doc appt_date appt_time db in
  if valid v then insert_booking db patient doc appt_date appt_time
  else (Rejected v, db).

Definition is_booked (r : BookingResponse) : bool :=
  match r with Booked _ => true | _ => false end.

Definition is_conflict_response (r : BookingResponse) : bool :=
  match r with
  | Rejected v => String.eqb (error_type v) "conflict"
  | _ => false
  end.

Definition is_database_failure (r : BookingResponse) : bool :=
  match r with DatabaseFailure _ => true | _ => false end.

(** *** Simultaneous requests

    Each request runs [book_appointment] in its own transaction: it
    validates against the table as it is at that moment and inserts
    later; the inserts are serialised by the unique index. A schedule
    names, step by step, the request that moves next. *)

Inductive phase :=
| NotStarted
| Validated
| Answered (r : BookingResponse).

Record world := mkWorld { rows : table; phases : nat -> phase }.

Definition set_phase (ph : nat -> phase) (i : nat) (p : phase) : nat -> phase :=
  fun j => if Nat.eqb j i then p else ph j.

(** Request [i] (on behalf of patient [i]) takes its next step. *)
Definition step (today : date) (doc : Doctor) (appt_date : date)
  (appt_time : time) (w : world) (i : nat) : world :=
  match phases w i with
  | NotStarted =>
      let v := validate_complete_appointment today doc appt_date appt_time
                 (rows w) in
      if valid v then mkWorld (rows w) (set_phase (phases w) i Validated)
      else mkWorld (rows w) (set_phase (phases w) i (Answered (Rejected v)))
  | Validated =>
      let '(r, db') := insert_booking (rows w) (Z.of_nat i) doc appt_date
                         appt_time in
      mkWorld db' (set_phase (phases w) i (Answered r))
  | Answered _ => w
  end.

Definition run (today : date) (doc : Doctor) (appt_date : date)
  (appt_time : time) (schedule : list nat) (w : world) : world :=
  fold_left (step today doc appt_date appt_time) schedule w.

Definition start (db : table) : world := mkWorld db (fun _ => NotStarted).

(** The answers to requests [0 .. n-1]; a request still under way has
    none. *)
Definition answer_of (w : world) (i : nat) : list BookingResponse :=
  match phases w i with Answered r => [r] | _ => [] end.

Definition answers (w : world) (n : nat) : list BookingResponse :=
  flat_map (answer_of w) (seq 0 n).

(** Every request below [n] gets both of its steps. *)
Definition complete (schedule : list nat) (n : nat) : Prop :=
  forall i, (i < n)%nat -> (2 <= count_occ Nat.eq_dec schedule i)%nat.

(** The request of patient [k] wins the slot: the row it stores, and what a
    request that validates after it is told. *)
Definition won (db0 : table) (doc : Doctor) (d : date) (t : time) (k : nat)
  : Appointment :=
  new_appointment db0 (Z.of_nat k) doc d t.

Definition late_answer (today : date) (db0 : table) (doc : Doctor) (d : date)
  (t : time) (k : nat) : ValidationResult :=
  validate_complete_appointment today doc d t (db0 ++ [won db0 doc d t k]).

(** A stored row, of any status, sits on the slot [(doc, d, t)]. *)
Definition occupies (doc : Doctor) (d : date) (t : time) (a : Appointment)
  : bool :=
  (doctor_pk doc =? doctor_id a) && date_eqb d (appointment_date a) &&
  (t =? appointment_time a).

(** How far a request has come: 0, 1 or 2 steps. *)
Definition steps_taken (p : phase) : nat :=
  match p with NotStarted => 0 | Validated => 1 | Answered _ => 2 end.

(** What holds of every world a schedule over requests [0 .. n-1] reaches
    from [start db0]: either nothing is stored yet and nobody has an answer,
    or one request [k] has stored its row and every answer given to another
    request is the unique-index failure or the conflict computed after
    that row. *)
Definition race_invariant (today : date) (doc : Doctor) (d : date) (t : time)
  (db0 : table) (n : nat) (w : world) : Prop :=
  (rows w = db0 /\
   forall i, phases w i = NotStarted \/ phases w i = Validated) \/
  (exists k, (k < n)%nat /\ rows w = db0 ++ [won db0 doc d t k] /\
     phases w k = Answered (Booked (won db0 doc d t k)) /\
     forall i, i <> k ->
       phases w i = NotStarted \/ phases w i = Validated \/
       phases w i = Answered (DatabaseFailure (UniqueViolation slot_constraint)) \/
       phases w i = Answered (Rejected (late_answer today db0 doc d t k))).

(** The no-double-booking property in the words of the specification: of
    [n >= 2] simultaneous requests for one bookable slot, exactly one
    succeeds and the other [n - 1] are answered with a conflict. *)
Definition one_success_rest_conflicts : Prop :=
  forall today doc d t db0 n schedule,
    (2 <= n)%nat ->
    valid (validate_complete_appointment today doc d t db0) = true ->
    Forall (fun i => (i < n)%nat) schedule -> complete schedule n ->
    let w := run today doc d t schedule (start db0) in
    List.length (filter is_booked (answers w n)) = 1%nat /\
    List.length (filter is_conflict_response (answers w n)) = (n - 1)%nat.
End Appointments.

(** ** [backend/utils/conversation_memory.py]: [ConversationMemoryManager] *)

Module Memory.
Local Open Scope Z_scope.

(** Seconds since the epoch. *)
Definition timestamp := Z.

(** The JSON document of the [context_data] column. *)
Record SelectedDoctor := mkSelected {
  sel_id : Z;
  sel_name : string;
  sel_specialization : string;
  selected_at : timestamp }.

Record RejectionEntry := mkRejection {
  rej_date : string;
  rej_reason : string;
  rej_timestamp : timestamp }.

Record SuccessfulBooking := mkSuccess {
  sb_appointment_id : Z;
  sb_doctor_name : string;
  sb_date : string;
  sb_time : string;
  booked_at : timestamp }.

Record ContextData := mkData {
  selected_doctor : option SelectedDoctor;
  attempted_dates : list string;
  last_rejection_reason : option string;
  rejection_history : list RejectionEntry;
  last_successful_booking : option SuccessfulBooking }.

Definition empty_data : ContextData := mkData None [] None [] None.

(** A row of [conversation_contexts]; [patient_email] is nullable. *)
Record ConversationContext := mkContext {
  context_pk : Z;
  session_id : string;
  patient_email : option string;
  context_data : ContextData;
  last_message : option string;
  last_response : option string;
  message_count : Z;
  created_at : timestamp;
  updated_at : timestamp;
  expires_at : timestamp }.

Definition table := list ConversationContext.

(** [filter(session_id == s, patient_email == e)]: a row without an email
    matches no user. *)
Definition keyed (s e : string) (c : ConversationContext) : bool :=
  String.eqb (session_id c) s &&
  match patient_email c with
  | Some e' => String.eqb e' e
  | None => false
  end.

(** [.first()] of the query by both keys. *)
Definition find_context (s e : string) (db : table) : option ConversationContext :=
  find (keyed s e) db.

(** The two schema listings differ on [session_id]: the table definition
    declares the column UNIQUE, the later index list has a plain index on it
    and a unique index on the pair (session_id, patient_email). [strict]
    selects the former. *)
Definition violates (strict : bool) (c : ConversationContext) (db : table) : bool :=
  existsb (fun r =>
             String.eqb (session_id r) (session_id c) &&
             (strict ||
              match patient_email r, patient_email c with
              | Some a, Some b => String.eqb a b
              | _, _ => false
              end)) db.

Inductive MemoryError :=
| PatientEmailRequired   (* ValueError("patient_email is required for user isolation") *)
| IntegrityError.

(** Python truth of an optional string: [None] and [""] are false. *)
Definition given (o : option string) : option string :=
  match o with
  | Some "" => None
  | other => other
  end%string.

Definition ttl_seconds : Z := 24 * 3600.

Definition next_pk (db : table) : Z :=
  1 + fold_right (fun c m => Z.max (context_pk c) m) 0 db.

(** A context as first stored: empty, expiring in 24 hours. *)
Definition fresh_context (s e : string) (now : timestamp) (db : table)
  : ConversationContext :=
  mkContext (next_pk db) s (Some e) empty_data None None 0 now now
    (now + ttl_seconds).

(** Modelled from the spec: the bodies of the mutators are not among the
    sources; their signatures, the query by both keys and the required
    email are. [get_or_create_context] returns the row of (s, e), storing a
    fresh one when there is none. *)
Definition get_or_create_context (strict : bool) (s : string)
  (e : option string) (now : timestamp) (db : table)
  : (MemoryError + ConversationContext) * table :=
  match given e with
  | None => (inl PatientEmailRequired, db)
  | Some e =>
      match find_context s e db with
      | Some c => (inr c, db)
      | None =>
          let c := fresh_context s e now db in
          if violates strict c db then (inl IntegrityError, db)
          else (inr c, db ++ [c])
      end
  end.

(** Writing back the object that [.first()] returned: the first row with
    these keys. *)
Fixpoint replace_first (p : ConversationContext -> bool)
  (c' : ConversationContext) (db : table) : table :=
  match db with
  | [] => []
  | c :: rest => if p c then c' :: rest else c :: replace_first p c' rest
  end.

(** Modelled from the spec: load or create the row of (s, e), change it,
    commit. *)
Definition modify_context (strict : bool) (s : string) (e : option string)
  (now : timestamp) (f : ConversationContext -> ConversationContext)
  (db : table) : option MemoryError * table :=
  match get_or_create_context strict s e now db with
  | (inl err, db') => (Some err, db')
  | (inr c, db') =>
      match given e with
      | Some e' => (None, replace_first (keyed s e') (f c) db')
      | None => (Some PatientEmailRequired, db')
      end
  end.

(** A change of [context_data]; [updated_at] moves with it. *)
Definition with_data (g : ContextData -> ContextData) (now : timestamp)
  (c : ConversationContext) : ConversationContext :=
  mkContext (context_pk c) (session_id c) (patient_email c)
    (g (context_data c)) (last_message c) (last_response c) (message_count c)
    (created_at c) now (expires_at c).

(** Modelled from the spec: [save_doctor_selection(session_id,
    patient_email, doctor_id, doctor_name, specialization, db)] sets
    [selected_doctor]. *)
Definition save_doctor_selection (strict : bool) (s : string)
  (e : option string) (doctor_id : Z) (doctor_name specialization : string)
  (now : timestamp) (db : table) : option MemoryError * table :=
  modify_context strict s e now
    (with_data (fun cd =>
       mkData (Some (mkSelected doctor_id doctor_name specialization now))
         (attempted_dates cd) (last_rejection_reason cd)
         (rejection_history cd) (last_successful_booking cd)) now) db.

(** Modelled from the spec: [save_attempted_date(session_id, patient_email,
    date, reason, db)] adds the date to [attempted_dates], sets
    [last_rejection_reason] and extends [rejection_history]. *)
Definition save_attempted_date (strict : bool) (s : string)
  (e : option string) (date reason : string) (now : timestamp) (db : table)
  : option MemoryError * table :=
  modify_context strict s e now
    (with_data (fun cd =>
       mkData (selected_doctor cd)
         (if existsb (String.eqb date) (attempted_dates cd)
          then attempted_dates cd else attempted_dates cd ++ [date])
         (Some reason)
         (rejection_history cd ++ [mkRejection date reason now])
         (last_successful_booking cd)) now) db.

(** Modelled from the spec: [save_successful_booking(session_id,
    patient_email, appointment_id, doctor_name, date, time, db)] sets
    [last_successful_booking]. *)
Definition save_successful_booking (strict : bool) (s : string)
  (e : option string) (appointment_id : Z) (doctor_name date time : string)
  (now : timestamp) (db : table) : option MemoryError * table :=
  modify_context strict s e now
    (with_data (fun cd =>
       mkData (selected_doctor cd) (attempted_dates cd)
         (last_rejection_reason cd) (rejection_history cd)
         (Some (mkSuccess appointment_id doctor_name date time now))) now) db.

(** Modelled from the spec: [update_message_count(session_id,
    patient_email, user_message, ai_response, db)] counts the turn, keeps
    its two texts and renews the expiry. *)
Definition update_message_count (strict : bool) (s : string)
  (e : option string) (user_message ai_response : string) (now : timestamp)
  (db : table) : option MemoryError * table :=
  modify_context strict s e now
    (fun c =>
       mkContext (context_pk c) (session_id c) (patient_email c)
         (context_data c) (Some user_message) (Some ai_response)
         (message_count c + 1) (created_at c) now (now + ttl_seconds)) db.

(** The lines of the summary, one per remembered fact. *)
Definition doctor_line (cd : ContextData) : list string :=
  match selected_doctor cd with
  | Some sd =>
      ["- The user has previously shown interest in " ++ sel_name sd ++
       " (" ++ sel_specialization sd ++ ")."]%string
  | None => []
  end.

Definition dates_line (cd : ContextData) : list string :=
  match attempted_dates cd with
  | [] => []
  | ds =>
      ["- The user has attempted to book on: " ++ String.concat ", " ds ++ "."]%string
  end.

Definition rejection_line (cd : ContextData) : list string :=
  match last_rejection_reason cd with
  | Some r => ["- Last booking attempt failed because: " ++ r]%string
  | None => []
  end.

Definition booking_line (cd : ContextData) : list string :=
  match last_successful_booking cd with
  | Some b =>
      ["- User successfully booked an appointment (ID: " ++
       Calendar.string_of_Z (sb_appointment_id b) ++ ") with " ++
       sb_doctor_name b ++ " on " ++ sb_date b ++ " at " ++ sb_time b ++ "."]%string
  | None => []
  end.

Definition summary_lines (cd : ContextData) : list string :=
  List.app (doctor_line cd)
    (List.app (dates_line cd) (List.app (rejection_line cd) (booking_line cd))).

Definition newline : string := String (ascii_of_nat 10) EmptyString.

(** [get_context_for_prompt(session_id, patient_email, db)]: no email, no
    context; otherwise the row found by both keys, rendered. The guard and
    the query are the source's; the rendering follows the documented
    prompt block. *)
Definition get_context_for_prompt (s : string) (e : option string) (db : table)
  : string :=
  match given e with
  | None => ""
  | Some e =>
      match find_context s e db with
      | None => ""
      | Some c =>
          match summary_lines (context_data c) with
          | [] => ""
          | ls => "**Conversation Context:**" ++ newline ++ String.concat newline ls
          end
      end
  end%string.

(** Modelled from the spec: [cleanup_expired_contexts(db)] deletes the
    contexts whose [expires_at] has passed. *)
Definition cleanup_expired_contexts (now : timestamp) (db : table) : table :=
  filter (fun c => now <=? expires_at c) db.

(** The keyed operations of the store, as one type. *)
Inductive MemoryOp :=
| GetOrCreate
| SaveDoctorSelection (doctor_id : Z) (doctor_name specialization : string)
| SaveAttemptedDate (date reason : string)
| SaveSuccessfulBooking (appointment_id : Z) (doctor_name date time : string)
| UpdateMessageCount (user_message ai_response : string)
| GetContextForPrompt.

Inductive OpResult :=
| Done
| Found (c : ConversationContext)
| Summary (text : string)
| Failed (err : MemoryError).

Definition done (r : option MemoryError * table) : OpResult * table :=
  match r with
  | (Some err, db) => (Failed err, db)
  | (None, db) => (Done, db)
  end.

Definition run_op (strict : bool) (op : MemoryOp) (s : string)
  (e : option string) (now : timestamp) (db : table) : OpResult * table :=
  match op with
  | GetOrCreate =>
      match get_or_create_context strict s e now db with
      | (inl err, db') => (Failed err, db')
      | (inr c, db') => (Found c, db')
      end
  | SaveDoctorSelection i n sp => done (save_doctor_selection strict s e i n sp now db)
  | SaveAttemptedDate d r => done (save_attempted_date strict s e d r now db)
  | SaveSuccessfulBooking i n d t =>
      done (save_successful_booking strict s e i n d t now db)
  | UpdateMessageCount m r => done (update_message_count strict s e m r now db)
  | GetContextForPrompt => (Summary (get_context_for_prompt s e db), db)
  end.

(** The rows a request of (s, e) has no business with. *)
Definition foreign (s e : string) (db : table) : table :=
  filter (fun c => negb (keyed s e c)) db.

(** The rows of (s, e). *)
Definition own (s e : string) (db : table) : table :=
  filter (keyed s e) db.
End Memory.

(** ** [backend/agents/orchestrator.py] and the chat endpoint of [backend/main.py] *)

Module Orchestrator.

(** A tool call requested by the model, an answer of the model, and an
    entry of the message list sent to it. *)
Record ToolCall := mkCall {
  call_id : string;
  call_name : string;
  call_arguments : string }.

(** [llm_content] is [llm_response.get("content", "")], [llm_tool_calls]
    is [llm_response.get("tool_calls")] with a missing or null list as []. *)
Record LLMResponse := mkLLM {
  llm_content : option string;
  llm_tool_calls : list ToolCall }.

Record Message := mkMessage {
  role : string;
  content : option string;
  msg_tool_calls : list ToolCall;
  tool_call_id : option string;
  name : option string }.

(** What the synthesizer reads of a tool's result: [.get("success")],
    [.get("doctors", [])] and the JSON text of the whole. *)
Record DoctorInfo := mkDoctorInfo {
  info_name : string;
  info_specialization : string;
  info_available_days : list string }.

Record ResultData := mkResult {
  success : bool;
  doctors : list DoctorInfo;
  dumped : string }.

Record ToolResult := mkToolResult {
  result_call_id : string;
  result_tool_name : string;
  result_data : ResultData }.

(** The database session as the orchestrator sees it: the conversation
    contexts, and a log of the calls made to the memory manager. *)
Inductive MemoryAccess :=
| MemRead (s : string) (e : option string)
| MemWrite (s : string) (e : option string).

Record World := mkWorld {
  contexts : Memory.table;
  memory_log : list MemoryAccess }.

(** The dictionary returned by [process_message]. *)
Record Envelope := mkEnvelope {
  env_success : bool;
  response : option string;
  tool_calls_made : nat;
  iterations : nat;
  warning : option string;
  env_error : option string }.

Record LoopState := mkState {
  llm_messages : list Message;
  all_tool_results : list ToolResult;
  iteration : nat;
  context_messages : list (string * option string);
  world : World;
  llm_log : list LLMResponse }.

Definition default_max_iterations : nat := 5.

Definition system_message (text : string) : Message :=
  mkMessage "system" (Some text) [] None None.

Definition user_message_of (text : string) : Message :=
  mkMessage "user" (Some text) [] None None.

Definition assistant_message (r : LLMResponse) : Message :=
  mkMessage "assistant" (llm_content r) (llm_tool_calls r) None None.

(** The entry appended for a tool result in the main loop. *)
Definition tool_message (r : ToolResult) : Message :=
  mkMessage "tool" (Some (dumped (result_data r))) []
    (Some (result_call_id r)) (Some (result_tool_name r)).

Definition is_tool_message (m : Message) : bool := String.eqb (role m) "tool".

(** The call ids of the tool entries of a message list, in order. *)
Definition transcript_call_ids (msgs : list Message) : list string :=
  flat_map (fun m => if is_tool_message m
                     then match tool_call_id m with Some i => [i] | None => [] end
                     else []) msgs.

(** The call ids the model issued, in order. *)
Definition issued_call_ids (log : list LLMResponse) : list string :=
  flat_map (fun r => map call_id (llm_tool_calls r)) log.

(** Python truth of an optional string. *)
Definition truthy (o : option string) : bool :=
  match Memory.given o with Some _ => true | None => false end.

Definition nat_to_string (n : nat) : string :=
  NilEmpty.string_of_uint (Nat.to_uint n).

Definition lf : string := Memory.newline.

(** One line per doctor, with up to three of the available days. *)
Definition format_doctor (doc : DoctorInfo) : string :=
  ("• " ++ info_name doc ++ " - " ++ info_specialization doc ++ lf ++
   match info_available_days doc with
   | [] => ""
   | days => "  Available: " ++ String.concat ", " (firstn 3 days) ++ lf
   end)%string.

(** The [list_doctors] branch: "1 doctor", "2 doctors". *)
Definition format_list_doctors (rd : ResultData) : string :=
  if success rd then
    let doctor_count := List.length (doctors rd) in
    let doctor_word :=
      (if Nat.eqb doctor_count 1 then "doctor" else "doctors")%string in
    ("We have " ++ nat_to_string doctor_count ++ " " ++ doctor_word ++
     " available:" ++ lf ++ lf ++
     String.concat "" (map format_doctor (doctors rd)))%string
  else ""%string.

Definition missing_user_email : string :=
  "user_email is required for conversation isolation".

Definition max_iterations_warning : string :=
  "Max iterations reached - LLM may not be responding properly".

Definition apology : string :=
  "I apologize, but I'm having trouble processing your request. Please try again.".

Definition no_results_error : string := "Max iterations reached without results".

Section Agent.
(** [_call_llm(messages, tools, "auto")]: the model is any function of the
    number of calls made so far in this request and of the messages. *)
Variable call_llm : nat -> list Message -> LLMResponse.
(** The tool registry: runs the handler on the database and wraps its
    failures into a result. *)
Variable call_tool : ToolCall -> World -> ResultData * World.
(** The formatting branches of the synthesizer that the sources leave out. *)
Variable format_other : ToolResult -> string.
(** The system prompt built around the memory summary. *)
Variable system_prompt : string -> string.
Variable strict : bool.
Variable now : Memory.timestamp.

Definition format_result (r : ToolResult) : string :=
  if String.eqb (result_tool_name r) "list_doctors"
  then format_list_doctors (result_data r)
  else format_other r.

(** [_synthesize_final_response(messages, tool_results)]: [messages] is the
    very list of the loop; the function returns it as it leaves it, next to
    the text. It formats and appends nothing. *)
Definition _synthesize_final_response (messages : list Message)
  (tool_results : list ToolResult) : list Message * string :=
  (messages,
   fold_left (fun final_response r => (final_response ++ format_result r)%string)
     tool_results ""%string).

(** Modelled from the spec: the part of the loop body elided in the
    sources. Each requested call is run in order and yields one result that
    carries the id of its call. *)
Fixpoint execute_tool_calls (calls : list ToolCall) (w : World)
  : list ToolResult * World :=
  match calls with
  | [] => ([], w)
  | c :: rest =>
      let (rd, w1) := call_tool c w in
      let (rs, w2) := execute_tool_calls rest w1 in
      (mkToolResult (call_id c) (call_name c) rd :: rs, w2)
  end.

(** Python truth of a list. *)
Definition nonempty {A : Type} (l : list A) : bool :=
  match l with [] => false | _ :: _ => true end.

(** The code after the loop: max iterations were hit. *)
Definition after_loop (st : LoopState) : Envelope * LoopState :=
  if nonempty (all_tool_results st) then
    let (msgs, final_response) :=
      _synthesize_final_response (llm_messages st) (all_tool_results st) in
    (mkEnvelope true (Some final_response) (List.length (all_tool_results st))
       (iteration st) (Some max_iterations_warning) None,
     mkState msgs (all_tool_results st) (iteration st)
       (context_messages st ++ [("assistant"%string, Some final_response)])
       (world st) (llm_log st))
  else
    (mkEnvelope false (Some apology) 0 (iteration st) None
       (Some no_results_error), st).

(** [while iteration < max_iterations: ...]; [fuel] bounds the number of
    times the loop condition is evaluated, [None] is a loop still running
    when the fuel is spent. *)
Fixpoint agent_loop (max_iterations fuel : nat) (st : LoopState)
  : option (Envelope * LoopState) :=
  match fuel with
  | O => None
  | S fuel' =>
      if (iteration st <? max_iterations)%nat then
        let iteration' := S (iteration st) in
        let llm_response := call_llm (List.length (llm_log st)) (llm_messages st) in
        let log' := llm_log st ++ [llm_response] in
        match llm_tool_calls llm_response with
        | [] =>
            let final_content := llm_content llm_response in
            let (msgs, final_content) :=
              if negb (truthy final_content) && nonempty (all_tool_results st)
              then
                let (msgs, text) :=
                  _synthesize_final_response (llm_messages st)
                    (all_tool_results st) in
                (msgs, Some text)
              else (llm_messages st, final_content) in
            Some (mkEnvelope true final_content
                    (List.length (all_tool_results st)) iteration' None None,
                  mkState msgs (all_tool_results st) iteration'
                    (context_messages st ++ [("assistant"%string, final_content)])
                    (world st) log')
        | calls =>
            let (tool_results, w') := execute_tool_calls calls (world st) in
            agent_loop max_iterations fuel'
              (mkState
                 (llm_messages st ++ assistant_message llm_response ::
                    map tool_message tool_results)
                 (all_tool_results st ++ tool_results) iteration'
                 (context_messages st) w' log')
        end
      else Some (after_loop st)
  end.

Definition init_state (msgs : list Message) (w : World) : LoopState :=
  mkState msgs [] 0 [] w [].

(** What a call of [process_message] comes to. *)
Inductive Outcome :=
| Returned (env : Envelope)
| Raised (value_error : string)
| StillRunning.

Definition log_access (a : MemoryAccess) (w : World) : World :=
  mkWorld (contexts w) (memory_log w ++ [a]).

(** [process_message(session_id, user_email, user_message, db)]: the
    check of [user_email] comes first; the memory summary is read next and
    goes into the system prompt; the loop runs; the message count is written
    back once there is an answer (a failure of that write is logged and
    otherwise ignored). The turns of the conversation so far come as
    [history]; [StillRunning] stands for a loop that outlives its fuel. *)
Definition process_message (max_iterations : nat) (session_id : string)
  (user_email : option string) (user_message : string)
  (history : list Message) (w : World) : Outcome * World :=
  if negb (truthy user_email) then (Raised missing_user_email, w)
  else
    let memory_context :=
      Memory.get_context_for_prompt session_id user_email (contexts w) in
    let w1 := log_access (MemRead session_id user_email) w in
    let msgs := system_message (system_prompt memory_context) :: history ++
                [user_message_of user_message] in
    match agent_loop max_iterations (S max_iterations)
            (init_state msgs w1) with
    | None => (StillRunning, w1)
    | Some (env, st) =>
        if env_success env then
          let final_response :=
            match response env with Some r => r | None => ""%string end in
          let (_, db') :=
            Memory.update_message_count strict session_id user_email
              user_message final_response now (contexts (world st)) in
          (Returned env,
           mkWorld db' (memory_log (world st) ++ [MemWrite session_id user_email]))
        else (Returned env, world st)
    end.

(** *** The chat endpoint *)

Record ChatMessage := mkChat {
  chat_session_id : option string;
  message : string;
  user_type : string;
  user_email : option string }.

(** Whitespace for [str.strip()], among the code points below 256. *)
Definition is_space (c : ascii) : bool :=
  let n := nat_of_ascii c in
  ((9 <=? n) && (n <=? 13) || (28 <=? n) && (n <=? 32) ||
   (n =? 133) || (n =? 160))%nat.

Fixpoint lstrip (l : list ascii) : list ascii :=
  match l with
  | c :: rest => if is_space c then lstrip rest else l
  | [] => []
  end.

Definition strip (s : string) : string :=
  string_of_list_ascii (rev (lstrip (rev (lstrip (list_ascii_of_string s))))).

(** [not message.user_email or not message.user_email.strip()]. *)
Definition no_user_email (e : option string) : bool :=
  negb (truthy e) ||
  match e with
  | Some s => negb (truthy (Some (strip s)))
  | None => true
  end.

Inductive HTTPResult :=
| HTTPException (status_code : nat) (detail : string)
| ChatResponse (env : Envelope) (session : string).

(** [chat(message, db)]: the request is refused with 400 before the agent
    is reached when the email is missing or blank; [fresh_session] is the
    id generated for a request without one. *)
Definition chat (max_iterations : nat) (fresh_session : string)
  (history : list Message) (msg : ChatMessage) (w : World)
  : HTTPResult * World :=
  if no_user_email (user_email msg)
  then (HTTPException 400 missing_user_email, w)
  else
    let session_id :=
      match Memory.given (chat_session_id msg) with
      | Some s => s
      | None => fresh_session
      end in
    match process_message max_iterations session_id (user_email msg)
            (message msg) history w with
    | (Returned env, w') => (ChatResponse env session_id, w')
    | (Raised e, w') => (HTTPException 500 e, w')
    | (StillRunning, w') => (HTTPException 500 "", w')
    end.
End Agent.

(** An identifier is absent or blank: null, empty, or whitespace only. *)
Definition absent_or_blank (e : option string) : Prop :=
  match e with
  | None => True
  | Some s => Forall (fun c => is_space c = true) (list_ascii_of_string s)
  end.

(** Every answer of the model recorded in the log asked for tools: the
    loop was not ended by the model. *)
Definition model_never_answered (log : list LLMResponse) : Prop :=
  Forall (fun r => llm_tool_calls r <> []) log.
End Orchestrator.

(** ** [backend/utils/validators.py]: the text validators of [InputValidator] *)

Module InputValidatorText.
Import Calendar InputValidator.

(** Python truth of a string. *)
Definition nonblank (s : string) : bool := Orchestrator.truthy (Some s).

Definition in_range (lo hi : nat) (c : ascii) : bool :=
  let n := nat_of_ascii c in ((lo <=? n) && (n <=? hi))%nat.

(** [\d], among the code points below 256. *)
Definition is_digit (c : ascii) : bool := in_range 48 57 c.

(** [[a-zA-Z]]. *)
Definition is_letter (c : ascii) : bool := in_range 65 90 c || in_range 97 122 c.

(** [[a-zA-Z\s\-'.]]: letters, spaces, hyphens, apostrophes, dots. *)
Definition name_char (c : ascii) : bool :=
  is_letter c || Orchestrator.is_space c || Ascii.eqb c "-" ||
  Ascii.eqb c "'" || Ascii.eqb c ".".

(** Where [$] matches: at the end of the string, and before a newline that
    ends it. The result is the string up to that point. *)
Definition up_to_dollar (l : list ascii) : list ascii :=
  match rev l with
  | c :: r => if Ascii.eqb c (ascii_of_nat 10) then rev r else l
  | [] => l
  end.

(** [re.match(r"^[a-zA-Z\s\-'.]+$", name)]; the newline is in the class, so
    the string matches when it is not empty and all of it is in the class. *)
Definition match_name (name : string) : bool :=
  match list_ascii_of_string name with
  | [] => false
  | l => forallb name_char l
  end.

(** [validate_name(name, field_name)]. *)
Definition validate_name (name field_name : string) : outcome string :=
  if negb (nonblank name) || negb (nonblank (Orchestrator.strip name))
  then ValidationError (field_name ++ " is required")
  else
    let name := Orchestrator.strip name in
    if (String.length name <? 2)%nat
    then ValidationError (field_name ++ " must be at least 2 characters")
    else if (100 <? String.length name)%nat
    then ValidationError (field_name ++ " must be less than 100 characters")
    else
      (* Allow letters, spaces, hyphens, apostrophes, dots *)
      if negb (match_name name)
      then ValidationError (field_name ++ " contains invalid characters")
      else Returned name.

(** [[\s\-\(\)\+]]: the common formatting of a phone number. *)
Definition phone_formatting (c : ascii) : bool :=
  Orchestrator.is_space c || Ascii.eqb c "-" || Ascii.eqb c "(" ||
  Ascii.eqb c ")" || Ascii.eqb c "+".

(** [re.sub(r'[\s\-\(\)\+]', '', phone)]. *)
Definition cleaned (phone : string) : list ascii :=
  filter (fun c => negb (phone_formatting c)) (list_ascii_of_string phone).

(** [re.match(r'^\d{10,15}$', cleaned)]. *)
Definition match_phone (l : list ascii) : bool :=
  let d := up_to_dollar l in
  (10 <=? List.length d)%nat && (List.length d <=? 15)%nat && forallb is_digit d.

(** [validate_phone(phone)]: the number is checked without its formatting
    and returned with it. *)
Definition validate_phone (phone : string) : outcome string :=
  if negb (nonblank phone) then ValidationError "Phone number is required"
  else
    (* Should be 10-15 digits *)
    if negb (match_phone (cleaned phone))
    then ValidationError "Phone number must be 10-15 digits"
    else Returned (Orchestrator.strip phone).

(** *** [datetime.strptime(s, "%H:%M").time()]

    The format compiles to [(2[0-3]|[0-1]\d|\d):([0-5]\d|\d)]; the match
    has to use up the string. *)

Definition parse_hour (f : list ascii) : option Z :=
  match f with
  | [a] => digit_of a
  | [a; b] =>
      match digit_of a, digit_of b with
      | Some a, Some b =>
          if ((a =? 2) && (b <=? 3) || (a <=? 1))%Z
          then Some (10 * a + b)%Z else None
      | _, _ => None
      end
  | _ => None
  end.

Definition parse_minute (f : list ascii) : option Z :=
  match f with
  | [a] => digit_of a
  | [a; b] =>
      match digit_of a, digit_of b with
      | Some a, Some b => if (a <=? 5)%Z then Some (10 * a + b)%Z else None
      | _, _ => None
      end
  | _ => None
  end.

(** The hour and the minute of the parsed time. *)
Definition strptime_time (s : string) : option (Z * Z) :=
  match split_on ":" (list_ascii_of_string s) with
  | [fh; fm] =>
      match parse_hour fh, parse_minute fm with
      | Some h, Some m => Some (h, m)
      | _, _ => None
      end
  | _ => None
  end.

(** [validate_time(time_str)]: the string itself is returned. *)
Definition validate_time (time_str : string) : outcome string :=
  match strptime_time time_str with
  | None => ValidationError "Invalid time format. Use HH:MM (24-hour)"
  | Some (hour, _) =>
      (* Business hours: 8 AM to 6 PM *)
      if ((hour <? 8) || (18 <=? hour))%Z
      then ValidationError "Appointments only available 8:00 AM - 6:00 PM"
      else Returned time_str
  end.

(** A reading of the clock as [HH:MM]. *)
Definition clock (h m : Z) : string :=
  (two_digits h ++ ":" ++ two_digits m)%string.

(** [[\x00-\x08\x0B\x0C\x0E-\x1F\x7F]]: the control characters other than
    tab, newline and carriage return. *)
Definition is_control (c : ascii) : bool :=
  in_range 0 8 c || in_range 11 12 c || in_range 14 31 c || in_range 127 127 c.

(** [str(n)] of an integer. *)
Definition str_int (n : Z) : string :=
  let negative := (n <? 0)%Z in
  if negative then ("-" ++ string_of_Z (- n))%string else string_of_Z n.

Definition default_max_length : Z := 500.

(** [sanitize_text(text, max_length)]: the length is checked after the
    strip and before the control characters are removed. *)
Definition sanitize_text (text : string) (max_length : Z) : outcome string :=
  if negb (nonblank text) then Returned ""%string
  else
    let text := Orchestrator.strip text in
    let too_long := (max_length <? Z.of_nat (String.length text))%Z in
    if too_long
    then ValidationError ("Text exceeds maximum length of " ++ str_int max_length)
    else
      (* Remove control characters except newlines and tabs *)
      Returned (string_of_list_ascii
                  (filter (fun c => negb (is_control c))
                     (list_ascii_of_string text))).
End InputValidatorText.

(** ** [backend/middleware/rate_limiter.py]: [RateLimiter] *)

Module RateLimiter.
Local Open Scope Z_scope.

(** [datetime.now()], in microseconds; [timedelta(minutes=1)]. *)
Definition instant := Z.
Definition one_minute : Z := 60000000.

(** [self.requests], a [defaultdict(list)] from client address to the
    times of its counted requests, in insertion order. *)
Definition store := list (string * list instant).

Record Limiter := mkLimiter {
  requests_per_minute : Z;
  requests : store }.

Definition default_requests_per_minute : Z := 60.

(** [RateLimiter(requests_per_minute)]. *)
Definition init (requests_per_minute : Z) : Limiter :=
  mkLimiter requests_per_minute [].

(** [d[ip]] read on the [defaultdict]: the list of a missing key is
    empty. *)
Fixpoint item (ip : string) (d : store) : list instant :=
  match d with
  | [] => []
  | (k, l) :: rest => if String.eqb k ip then l else item ip rest
  end.

(** [d[ip] = l]: the value of the key is replaced where it stands; a new
    key goes to the end. *)
Fixpoint assign (ip : string) (l : list instant) (d : store) : store :=
  match d with
  | [] => [(ip, l)]
  | (k, old) :: rest =>
      if String.eqb k ip then (k, l) :: rest else (k, old) :: assign ip l rest
  end.

(** [del d[ip]]. *)
Definition delete (ip : string) (d : store) : store :=
  filter (fun e => negb (String.eqb (fst e) ip)) d.

(** [[req_time for req_time in l if req_time > minute_ago]]. *)
Definition newer_than (minute_ago : instant) (l : list instant) : list instant :=
  filter (fun req_time => minute_ago <? req_time) l.

Inductive Response :=
| Passed
| HTTPException (status_code : nat) (detail : string).

(** [check_rate_limit(request)], with [request.client.host] as
    [client_ip] and [datetime.now()] as [now]. The coroutine awaits
    nothing, so it runs to its end once started. *)
Definition check_rate_limit (now : instant) (client_ip : string)
  (self : Limiter) : Response * Limiter :=
  let minute_ago := now - one_minute in
  (* Clean old requests *)
  let recent := newer_than minute_ago (item client_ip (requests self)) in
  let cleaned := assign client_ip recent (requests self) in
  (* Check limit *)
  if requests_per_minute self <=? Z.of_nat (List.length recent)
  then (HTTPException 429 "Too many requests. Please try again later.",
        mkLimiter (requests_per_minute self) cleaned)
  else
    (* Add current request *)
    (Passed,
     mkLimiter (requests_per_minute self)
       (assign client_ip (item client_ip cleaned ++ [now]) cleaned)).

(** One round of [cleanup_old_entries], run at [now]: every key of the
    snapshot [list(self.requests.keys())] gets its list filtered, and is
    deleted when nothing is left. *)
Definition cleanup_entry (minute_ago : instant) (d : store) (ip : string)
  : store :=
  let d' := assign ip (newer_than minute_ago (item ip d)) d in
  match item ip d' with
  | [] => delete ip d'
  | _ :: _ => d'
  end.

Definition cleanup_old_entries (now : instant) (self : Limiter) : Limiter :=
  let minute_ago := now - one_minute in
  mkLimiter (requests_per_minute self)
    (fold_left (cleanup_entry minute_ago) (map fst (requests self))
       (requests self)).

(** A request: when it came and from where. *)
Definition Request := (instant * string)%type.

(** The requests served so far, and the limiter. *)
Definition serve (acc : list Request * Limiter) (req : Request)
  : list Request * Limiter :=
  match check_rate_limit (fst req) (snd req) (snd acc) with
  | (Passed, self') => (fst acc ++ [req], self')
  | (HTTPException _ _, self') => (fst acc, self')
  end.

(** The limiter after the requests of [trace], from its start. *)
Definition run (requests_per_minute : Z) (trace : list Request)
  : list Request * Limiter :=
  fold_left serve trace ([], init requests_per_minute).

(** The clock does not run backwards along the trace. *)
Definition clock_monotone (trace : list Request) : Prop :=
  StronglySorted (fun a b => fst a <= fst b) trace.

(** The times at which requests of [ip] in [served] came. *)
Definition times_of (ip : string) (served : list Request) : list instant :=
  map fst (filter (fun r => String.eqb (snd r) ip) served).
End RateLimiter.

(** ** [backend/utils/security.py]: [SecurityValidator] *)

Module SecurityValidator.

(** [[/\\]]: the path separators. *)
Definition is_separator (c : ascii) : bool :=
  Ascii.eqb c "/" || Ascii.eqb c (ascii_of_nat 92).

(** [[a-zA-Z0-9._-]]: what a file name may hold. *)
Definition filename_char (c : ascii) : bool :=
  InputValidatorText.is_letter c || InputValidatorText.is_digit c ||
  Ascii.eqb c "." || Ascii.eqb c "_" || Ascii.eqb c "-".

(** [filename.rsplit('.', 1)] of a name with a dot in it: what stands
    before the last dot and what stands after it; [None] when there is no
    dot. *)
Fixpoint rsplit_dot (l : list ascii) : option (list ascii * list ascii) :=
  match l with
  | [] => None
  | c :: rest =>
      match rsplit_dot rest with
      | Some (name, ext) => Some (c :: name, ext)
      | None => if Ascii.eqb c "." then Some ([], rest) else None
      end
  end.

Definition max_filename_length : nat := 255.

(** The length limit on a name already cleaned. *)
Definition limit_length (filename : list ascii) : list ascii :=
  if (max_filename_length <? List.length filename)%nat then
    let (name, ext) :=
      match rsplit_dot filename with
      | Some parts => parts
      | None => (filename, [])
      end in
    firstn 250 name ++ match ext with
                       | [] => []
                       | _ :: _ => "."%char :: ext
                       end
  else filename.

(** [sanitize_filename(filename)]. *)
Definition sanitize_filename (filename : string) : string :=
  (* Remove path separators *)
  let filename :=
    filter (fun c => negb (is_separator c)) (list_ascii_of_string filename) in
  (* Remove special characters *)
  let filename :=
    map (fun c => if filename_char c then c else "_"%char) filename in
  (* Limit length *)
  string_of_list_ascii (limit_length filename).
End SecurityValidator.

(** ** [frontend/src/services/api.js]: [retryRequest] *)

Module ApiService.
Section Retry.
(** The values [fn] resolves to and the errors it rejects with. *)
Variables V E : Type.

(** How a call of [fn] settles. *)
Inductive Settled :=
| Fulfilled (value : V)
| Failed (error : E).

(** [fn], by the number of calls made before: any asynchronous
    function. *)
Variable fn : nat -> Settled.

(** How the promise of [retryRequest] settles; the value is [undefined]
    ([None]) when the loop ends without a [return]. *)
Inductive Completion :=
| Resolved (value : option V)
| Threw (error : E).

(** The calls made to [fn] and the delays handed to [setTimeout], in
    milliseconds and in order. *)
Record Effects := mkEffects {
  calls : nat;
  timeouts : list Z }.

(** [for (let i = 0; i < maxRetries; i++) { try { return await fn(); }
    catch (error) { if (i === maxRetries - 1) throw error; await new
    Promise((resolve) => setTimeout(resolve, delay * (i + 1))); } }], for a
    whole number [maxRetries]; [fuel] bounds the number of times the loop
    condition is evaluated. *)
Fixpoint retry_loop (maxRetries : nat) (delay : Z) (fuel : nat) (i : nat)
  (eff : Effects) : option (Completion * Effects) :=
  match fuel with
  | O => None
  | S fuel' =>
      if (i <? maxRetries)%nat then
        let called := mkEffects (S (calls eff)) (timeouts eff) in
        match fn (calls eff) with
        | Fulfilled value => Some (Resolved (Some value), called)
        | Failed error =>
            if (i =? maxRetries - 1)%nat then Some (Threw error, called)
            else
              retry_loop maxRetries delay fuel' (S i)
                (mkEffects (calls called)
                   (timeouts called ++ [(delay * Z.of_nat (i + 1))%Z]))
        end
      else Some (Resolved None, eff)
  end.

Definition default_maxRetries : nat := 3.
Definition default_delay : Z := 1000.

(** [retryRequest(fn, maxRetries, delay)]. *)
Definition retryRequest (maxRetries : nat) (delay : Z)
  : option (Completion * Effects) :=
  retry_loop maxRetries delay (S maxRetries) 0 (mkEffects 0 []).
End Retry.

Arguments Fulfilled {V E} value.
Arguments Failed {V E} error.
Arguments Resolved {V E} value.
Arguments Threw {V E} error.

(** The delays before attempts [from + 1 .. from + n]: [delay], twice
    [delay], and so on. *)
Definition backoff (delay : Z) (from n : nat) : list Z :=
  map (fun i => (delay * Z.of_nat (i + 1))%Z) (seq from n).

Definition total (l : list Z) : Z := fold_right Z.add 0%Z l.
End ApiService.

(** ** The React client: [hooks/useAPI.js], [context/AppContext.jsx],
    [components/PatientDashboard.jsx] *)

Module Client.

(** *** The browser's [localStorage] *)

Definition Storage := string -> option string.

Definition getItem (key : string) (s : Storage) : option string := s key.

Definition setItem (key value : string) (s : Storage) : Storage :=
  fun k => if String.eqb k key then Some value else s k.

Definition removeItem (key : string) (s : Storage) : Storage :=
  fun k => if String.eqb k key then None else s k.

(** JavaScript truth of a string or [null]: the empty string is false. *)
Definition truthy (o : option string) : bool := Orchestrator.truthy o.

(** *** [useChat(userEmail, initialSessionId)]: what it keeps in storage *)

Record StorageKeys := mkKeys {
  MESSAGES : string;
  SESSION_ID : string }.

(** The user-scoped keys. *)
Definition STORAGE_KEYS (userEmail : string) : StorageKeys :=
  mkKeys ("smart_doctor_messages_" ++ userEmail)
         ("smart_doctor_session_id_" ++ userEmail).

Definition OLD_KEYS : list string :=
  ["smart_doctor_messages"; "smart_doctor_session_id"]%string.

(** The migration effect: an old global key that holds something is
    removed. *)
Definition migrate (s : Storage) : Storage :=
  fold_left (fun s key => if truthy (getItem key s) then removeItem key s else s)
    OLD_KEYS s.

Section Chat.
(** The message list, with [JSON.stringify] and [JSON.parse]; [None] is a
    [SyntaxError]. *)
Variable Messages : Type.
Variable no_messages : Messages.
Variable JSON_stringify : Messages -> string.
Variable JSON_parse : string -> option Messages.

(** The initializer of [messages]. *)
Definition load_messages (userEmail : string) (s : Storage) : Messages :=
  let saved := getItem (MESSAGES (STORAGE_KEYS userEmail)) s in
  match saved with
  | Some text =>
      if truthy saved
      then match JSON_parse text with
           | Some messages => messages
           | None => no_messages
           end
      else no_messages
  | None => no_messages
  end.

(** The initializer of [sessionId]: [saved || initialSessionId]. *)
Definition load_session (userEmail : string) (initialSessionId : option string)
  (s : Storage) : option string :=
  let saved := getItem (SESSION_ID (STORAGE_KEYS userEmail)) s in
  if truthy saved then saved else initialSessionId.

(** The two persisting effects. *)
Definition persist_messages (userEmail : string) (messages : Messages)
  (s : Storage) : Storage :=
  setItem (MESSAGES (STORAGE_KEYS userEmail)) (JSON_stringify messages) s.

Definition persist_session (userEmail : string) (sessionId : option string)
  (s : Storage) : Storage :=
  match sessionId with
  | Some id =>
      if truthy sessionId
      then setItem (SESSION_ID (STORAGE_KEYS userEmail)) id s
      else s
  | None => s
  end.

(** What [clearMessages] does to the storage. *)
Definition clearMessages (userEmail : string) (s : Storage) : Storage :=
  removeItem (SESSION_ID (STORAGE_KEYS userEmail))
    (removeItem (MESSAGES (STORAGE_KEYS userEmail)) s).

(** What an instance of the hook does to the storage. *)
Inductive StorageEffect :=
| Migrate
| PersistMessages (messages : Messages)
| PersistSession (sessionId : option string)
| ClearMessages.

Definition perform (userEmail : string) (e : StorageEffect) (s : Storage)
  : Storage :=
  match e with
  | Migrate => migrate s
  | PersistMessages messages => persist_messages userEmail messages s
  | PersistSession sessionId => persist_session userEmail sessionId s
  | ClearMessages => clearMessages userEmail s
  end.

Definition perform_all (userEmail : string) (effects : list StorageEffect)
  (s : Storage) : Storage :=
  fold_left (fun s e => perform userEmail e s) effects s.
End Chat.

(** *** [AppProvider]: the user identifier *)

Definition USER_EMAIL_KEY : string := "smart_doctor_user_email".

(** [`patient_${Date.now()}_${Math.random().toString(36).substr(2,
    9)}@demo.local`], with the clock reading and the random digits as
    given. *)
Definition uniqueEmail (now : Z) (random : string) : string :=
  ("patient_" ++ Calendar.string_of_Z now ++ "_" ++ random ++ "@demo.local")%string.

(** The initializer of [userEmail]: the stored identifier, or a new one
    that is stored. *)
Definition initial_userEmail (now : Z) (random : string) (s : Storage)
  : string * Storage :=
  let stored := getItem USER_EMAIL_KEY s in
  match stored with
  | Some email =>
      if truthy stored then (email, s)
      else (uniqueEmail now random,
            setItem USER_EMAIL_KEY (uniqueEmail now random) s)
  | None =>
      (uniqueEmail now random,
       setItem USER_EMAIL_KEY (uniqueEmail now random) s)
  end.

(** *** [PatientDashboard]: the doctor list *)

(** [String.prototype.toLowerCase], among the code points below 256: the
    letters A to Z, and the capital letters of Latin-1 (all of 192 to 222
    but the multiplication sign). *)
Definition lower_char (c : ascii) : ascii :=
  let n := nat_of_ascii c in
  if ((65 <=? n) && (n <=? 90) ||
      (192 <=? n) && (n <=? 222) && negb (n =? 215))%nat
  then ascii_of_nat (n + 32) else c.

Definition toLowerCase (s : string) : string :=
  string_of_list_ascii (map lower_char (list_ascii_of_string s)).

Fixpoint starts_with (s t : list ascii) {struct t} : bool :=
  match t, s with
  | [], _ => true
  | _ :: _, [] => false
  | b :: t', a :: s' => Ascii.eqb a b && starts_with s' t'
  end.

Fixpoint includes_from (s t : list ascii) : bool :=
  starts_with s t ||
  match s with
  | [] => false
  | _ :: s' => includes_from s' t
  end.

(** [s.includes(t)]. *)
Definition includes (s t : string) : bool :=
  includes_from (list_ascii_of_string s) (list_ascii_of_string t).

(** The predicate of the search filter. *)
Definition matches_search (searchTerm : string) (doc : Appointments.Doctor)
  : bool :=
  includes (toLowerCase (Appointments.doctor_name doc)) (toLowerCase searchTerm) ||
  includes (toLowerCase (Appointments.specialization doc)) (toLowerCase searchTerm).

(** [filteredDoctors]. *)
Definition filteredDoctors (doctors : list Appointments.Doctor)
  (searchTerm filterSpec : string) : list Appointments.Doctor :=
  let filtered := doctors in
  let filtered :=
    if truthy (Some searchTerm)
    then filter (matches_search searchTerm) filtered
    else filtered in
  let filtered :=
    if negb (String.eqb filterSpec "all")
    then filter (fun doc => String.eqb (Appointments.specialization doc) filterSpec)
           filtered
    else filtered in
  filtered.

(** [[...new Set(values)]]: the values in the order of their first
    occurrence. *)
Fixpoint set_values (seen values : list string) : list string :=
  match values with
  | [] => []
  | v :: rest =>
      if existsb (String.eqb v) seen then set_values seen rest
      else v :: set_values (v :: seen) rest
  end.

(** [specializations]. *)
Definition specializations (doctors : list Appointments.Doctor) : list string :=
  set_values [] (map Appointments.specialization doctors).
End Client.

(** ** [components/AppointmentModal.jsx]: dates as the client writes them *)

Module ClientDates.
Import Calendar.
Local Open Scope Z_scope.

(** Zero padding to four digits, as in the year of an ISO date. *)
Definition four_digits (z : Z) : string :=
  let pad3 := z <? 10 in
  let pad2 := z <? 100 in
  let pad1 := z <? 1000 in
  if pad3 then ("000" ++ string_of_Z z)%string
  else if pad2 then ("00" ++ string_of_Z z)%string
  else if pad1 then ("0" ++ string_of_Z z)%string
  else string_of_Z z.

(** [new Date().toISOString().split('T')[0]], for the UTC calendar date
    [d] of the instant: the form in which the client names a date. *)
Definition toISODate (d : date) : string :=
  (four_digits (year d) ++ "-" ++ two_digits (month d) ++ "-" ++
   two_digits (day d))%string.

(** A rendered field holds no hyphen. *)
Definition no_hyphen (s : string) : bool :=
  forallb (fun c => negb (Ascii.eqb c "-")) (list_ascii_of_string s).

(** The values [1 .. n] are rendered without a hyphen and parsed back. *)
Definition read_back_upto (render : Z -> string)
  (parse : list ascii -> option Z) (n : Z) : bool :=
  forallb (fun v =>
    no_hyphen (render v) &&
    match parse (list_ascii_of_string (render v)) with
    | Some v' => v' =? v
    | None => false
    end) (map Z.of_nat (seq 1 (Z.to_nat n))).
End ClientDates.

(** ** [database/schema.sql]: the unique index of [appointments] *)

Module Schema.
Import Appointments.

(** No two rows of the table sit on one slot: what
    [UNIQUE(doctor_id, appointment_date, appointment_time)] maintains. *)
Definition slots_distinct (db : table) : Prop :=
  ForallOrdPairs (fun a b => same_slot a b = false) db.
End Schema.

(** ** Seed data of the schema, used in the worked scenarios *)

Module Seed.
Import Calendar Appointments.
Local Open Scope Z_scope.

(** The first seeded doctor: Monday to Friday, 09:00 to 17:00, 30-minute
    slots. *)
Definition dr_ahuja : Doctor :=
  mkDoctor 1 "Dr. Rajesh Ahuja" "General Physician"
    ["Monday"; "Tuesday"; "Wednesday"; "Thursday"; "Friday"]%string
    (hm 9 0) (hm 17 0) 30.

(** Saturday 20 December 2025, the day of the recorded test runs. *)
Definition a_saturday : date := mkdate 2025 12 20.

(** Monday 22 and Tuesday 23 December 2025. *)
Definition a_monday : date := mkdate 2025 12 22.
Definition a_tuesday : date := mkdate 2025 12 23.

Definition booking (pk patient : Z) (d : date) (t : time) (st : string)
  : Appointment :=
  mkAppointment pk patient (doctor_pk dr_ahuja) d t 30 st.

(** The bookings of the recorded double-booking test: 16:00, 10:00 and
    11:00 on the Monday. *)
Definition recorded_monday : table :=
  [booking 3 2 a_monday (hm 16 0) "scheduled";
   booking 5 1 a_monday (hm 10 0) "scheduled";
   booking 6 1 a_monday (hm 11 0) "scheduled"].

(** Two users of one session id. *)
Definition shared_session : string := "abc123".
Definition alice : string := "alice@example.com".
Definition bob : string := "bob@example.com".

(** Alice has picked a cardiologist. *)
Definition alice_context : Memory.table :=
  snd (Memory.save_doctor_selection false shared_session (Some alice) 7
         "Dr. Smith" "Cardiology" 1000 []).

(** A model that asks for the list of doctors on every round, a registry
    that answers with one doctor, and a model that answers at once. *)
Definition eager_model (k : nat) (msgs : list Orchestrator.Message)
  : Orchestrator.LLMResponse :=
  Orchestrator.mkLLM None
    [Orchestrator.mkCall ("call_" ++ Orchestrator.nat_to_string k)
       "list_doctors" "{}"].

Definition one_doctor_registry (c : Orchestrator.ToolCall)
  (w : Orchestrator.World) : Orchestrator.ResultData * Orchestrator.World :=
  (Orchestrator.mkResult true
     [Orchestrator.mkDoctorInfo "Dr. Rajesh Ahuja" "Cardiology"
        ["Monday"; "Tuesday"; "Wednesday"]%string]
     "{'success': true, 'doctors': [...]}", w).

Definition polite_model (k : nat) (msgs : list Orchestrator.Message)
  : Orchestrator.LLMResponse :=
  Orchestrator.mkLLM (Some "How can I help you today?"%string) [].

Definition no_other_format (r : Orchestrator.ToolResult) : string := "".

Definition plain_prompt (memory_context : string) : string :=
  ("You are an appointment assistant." ++ memory_context)%string.

Definition empty_world : Orchestrator.World := Orchestrator.mkWorld [] [].
End Seed.

(* ===================================================================== *)
(** * Part II: properties                                                 *)
(* ===================================================================== *)

Module InputValidatorFacts.
Import Calendar InputValidator.
Local Open Scope Z_scope.

Lemma strptime_date_valid s d : strptime_date s = Some d -> valid_date d = true.
Proof.
  unfold strptime_date.
  destruct (split_on _ _) as [|fy [|fm [|fd [|? ?]]]]; try discriminate.
  destruct (parse_year fy), (parse_month fm), (parse_day fd); try discriminate.
  destruct (valid_date _) eqn:E; [|discriminate].
  intros [= <-]. exact E.
Qed.

(** A date before today is rejected with the validator's own error, in
    every month. *)
Lemma validate_date_past today s d :
  strptime_date s = Some d -> date_ltb d today = true ->
  validate_date today s = ValidationError "Appointment date cannot be in the past".
Proof. intros Hs Hlt. unfold validate_date. now rewrite Hs, Hlt. Qed.

(** From July to December the six-month bound is never computed: any
    well-formed date that is not in the past ends in an uncaught
    [ValueError]. *)
Lemma validate_date_second_half today s d :
  7 <= month today ->
  strptime_date s = Some d -> date_ltb d today = false ->
  validate_date today s = ValueError MonthOutOfRange.
Proof.
  intros Hm Hs Hlt. unfold validate_date. rewrite Hs, Hlt.
  unfold replace_month, valid_month.
  replace (month today + 6 <=? 12) with false by (symmetry; apply Z.leb_gt; lia).
  now rewrite andb_false_r.
Qed.

(** C7 (as the code has it, at the failing input): on 20 December 2025
    the request for 25 December 2025, five days ahead and well inside the
    six-month window, neither returns the date nor raises the
    validation rejection: [replace(month=18)] raises [ValueError]. *)
Theorem C7_validate_date_december :
  validate_date (mkdate 2025 12 20) "2025-12-25" = ValueError MonthOutOfRange.
Proof. reflexivity. Qed.

(** In the first half of the year the bound is computed, unless today's
    day of the month does not exist six months on. *)
Example validate_date_in_january :
  validate_date (mkdate 2025 1 15) "2025-03-01" = Returned (mkdate 2025 3 1) /\
  is_rejection (validate_date (mkdate 2025 1 15) "2025-08-01") = true.
Proof. split; reflexivity. Qed.

Example validate_date_on_31_march :
  validate_date (mkdate 2025 3 31) "2025-04-02" = ValueError DayOutOfRange.
Proof. reflexivity. Qed.
End InputValidatorFacts.

Module AppointmentFacts.
Import Calendar Appointments.
Local Open Scope Z_scope.

Lemma date_eqb_eq a b : date_eqb a b = true <-> a = b.
Proof.
  unfold date_eqb. destruct a as [y m d], b as [y' m' d']; simpl.
  rewrite !andb_true_iff, !Z.eqb_eq. split.
  - intros [[-> ->] ->]. reflexivity.
  - intros [= -> -> ->]. auto.
Qed.

Lemma date_eqb_refl a : date_eqb a a = true.
Proof. now apply date_eqb_eq. Qed.

Lemma not_cancelled_iff a : not_cancelled a = true <-> status a <> "cancelled"%string.
Proof.
  unfold not_cancelled. rewrite negb_true_iff.
  destruct (String.eqb_spec (status a) "cancelled"); split; congruence.
Qed.

Lemma exact_slot_filter_iff did d t a :
  exact_slot_filter did d t a = true <->
  doctor_id a = did /\ appointment_date a = d /\ appointment_time a = t /\
  status a <> "cancelled"%string.
Proof.
  unfold exact_slot_filter.
  rewrite !andb_true_iff, !Z.eqb_eq, date_eqb_eq, not_cancelled_iff. tauto.
Qed.

Lemma overlap_filter_iff did d t e a :
  overlap_filter did d t e a = true <->
  doctor_id a = did /\ appointment_date a = d /\ appointment_time a < e /\
  t < appointment_end_time a /\ status a <> "cancelled"%string.
Proof.
  unfold overlap_filter.
  rewrite !andb_true_iff, !Z.eqb_eq, !Z.ltb_lt, date_eqb_eq, not_cancelled_iff.
  tauto.
Qed.

Lemma find_existing_some db did d t :
  (exists a, find_existing db did d t = Some a) <->
  exists a, In a db /\ exact_slot_filter did d t a = true.
Proof.
  unfold find_existing. split.
  - intros [a Ha]. exists a. now apply find_some in Ha.
  - intros [a [Hin Hf]].
    destruct (find _ db) as [b|] eqn:E; [now exists b|].
    exfalso. apply (find_none _ _ E) in Hin. congruence.
Qed.

Lemma find_overlapping_nonempty db did d t e :
  find_overlapping db did d t e <> [] <->
  exists a, In a db /\ overlap_filter did d t e a = true.
Proof.
  unfold find_overlapping. split.
  - destruct (filter _ db) as [|a l] eqn:E; [congruence|]. intros _.
    exists a. apply filter_In. rewrite E. now left.
  - intros [a Ha] E. apply filter_In in Ha. rewrite E in Ha. destruct Ha.
Qed.

Lemma check_conflicts_none db doc d t dur :
  check_appointment_conflicts db doc d t dur = None <->
  find_existing db (doctor_pk doc) d t = None /\
  find_overlapping db (doctor_pk doc) d t (t + dur) = [].
Proof.
  unfold check_appointment_conflicts.
  destruct (find_existing _ _ _ _); [split; [discriminate|intros [? _]; discriminate]|].
  destruct (find_overlapping _ _ _ _ _); split; try discriminate; auto.
  intros [_ ?]. discriminate.
Qed.

Lemma check_conflicts_collides db doc d t dur :
  check_appointment_conflicts db doc d t dur <> None <->
  exists a, In a db /\ collides (doctor_pk doc) d t dur a.
Proof.
  rewrite check_conflicts_none. split.
  - intros H.
    destruct (find_existing db (doctor_pk doc) d t) as [a|] eqn:E.
    + assert (Hex : exists a, find_existing db (doctor_pk doc) d t = Some a)
        by (now exists a).
      apply find_existing_some in Hex. destruct Hex as [b [Hin Hb]].
      apply exact_slot_filter_iff in Hb. exists b. unfold collides. tauto.
    + assert (Hne : find_overlapping db (doctor_pk doc) d t (t + dur) <> [])
        by (intros E'; apply H; auto).
      apply find_overlapping_nonempty in Hne. destruct Hne as [b [Hin Hb]].
      apply overlap_filter_iff in Hb. exists b. unfold collides. tauto.
  - intros [a [Hin [Hd [Hdate [Hst [Heq|[Hlo Hhi]]]]]]] [Hnone Hover].
    + assert (Hex : exists b, find_existing db (doctor_pk doc) d t = Some b).
      { apply find_existing_some. exists a. split; [assumption|].
        apply exact_slot_filter_iff. tauto. }
      destruct Hex as [b Hb]. congruence.
    + apply (proj2 (find_overlapping_nonempty db (doctor_pk doc) d t (t + dur)));
        [|assumption].
      exists a. split; [assumption|]. apply overlap_filter_iff. tauto.
Qed.

(** C5: [check_appointment_conflicts] reports a conflict exactly when
    some booking of the same doctor and date that is not cancelled starts
    at the requested time, or its interval [start, start+duration) meets
    the requested one; cancelled bookings are left out of both queries, so
    a slot whose bookings are all cancelled is accepted. *)
Theorem C5_check_conflict_iff db doc d t dur :
  (check_appointment_conflicts db doc d t dur <> None <->
   exists a, In a db /\ collides (doctor_pk doc) d t dur a) /\
  ((forall a, In a db -> doctor_id a = doctor_pk doc ->
              appointment_date a = d -> status a = "cancelled"%string) ->
   check_appointment_conflicts db doc d t dur = None).
Proof.
  split; [apply check_conflicts_collides|].
  intros Hall.
  destruct (check_appointment_conflicts db doc d t dur) eqn:E; [|reflexivity].
  exfalso.
  assert (Hne : check_appointment_conflicts db doc d t dur <> None) by congruence.
  apply check_conflicts_collides in Hne.
  destruct Hne as [a [Hin [Hd [Hdate [Hst _]]]]].
  apply Hst. now apply Hall.
Qed.

(** *** The walk over the working day *)

Section Walk.
Variables (db : table) (doc : Doctor) (d : date).
Hypothesis Hdur : 0 < slot_duration_minutes doc.

Local Notation "'dur'" := (slot_duration_minutes doc).
Local Notation "'free' t" :=
  (slot_is_free db (doctor_pk doc) d t (slot_duration_minutes doc))
  (at level 10, t at level 9).

Lemma walk_slots_length fuel cur found :
  (found <= max_suggestions)%nat ->
  (List.length (walk_slots db doc d fuel cur found) + found <= max_suggestions)%nat.
Proof.
  revert cur found. induction fuel as [|fuel IH]; intros cur found Hf; simpl.
  - lia.
  - destruct (_ && _) eqn:E; [|simpl; lia].
    apply andb_true_iff in E as [E1 _]. apply Nat.ltb_lt in E1.
    destruct (free cur); simpl.
    + specialize (IH (cur + dur) (S found)). lia.
    + specialize (IH (cur + dur) found). lia.
Qed.

(** Every slot the walk keeps lies on the grid that starts at [cur],
    ends by closing time and is free. *)
Lemma walk_slots_sound fuel cur found :
  Forall (fun t => (exists k : nat, t = cur + Z.of_nat k * dur) /\
                   t + dur <= available_end_time doc /\ free t = true)
    (walk_slots db doc d fuel cur found).
Proof.
  revert cur found. induction fuel as [|fuel IH]; intros cur found; simpl.
  - constructor.
  - destruct (_ && _) eqn:E; [|constructor].
    apply andb_true_iff in E as [_ E2]. apply Z.leb_le in E2.
    assert (Hshift : forall t, (exists k : nat, t = cur + dur + Z.of_nat k * dur) ->
                               exists k : nat, t = cur + Z.of_nat k * dur).
    { intros t [k ->]. exists (S k). lia. }
    destruct (free cur) eqn:F.
    + constructor.
      * split; [exists 0%nat; lia|]. auto.
      * eapply Forall_impl; [|apply IH]. simpl. intros t [Hk Ht]. auto.
    + eapply Forall_impl; [|apply IH]. simpl. intros t [Hk Ht]. auto.
Qed.

Lemma walk_slots_sorted fuel cur found :
  StronglySorted Z.lt (walk_slots db doc d fuel cur found).
Proof.
  revert cur found. induction fuel as [|fuel IH]; intros cur found; simpl.
  - constructor.
  - destruct (_ && _); [|constructor].
    destruct (free cur); [|apply IH].
    constructor; [apply IH|].
    eapply Forall_impl; [|apply walk_slots_sound]. simpl.
    intros t [[k ->] _].
    assert (0 <= Z.of_nat k * dur) by (apply Z.mul_nonneg_nonneg; lia). lia.
Qed.

(** A free slot of the grid that the walk leaves out comes after five
    that it kept. *)
Lemma walk_slots_complete fuel cur found (k : nat) :
  (found <= max_suggestions)%nat ->
  available_end_time doc - cur < Z.of_nat fuel ->
  cur + Z.of_nat k * dur + dur <= available_end_time doc ->
  free (cur + Z.of_nat k * dur) = true ->
  In (cur + Z.of_nat k * dur) (walk_slots db doc d fuel cur found) \/
  ((List.length (walk_slots db doc d fuel cur found) + found)%nat = max_suggestions /\
   Forall (fun u => u < cur + Z.of_nat k * dur)
     (walk_slots db doc d fuel cur found)).
Proof.
  revert cur found k.
  induction fuel as [|fuel IH]; intros cur found k Hf Hfuel Ht Hfree.
  - exfalso.
    assert (0 <= Z.of_nat k * dur) by (apply Z.mul_nonneg_nonneg; lia).
    simpl in Hfuel. lia.
  - simpl. destruct (found <? max_suggestions)%nat eqn:E1; simpl.
    2:{ apply Nat.ltb_ge in E1. right. split; [simpl; lia|constructor]. }
    apply Nat.ltb_lt in E1.
    destruct (cur + dur <=? available_end_time doc) eqn:E2.
    2:{ exfalso. apply Z.leb_gt in E2.
        assert (0 <= Z.of_nat k * dur) by (apply Z.mul_nonneg_nonneg; lia). lia. }
    destruct k as [|k].
    + replace (cur + Z.of_nat 0 * dur) with cur in * by lia.
      rewrite Hfree. left. now left.
    + replace (cur + Z.of_nat (S k) * dur)
        with (cur + dur + Z.of_nat k * dur) in * by lia.
      assert (Hfuel' : available_end_time doc - (cur + dur) < Z.of_nat fuel) by lia.
      assert (Hlt : cur < cur + dur + Z.of_nat k * dur).
      { assert (0 <= Z.of_nat k * dur) by (apply Z.mul_nonneg_nonneg; lia). lia. }
      destruct (free cur).
      * destruct (IH (cur + dur) (S found) k) as [Hin|[Hlen Hall]];
          [lia|exact Hfuel'|exact Ht|exact Hfree| |].
        -- left. now right.
        -- right. split; [simpl; lia|]. now constructor.
      * destruct (IH (cur + dur) found k) as [Hin|[Hlen Hall]];
          [lia|exact Hfuel'|exact Ht|exact Hfree| |].
        -- now left.
        -- right. now split.
Qed.

Lemma find_available_slots_length :
  (List.length (find_available_slots db doc d) <= 5)%nat.
Proof.
  unfold find_available_slots.
  pose proof (walk_slots_length (day_fuel doc) (available_start_time doc) 0) as H.
  unfold max_suggestions in H. lia.
Qed.

Lemma find_available_slots_open :
  Forall (open_slot db doc d) (find_available_slots db doc d).
Proof.
  unfold find_available_slots.
  eapply Forall_impl; [|apply walk_slots_sound]. simpl.
  intros t [[k ->] [H1 H2]]. unfold open_slot, on_grid.
  assert (0 <= Z.of_nat k * dur) by (apply Z.mul_nonneg_nonneg; lia).
  repeat split; try assumption; [now exists k | lia].
Qed.

Lemma find_available_slots_sorted :
  StronglySorted Z.lt (find_available_slots db doc d).
Proof. apply walk_slots_sorted. Qed.

Lemma find_available_slots_first t :
  open_slot db doc d t ->
  In t (find_available_slots db doc d) \/
  (List.length (find_available_slots db doc d) = 5%nat /\
   Forall (fun u => u < t) (find_available_slots db doc d)).
Proof.
  intros [[k ->] [_ [Hend Hfree]]]. unfold find_available_slots.
  destruct (walk_slots_complete (day_fuel doc) (available_start_time doc) 0 k)
    as [Hin|[Hlen Hall]];
    [unfold max_suggestions; lia|unfold day_fuel; lia|exact Hend|exact Hfree| |].
  - now left.
  - right. split; [|assumption]. unfold max_suggestions in Hlen. lia.
Qed.
End Walk.

Lemma check_conflicts_slots db doc d t dur e slots :
  check_appointment_conflicts db doc d t dur = Some (e, slots) ->
  slots = find_available_slots db doc d.
Proof.
  unfold check_appointment_conflicts.
  destruct (find_existing _ _ _ _); [now intros [= _ <-]|].
  destruct (find_overlapping _ _ _ _ _); [discriminate|now intros [= _ <-]].
Qed.

Lemma walk_slots_ext db doc d db' doc' d' fuel cur found :
  available_end_time doc = available_end_time doc' ->
  slot_duration_minutes doc = slot_duration_minutes doc' ->
  (forall t, slot_is_free db (doctor_pk doc) d t (slot_duration_minutes doc) =
             slot_is_free db' (doctor_pk doc') d' t (slot_duration_minutes doc')) ->
  walk_slots db doc d fuel cur found = walk_slots db' doc' d' fuel cur found.
Proof.
  intros He Hd Hf. revert cur found.
  induction fuel as [|fuel IH]; intros cur found; simpl; [reflexivity|].
  rewrite <- Hf, <- He, <- Hd.
  destruct (_ && _); [|reflexivity].
  destruct (slot_is_free _ _ _ _ _); now rewrite IH.
Qed.

Lemma slot_is_free_single b did d t dur :
  slot_is_free [b] did d t dur = negb (overlap_filter did d t (t + dur) b).
Proof.
  unfold slot_is_free, find_overlapping. simpl.
  now destruct (overlap_filter _ _ _ _ _).
Qed.

(** The documented double-booking test, replayed: with 16:00, 10:00 and
    11:00 taken, a second request for 11:00 is answered with the recorded
    message. *)
Example recorded_double_booking :
  error (validate_complete_appointment Seed.a_saturday Seed.dr_ahuja
           Seed.a_monday (hm 11 0) Seed.recorded_monday) =
  "This time slot (11:00 AM) is already booked. Available slots on December 22, 2025: 09:00 AM, 09:30 AM, 10:30 AM."%string.
Proof. reflexivity. Qed.

(** C6: on a conflict the suggestions are the first five open slots of
    the day: at most five, in chronological order, each on the provider's
    grid, inside working hours and free of active bookings, and a free
    slot is left out only after five earlier ones were found. For a
    provider working 09:00-17:00 in 30-minute slots with one booking at
    10:00-10:30, a request for 10:00 on that day is a "conflict" whose
    suggestions start 09:00, 09:30, 10:30 and do not contain 10:00. *)
Theorem C6_alternative_slots :
  (forall db doc d, 0 < slot_duration_minutes doc ->
     let slots := find_available_slots db doc d in
     (List.length slots <= 5)%nat /\ StronglySorted Z.lt slots /\
     Forall (open_slot db doc d) slots /\
     (forall t, open_slot db doc d t ->
        In t slots \/
        (List.length slots = 5%nat /\ Forall (fun u => u < t) slots))) /\
  (forall db doc d t dur e slots,
     check_appointment_conflicts db doc d t dur = Some (e, slots) ->
     slots = find_available_slots db doc d) /\
  (forall today doc d b,
     available_start_time doc = hm 9 0 ->
     available_end_time doc = hm 17 0 ->
     slot_duration_minutes doc = 30 ->
     validate_date_against_availability today d doc = None ->
     doctor_id b = doctor_pk doc -> appointment_date b = d ->
     appointment_time b = hm 10 0 -> duration_minutes b = 30 ->
     status b <> "cancelled"%string ->
     let v := validate_complete_appointment today doc d (hm 10 0) [b] in
     valid v = false /\ error_type v = "conflict"%string /\
     suggested_slots v = [hm 9 0; hm 9 30; hm 10 30; hm 11 0; hm 11 30] /\
     ~ In (hm 10 0) (suggested_slots v)).
Proof.
  split; [|split].
  - intros db doc d Hdur slots. subst slots.
    split; [apply find_available_slots_length|].
    split; [now apply find_available_slots_sorted|].
    split; [now apply find_available_slots_open|].
    intros t. now apply find_available_slots_first.
  - apply check_conflicts_slots.
  - intros today doc d b Hs He Hdur Hdate Hdoc Hd Ht Hlen Hst v.
    assert (Hslots : find_available_slots [b] doc d =
                     [hm 9 0; hm 9 30; hm 10 30; hm 11 0; hm 11 30]).
    { unfold find_available_slots, day_fuel. rewrite Hs, He.
      rewrite (walk_slots_ext [b] doc d
                 [Seed.booking 1 1 Seed.a_tuesday (hm 10 0) "scheduled"]
                 Seed.dr_ahuja Seed.a_tuesday); try assumption.
      - reflexivity.
      - intros t. rewrite !slot_is_free_single. f_equal.
        unfold overlap_filter, appointment_end_time.
        rewrite Hdoc, Hd, Ht, Hlen, Hdur, !Z.eqb_refl, !date_eqb_refl.
        apply not_cancelled_iff in Hst. now rewrite Hst. }
    assert (Hex : exists a, find_existing [b] (doctor_pk doc) d (hm 10 0) = Some a).
    { apply find_existing_some. exists b. split; [now left|].
      apply exact_slot_filter_iff. auto. }
    destruct Hex as [a Ha].
    assert (Htime : validate_time_against_availability (hm 10 0) doc = None).
    { unfold validate_time_against_availability. now rewrite Hs, He. }
    subst v. unfold validate_complete_appointment, check_appointment_conflicts.
    rewrite Hdate, Htime, Ha, Hslots. simpl.
    repeat split.
    unfold hm. simpl. intuition lia.
Qed.

(** C6, at the seeded doctor and Tuesday 23 December 2025. *)
Lemma C6_alternative_slots_witness :
  let v := validate_complete_appointment Seed.a_saturday Seed.dr_ahuja
             Seed.a_tuesday (hm 10 0)
             [Seed.booking 1 1 Seed.a_tuesday (hm 10 0) "scheduled"] in
  (0 < slot_duration_minutes Seed.dr_ahuja /\
   StronglySorted Z.lt (find_available_slots [] Seed.dr_ahuja Seed.a_tuesday)) /\
  (valid v = false /\ error_type v = "conflict"%string /\
   suggested_slots v = [hm 9 0; hm 9 30; hm 10 30; hm 11 0; hm 11 30] /\
   ~ In (hm 10 0) (suggested_slots v)).
Proof.
  destruct C6_alternative_slots as [Hgen [_ Hscenario]].
  split.
  - split; [reflexivity|].
    apply (Hgen [] Seed.dr_ahuja Seed.a_tuesday). reflexivity.
  - apply (Hscenario Seed.a_saturday Seed.dr_ahuja Seed.a_tuesday);
      try reflexivity. discriminate.
Defined.

(** C5, at a Tuesday whose only booking at 10:00 is cancelled: the slot
    is accepted. *)
Lemma C5_check_conflict_iff_witness :
  check_appointment_conflicts
    [Seed.booking 1 1 Seed.a_tuesday (hm 10 0) "cancelled"]
    Seed.dr_ahuja Seed.a_tuesday (hm 10 0) 30 = None.
Proof.
  apply (proj2 (C5_check_conflict_iff _ Seed.dr_ahuja Seed.a_tuesday (hm 10 0) 30)).
  intros a [<-|[]] _ _. reflexivity.
Defined.

(** C10: when the bookings stored for a doctor, date and start time are
    cancelled ones and no active booking overlaps the requested interval,
    the validator accepts the slot, and the insert that follows is refused
    by the unique index on (doctor_id, appointment_date,
    appointment_time), which covers cancelled rows too: the request is
    answered with the database error, not with a conflict. *)
Theorem C10_cancelled_slot_blocks_insert today db patient doc d t c :
  In c db -> doctor_id c = doctor_pk doc -> appointment_date c = d ->
  appointment_time c = t ->
  (forall a, In a db -> doctor_id a = doctor_pk doc ->
     appointment_date a = d -> appointment_time a = t ->
     status a = "cancelled"%string) ->
  (forall a, In a db -> doctor_id a = doctor_pk doc ->
     appointment_date a = d -> status a <> "cancelled"%string ->
     appointment_end_time a <= t \/
     t + slot_duration_minutes doc <= appointment_time a) ->
  validate_date_against_availability today d doc = None ->
  validate_time_against_availability t doc = None ->
  check_appointment_conflicts db doc d t (slot_duration_minutes doc) = None /\
  valid (validate_complete_appointment today doc d t db) = true /\
  book_appointment today db patient doc d t =
    (DatabaseFailure (UniqueViolation slot_constraint), db) /\
  is_conflict_response (fst (book_appointment today db patient doc d t)) = false.
Proof.
  intros Hin Hdoc Hd Ht Honly Hfree Hdate Htime.
  assert (Hnone : check_appointment_conflicts db doc d t
                    (slot_duration_minutes doc) = None).
  { destruct (check_appointment_conflicts db doc d t (slot_duration_minutes doc))
      eqn:E; [|reflexivity].
    exfalso.
    assert (Hne : check_appointment_conflicts db doc d t
                    (slot_duration_minutes doc) <> None) by congruence.
    apply check_conflicts_collides in Hne.
    destruct Hne as [a [Ha [Hadoc [Had [Hast [Heq|[Hlo Hhi]]]]]]].
    - apply Hast. now apply Honly.
    - destruct (Hfree a Ha Hadoc Had Hast); lia. }
  assert (Hvalid : validate_complete_appointment today doc d t db = validation_ok).
  { unfold validate_complete_appointment. now rewrite Hdate, Htime, Hnone. }
  assert (Hbook : book_appointment today db patient doc d t =
                  (DatabaseFailure (UniqueViolation slot_constraint), db)).
  { unfold book_appointment. rewrite Hvalid. simpl.
    unfold insert_booking, insert_appointment.
    replace (existsb _ db) with true; [reflexivity|].
    symmetry. apply existsb_exists. exists c. split; [assumption|].
    unfold same_slot, new_appointment. simpl.
    now rewrite Hdoc, Hd, Ht, !Z.eqb_refl, date_eqb_refl. }
  split; [assumption|]. split; [now rewrite Hvalid|].
  split; [assumption|]. now rewrite Hbook.
Qed.

(** C10, at the seeded doctor with a cancelled booking on Tuesday 10:00. *)
Lemma C10_cancelled_slot_blocks_insert_witness :
  book_appointment Seed.a_saturday
    [Seed.booking 1 1 Seed.a_tuesday (hm 10 0) "cancelled"] 2
    Seed.dr_ahuja Seed.a_tuesday (hm 10 0) =
  (DatabaseFailure (UniqueViolation slot_constraint),
   [Seed.booking 1 1 Seed.a_tuesday (hm 10 0) "cancelled"]).
Proof.
  apply (C10_cancelled_slot_blocks_insert Seed.a_saturday
           [Seed.booking 1 1 Seed.a_tuesday (hm 10 0) "cancelled"] 2
           Seed.dr_ahuja Seed.a_tuesday (hm 10 0)
           (Seed.booking 1 1 Seed.a_tuesday (hm 10 0) "cancelled")).
  - now left.
  - reflexivity.
  - reflexivity.
  - reflexivity.
  - intros a [<-|[]] _ _ _. reflexivity.
  - intros a [<-|[]] _ _ Hst. now elim Hst.
  - reflexivity.
  - reflexivity.
Defined.

(** *** Simultaneous requests for one slot *)

Lemma step_other today doc d t w i j :
  j <> i -> phases (step today doc d t w i) j = phases w j.
Proof.
  intros Hne. unfold step.
  destruct (phases w i) eqn:E; simpl.
  - destruct (valid _); simpl; unfold set_phase;
      destruct (Nat.eqb_spec j i); congruence.
  - destruct (insert_booking _ _ _ _ _) as [r db']. simpl. unfold set_phase.
    destruct (Nat.eqb_spec j i); congruence.
  - reflexivity.
Qed.

Lemma step_progress today doc d t w i :
  (Nat.min 2 (S (steps_taken (phases w i))) <=
   steps_taken (phases (step today doc d t w i) i))%nat.
Proof.
  unfold step. destruct (phases w i) eqn:E; simpl.
  - destruct (valid _); simpl; unfold set_phase; rewrite Nat.eqb_refl; simpl; lia.
  - destruct (insert_booking _ _ _ _ _) as [r db']. simpl. unfold set_phase.
    rewrite Nat.eqb_refl. simpl. lia.
  - rewrite E. simpl. lia.
Qed.

Lemma steps_taken_le p : (steps_taken p <= 2)%nat.
Proof. destruct p; simpl; lia. Qed.

Lemma run_progress today doc d t schedule w i :
  (Nat.min 2 (steps_taken (phases w i) + count_occ Nat.eq_dec schedule i) <=
   steps_taken (phases (run today doc d t schedule w) i))%nat.
Proof.
  unfold run. revert w.
  induction schedule as [|a s IH]; intros w; cbn [fold_left count_occ].
  - pose proof (steps_taken_le (phases w i)). lia.
  - specialize (IH (step today doc d t w a)).
    destruct (Nat.eq_dec a i) as [->|Hne].
    + pose proof (step_progress today doc d t w i). lia.
    + rewrite (step_other today doc d t w) in IH by congruence. exact IH.
Qed.

Lemma answered_of_steps p : (2 <= steps_taken p)%nat -> exists r, p = Answered r.
Proof. destruct p; simpl; try lia. intros _. now exists r. Qed.

Section Race.
Variables (today : date) (doc : Doctor) (d : date) (t : time) (db0 : table).
Hypothesis Hvalid : valid (validate_complete_appointment today doc d t db0) = true.
Hypothesis Hfree : forall a, In a db0 -> occupies doc d t a = false.

Lemma valid_date_and_time :
  validate_date_against_availability today d doc = None /\
  validate_time_against_availability t doc = None.
Proof.
  revert Hvalid. unfold validate_complete_appointment.
  destruct (validate_date_against_availability _ _ _); [discriminate|].
  destruct (validate_time_against_availability _ _); [discriminate|]. auto.
Qed.

(** Before any insert the first request to insert gets the slot. *)
Lemma insert_first k :
  insert_booking db0 (Z.of_nat k) doc d t =
  (Booked (won db0 doc d t k), db0 ++ [won db0 doc d t k]).
Proof.
  unfold insert_booking, insert_appointment. fold (won db0 doc d t k).
  destruct (existsb _ db0) eqn:E; [|reflexivity].
  apply existsb_exists in E. destruct E as [a [Ha Hs]].
  apply Hfree in Ha. unfold same_slot, won, new_appointment in Hs. simpl in Hs.
  unfold occupies in Ha. congruence.
Qed.

(** After it, every insert for the slot hits the unique index. *)
Lemma insert_later k j :
  insert_booking (db0 ++ [won db0 doc d t k]) (Z.of_nat j) doc d t =
  (DatabaseFailure (UniqueViolation slot_constraint), db0 ++ [won db0 doc d t k]).
Proof.
  unfold insert_booking, insert_appointment.
  rewrite existsb_app. simpl. unfold same_slot at 2. simpl.
  now rewrite !Z.eqb_refl, date_eqb_refl, orb_true_r.
Qed.

(** ... and every validation finds the stored row. *)
Lemma late_answer_conflict k :
  let slots := find_available_slots (db0 ++ [won db0 doc d t k]) doc d in
  late_answer today db0 doc d t k =
  mkValidation false (booked_message d t slots) "conflict" slots.
Proof.
  intros slots. unfold late_answer, validate_complete_appointment.
  destruct valid_date_and_time as [-> ->].
  assert (Hex : exists a, find_existing (db0 ++ [won db0 doc d t k])
                            (doctor_pk doc) d t = Some a).
  { apply find_existing_some. exists (won db0 doc d t k).
    split; [apply in_or_app; right; now left|].
    apply exact_slot_filter_iff. simpl. repeat split. discriminate. }
  destruct Hex as [a Ha]. unfold check_appointment_conflicts. now rewrite Ha.
Qed.

Lemma race_invariant_start n : race_invariant today doc d t db0 n (start db0).
Proof. left. split; [reflexivity|]. intros i. now left. Qed.

Lemma race_invariant_step n w i :
  (i < n)%nat -> race_invariant today doc d t db0 n w ->
  race_invariant today doc d t db0 n (step today doc d t w i).
Proof.
  intros Hi [[Hrows Hph]|[k [Hk [Hrows [Hwon Hph]]]]].
  - unfold step. destruct (Hph i) as [E|E]; rewrite E.
    + rewrite Hrows, Hvalid. left. simpl. split; [reflexivity|].
      intros j. unfold set_phase. destruct (Nat.eqb j i); auto.
    + rewrite Hrows, insert_first. right. exists i. simpl.
      split; [assumption|]. split; [reflexivity|].
      split; [unfold set_phase; now rewrite Nat.eqb_refl|].
      intros j Hj. unfold set_phase.
      destruct (Nat.eqb_spec j i); [congruence|].
      destruct (Hph j); auto.
  - right. exists k. destruct (Nat.eq_dec i k) as [->|Hne].
    + unfold step. rewrite Hwon. auto.
    + split; [assumption|].
      assert (Hk' : phases (step today doc d t w i) k =
                    Answered (Booked (won db0 doc d t k)))
        by (rewrite step_other; auto).
      split; [|split; [exact Hk'|]].
      * unfold step. destruct (Hph i Hne) as [E|[E|[E|E]]]; rewrite E.
        -- destruct (valid (validate_complete_appointment today doc d t (rows w))); simpl; assumption.
        -- rewrite Hrows, insert_later. reflexivity.
        -- assumption.
        -- assumption.
      * intros j Hj. destruct (Nat.eq_dec j i) as [->|Hji].
        2:{ rewrite step_other by assumption. now apply Hph. }
        unfold step. destruct (Hph i Hne) as [E|[E|[E|E]]]; rewrite E.
        -- rewrite Hrows. fold (late_answer today db0 doc d t k).
           pose proof (late_answer_conflict k) as Hlate. simpl in Hlate.
           rewrite Hlate. simpl. unfold set_phase. rewrite Nat.eqb_refl. auto.
        -- rewrite Hrows, insert_later. simpl. unfold set_phase.
           rewrite Nat.eqb_refl. auto.
        -- rewrite E. auto.
        -- rewrite E. auto.
Qed.

Lemma race_invariant_run n schedule w :
  Forall (fun i => (i < n)%nat) schedule ->
  race_invariant today doc d t db0 n w ->
  race_invariant today doc d t db0 n (run today doc d t schedule w).
Proof.
  intros Hall. revert w. induction Hall as [|i s Hi Hs IH]; intros w Hw.
  - exact Hw.
  - simpl. apply IH. now apply race_invariant_step.
Qed.
End Race.

Lemma answers_length w l :
  (forall i, In i l -> exists r, phases w i = Answered r) ->
  List.length (flat_map (answer_of w) l) = List.length l.
Proof.
  induction l as [|a l IH]; intros H; simpl; [reflexivity|].
  rewrite length_app, IH by (intros i Hi; apply H; now right).
  destruct (H a (or_introl eq_refl)) as [r Hr]. unfold answer_of. now rewrite Hr.
Qed.

Lemma booked_count w l k row :
  NoDup l -> phases w k = Answered (Booked row) ->
  (forall i, In i l -> i <> k ->
     exists r, phases w i = Answered r /\ is_booked r = false) ->
  List.length (filter is_booked (flat_map (answer_of w) l)) =
  if in_dec Nat.eq_dec k l then 1%nat else 0%nat.
Proof.
  intros Hnd Hk. induction Hnd as [|a l Ha Hnd IH]; intros H; simpl; [reflexivity|].
  rewrite filter_app, length_app.
  rewrite IH by (intros i Hi; apply H; now right).
  destruct (Nat.eq_dec a k) as [->|Hne].
  - unfold answer_of at 1. rewrite Hk. simpl.
    destruct (in_dec Nat.eq_dec k l); [contradiction|reflexivity].
  - destruct (H a (or_introl eq_refl) Hne) as [r [Hr Hb]].
    unfold answer_of at 1. rewrite Hr. simpl. rewrite Hb. simpl.
    destruct (in_dec Nat.eq_dec k l); reflexivity.
Qed.


Lemma complete_two_by_two : complete [0; 1; 0; 1]%nat 2.
Proof. intros i Hi. destruct i as [|[|i]]; simpl; lia. Qed.



(** The same race, answer by answer: a booking for the first request, the
    database failure for the second. *)
Example both_validate_first :
  let w := run Seed.a_saturday Seed.dr_ahuja Seed.a_tuesday (hm 10 0)
             [0; 1; 0; 1]%nat (start []) in
  map is_booked (answers w 2) = [true; false] /\
  map is_database_failure (answers w 2) = [false; true] /\
  map is_conflict_response (answers w 2) = [false; false].
Proof. repeat split. Qed.

(** When the second request validates after the first has inserted, it is
    told of the conflict. *)
Example one_after_the_other :
  let w := run Seed.a_saturday Seed.dr_ahuja Seed.a_tuesday (hm 10 0)
             [0; 0; 1; 1]%nat (start []) in
  map is_booked (answers w 2) = [true; false] /\
  map is_conflict_response (answers w 2) = [false; true].
Proof. repeat split. Qed.
End AppointmentFacts.

Module MemoryFacts.
Import Memory.
Local Open Scope Z_scope.

Lemma keyed_fields s e c :
  keyed s e c = true <-> session_id c = s /\ patient_email c = Some e.
Proof.
  unfold keyed. rewrite andb_true_iff, String.eqb_eq.
  destruct (patient_email c) as [e'|].
  - rewrite String.eqb_eq. split; [intros [-> ->]; auto|intros [-> [= ->]]; auto].
  - split; [intros [_ ?]; discriminate|intros [_ ?]; discriminate].
Qed.

(** A row belongs to one user at most. *)
Lemma keyed_exclusive s A B c :
  A <> B -> keyed s A c = true -> keyed s B c = false.
Proof.
  intros Hne HA. apply keyed_fields in HA. destruct HA as [_ HA].
  destruct (keyed s B c) eqn:HB; [|reflexivity].
  apply keyed_fields in HB. destruct HB as [_ HB]. congruence.
Qed.

Lemma find_filter {A : Type} (p q : A -> bool) (l : list A) :
  (forall x, p x = true -> q x = true) -> find p (filter q l) = find p l.
Proof.
  intros Hpq. induction l as [|a l IH]; simpl; [reflexivity|].
  destruct (q a) eqn:Hq; simpl.
  - now rewrite IH.
  - destruct (p a) eqn:Hp; [|exact IH]. apply Hpq in Hp. congruence.
Qed.

(** The query of one user looks at none of the rows of another. *)
Lemma find_context_foreign s A B db :
  A <> B -> find_context s A (foreign s B db) = find_context s A db.
Proof.
  intros Hne. unfold find_context, foreign. apply find_filter.
  intros c Hc. now rewrite (keyed_exclusive s A B c Hne Hc).
Qed.

Lemma find_context_own s e db :
  find_context s e (own s e db) = find_context s e db.
Proof. unfold find_context, own. now apply find_filter. Qed.

Lemma foreign_replace_first s e c' db :
  keyed s e c' = true ->
  foreign s e (replace_first (keyed s e) c' db) = foreign s e db.
Proof.
  intros Hc'. unfold foreign. induction db as [|c db IH]; simpl; [reflexivity|].
  destruct (keyed s e c) eqn:Hc; simpl.
  - now rewrite Hc'.
  - now rewrite Hc, IH.
Qed.

Lemma foreign_store s e c db :
  keyed s e c = true -> foreign s e (db ++ [c]) = foreign s e db.
Proof.
  intros Hc. unfold foreign. rewrite filter_app. simpl. rewrite Hc. simpl.
  apply app_nil_r.
Qed.

Lemma fresh_context_keyed s e now db : keyed s e (fresh_context s e now db) = true.
Proof. apply keyed_fields. split; reflexivity. Qed.

Lemma get_or_create_missing strict s e now db :
  given e = None ->
  get_or_create_context strict s e now db = (inl PatientEmailRequired, db).
Proof. intros H. unfold get_or_create_context. now rewrite H. Qed.

Lemma get_or_create_foreign strict s e e' now db :
  given e = Some e' ->
  foreign s e' (snd (get_or_create_context strict s e now db)) = foreign s e' db /\
  (forall c, fst (get_or_create_context strict s e now db) = inr c ->
             keyed s e' c = true).
Proof.
  intros He. unfold get_or_create_context. rewrite He.
  destruct (find_context s e' db) as [c|] eqn:Hfind; simpl.
  - split; [reflexivity|]. intros c0 [= <-].
    unfold find_context in Hfind. now apply find_some in Hfind.
  - destruct (violates _ _ _); simpl.
    + split; [reflexivity|discriminate].
    + split; [apply foreign_store, fresh_context_keyed|].
      intros c0 [= <-]. apply fresh_context_keyed.
Qed.

(** A change that keeps the keys of the row touches no foreign row. *)
Lemma modify_context_foreign strict s e e' now f db :
  given e = Some e' ->
  (forall c, session_id (f c) = session_id c /\
             patient_email (f c) = patient_email c) ->
  foreign s e' (snd (modify_context strict s e now f db)) = foreign s e' db.
Proof.
  intros He Hf. unfold modify_context.
  destruct (get_or_create_foreign strict s e e' now db He) as [Hdb Hc].
  destruct (get_or_create_context strict s e now db) as [[err|c] db']; simpl in *.
  - exact Hdb.
  - rewrite He. simpl. rewrite foreign_replace_first; [exact Hdb|].
    specialize (Hc c eq_refl). apply keyed_fields in Hc.
    apply keyed_fields. destruct (Hf c) as [-> ->]. exact Hc.
Qed.

Lemma modify_context_missing strict s e now f db :
  given e = None -> snd (modify_context strict s e now f db) = db.
Proof.
  intros He. unfold modify_context.
  now rewrite (get_or_create_missing strict s e now db He).
Qed.

Lemma snd_done r : snd (done r) = snd r.
Proof. now destruct r as [[err|] db]. Qed.

Lemma run_op_missing strict op s e now db :
  given e = None -> snd (run_op strict op s e now db) = db.
Proof.
  intros He. destruct op; simpl; rewrite ?snd_done;
    try (apply modify_context_missing; assumption); try reflexivity.
  now rewrite (get_or_create_missing strict s e now db He).
Qed.

Lemma run_op_foreign strict op s e e' now db :
  given e = Some e' ->
  foreign s e' (snd (run_op strict op s e now db)) = foreign s e' db.
Proof.
  intros He. destruct op; simpl; rewrite ?snd_done;
    try (apply modify_context_foreign; [assumption|intros c; split; reflexivity]);
    try reflexivity.
  destruct (get_or_create_foreign strict s e e' now db He) as [Hdb _].
  now destruct (get_or_create_context strict s e now db) as [[err|c] db'].
Qed.

(** The summary of (s, e) is a function of the rows of (s, e). *)
Lemma summary_reads_own s e db1 db2 :
  own s e db1 = own s e db2 ->
  get_context_for_prompt s (Some e) db1 = get_context_for_prompt s (Some e) db2.
Proof.
  intros H. unfold get_context_for_prompt.
  destruct (given (Some e)) as [e'|] eqn:He; [|reflexivity].
  assert (e' = e) as -> by (destruct e; simpl in He; congruence).
  now rewrite <- (find_context_own s e db1), <- (find_context_own s e db2), H.
Qed.

(** ... and so a function of the rows that are not another user's. *)
Lemma summary_reads_foreign s A B db1 db2 :
  A <> B -> foreign s B db1 = foreign s B db2 ->
  get_context_for_prompt s (Some A) db1 = get_context_for_prompt s (Some A) db2.
Proof.
  intros Hne H. unfold get_context_for_prompt.
  destruct (given (Some A)) as [e'|] eqn:He; [|reflexivity].
  assert (e' = A) as -> by (destruct A; simpl in He; congruence).
  now rewrite <- (find_context_foreign s A B db1 Hne),
              <- (find_context_foreign s A B db2 Hne), H.
Qed.



(** The two summaries after that, side by side. *)
Example summaries_side_by_side :
  let db' :=
    snd (run_op false
           (SaveAttemptedDate "2025-12-20" "Doctor not available on Saturdays")
           Seed.shared_session (Some Seed.bob) 2000 Seed.alice_context) in
  get_context_for_prompt Seed.shared_session (Some Seed.alice) db' =
  ("**Conversation Context:**" ++ newline ++
   "- The user has previously shown interest in Dr. Smith (Cardiology).")%string /\
  get_context_for_prompt Seed.shared_session (Some Seed.bob) db' =
  ("**Conversation Context:**" ++ newline ++
   "- The user has attempted to book on: 2025-12-20." ++ newline ++
   "- Last booking attempt failed because: Doctor not available on Saturdays")%string.
Proof. split; reflexivity. Qed.

(** Under the table definition that declares [session_id] UNIQUE, the
    second user of a session id gets no context at all: the store refuses
    the row, and Alice's is untouched. *)
Example unique_session_refuses_second_user :
  run_op true GetOrCreate Seed.shared_session (Some Seed.bob) 2000
    Seed.alice_context = (Failed IntegrityError, Seed.alice_context).
Proof. reflexivity. Qed.

(** No email, no context. *)
Lemma get_context_for_prompt_no_email s db :
  get_context_for_prompt s None db = ""%string /\
  get_context_for_prompt s (Some ""%string) db = ""%string.
Proof. split; reflexivity. Qed.
End MemoryFacts.

Module OrchestratorFacts.
Import Orchestrator.

Section Loop.
Variable call_llm : nat -> list Message -> LLMResponse.
Variable call_tool : ToolCall -> World -> ResultData * World.
Variable format_other : ToolResult -> string.

Local Notation "'loop'" := (agent_loop call_llm call_tool format_other).
Local Notation "'synthesize'" := (_synthesize_final_response format_other).
Local Notation "'execute'" := (execute_tool_calls call_tool).
Local Notation "'finish'" := (after_loop format_other).

Lemma synthesize_keeps_messages messages tool_results :
  fst (synthesize messages tool_results) = messages.
Proof. reflexivity. Qed.

Lemma execute_tool_calls_ids calls w :
  map result_call_id (fst (execute calls w)) = map call_id calls.
Proof.
  revert w. induction calls as [|c rest IH]; intros w; [reflexivity|].
  simpl. destruct (call_tool c w) as [rd w1].
  specialize (IH w1). destruct (execute rest w1) as [rs w2].
  simpl in *. now rewrite IH.
Qed.

Lemma execute_tool_calls_nonempty c rest w : fst (execute (c :: rest) w) <> [].
Proof.
  simpl. destruct (call_tool c w) as [rd w1].
  destruct (execute rest w1) as [rs w2]. discriminate.
Qed.

Local Arguments execute_tool_calls : simpl never.
Local Arguments after_loop : simpl never.

Lemma after_loop_state st :
  llm_messages (snd (finish st)) = llm_messages st /\
  all_tool_results (snd (finish st)) = all_tool_results st /\
  iteration (snd (finish st)) = iteration st /\
  llm_log (snd (finish st)) = llm_log st /\
  iterations (fst (finish st)) = iteration st.
Proof. unfold after_loop. destruct (nonempty _); simpl; auto. Qed.

(** *** Termination *)

(** Each round makes one call to the model and counts one iteration. *)
Lemma agent_loop_counts max_iterations fuel st env st' :
  loop max_iterations fuel st = Some (env, st') ->
  iterations env = iteration st' /\
  (List.length (llm_log st') + iteration st =
   List.length (llm_log st) + iteration st')%nat /\
  (iteration st <= iteration st')%nat /\
  (iteration st' <= Nat.max max_iterations (iteration st))%nat.
Proof.
  revert st. induction fuel as [|fuel IH]; intros st Hrun; [discriminate|].
  simpl in Hrun. destruct (iteration st <? max_iterations)%nat eqn:Hit.
  - apply Nat.ltb_lt in Hit.
    destruct (llm_tool_calls (call_llm (List.length (llm_log st)) (llm_messages st)))
      as [|c rest] eqn:Hcalls.
    + destruct (negb _ && _); simpl in Hrun; injection Hrun as <- <-; simpl;
        rewrite length_app; simpl; lia.
    + destruct (execute (c :: rest) (world st)) as [results w'] eqn:Hexec.
      apply IH in Hrun. simpl in Hrun. rewrite length_app in Hrun.
      simpl in Hrun. lia.
  - apply Nat.ltb_ge in Hit. injection Hrun as Hrun.
    destruct (after_loop_state st) as [_ [_ [Hi [Hlog Hit']]]].
    rewrite Hrun in Hi, Hlog, Hit'. simpl in Hi, Hlog, Hit'.
    rewrite Hi, Hlog, Hit'. lia.
Qed.

(** From any state, fuel beyond the rounds that remain is enough. *)
Lemma agent_loop_returns max_iterations fuel st :
  (max_iterations - iteration st < fuel)%nat ->
  exists env st', loop max_iterations fuel st = Some (env, st').
Proof.
  revert st. induction fuel as [|fuel IH]; intros st Hfuel; [lia|].
  simpl. destruct (iteration st <? max_iterations)%nat eqn:Hit.
  - apply Nat.ltb_lt in Hit.
    destruct (llm_tool_calls (call_llm (List.length (llm_log st)) (llm_messages st)))
      as [|c rest] eqn:Hcalls.
    + destruct (negb _ && _); simpl; eexists; eexists; reflexivity.
    + destruct (execute (c :: rest) (world st)) as [results w'] eqn:Hexec.
      apply IH. simpl. lia.
  - destruct (finish st) as [env st']. now exists env, st'.
Qed.

(** *** Exhaustion *)

Lemma never_answered_app log r :
  model_never_answered (log ++ [r]) -> llm_tool_calls r <> [].
Proof.
  intros H. apply Forall_app in H. destruct H as [_ H]. now inversion H.
Qed.

(** A run whose every model answer asked for tools ended in the code
    after the loop. *)
Lemma agent_loop_exhausted max_iterations fuel st env st' :
  loop max_iterations fuel st = Some (env, st') ->
  model_never_answered (llm_log st') ->
  exists last, finish last = (env, st') /\
    (iteration st <= max_iterations -> iteration last = max_iterations)%nat.
Proof.
  revert st. induction fuel as [|fuel IH]; intros st Hrun Hlog; [discriminate|].
  simpl in Hrun. destruct (iteration st <? max_iterations)%nat eqn:Hit.
  - apply Nat.ltb_lt in Hit.
    destruct (llm_tool_calls (call_llm (List.length (llm_log st)) (llm_messages st)))
      as [|c rest] eqn:Hcalls.
    + exfalso. destruct (negb _ && _); simpl in Hrun;
        injection Hrun as <- <-; simpl in Hlog;
        apply never_answered_app in Hlog; congruence.
    + destruct (execute (c :: rest) (world st)) as [results w'] eqn:Hexec.
      destruct (IH _ Hrun Hlog) as [last [Hlast Hmax]].
      exists last. split; [assumption|]. intros _. apply Hmax. simpl. lia.
  - apply Nat.ltb_ge in Hit. injection Hrun as Hrun.
    exists st. split; [assumption|]. lia.
Qed.

(** *** The transcript *)

Lemma filter_tool_messages rs :
  filter is_tool_message (map tool_message rs) = map tool_message rs.
Proof. induction rs as [|r rs IH]; simpl; [reflexivity|]. now rewrite IH. Qed.

Lemma transcript_call_ids_filter msgs :
  transcript_call_ids (filter is_tool_message msgs) = transcript_call_ids msgs.
Proof.
  unfold transcript_call_ids. induction msgs as [|m msgs IH]; simpl; [reflexivity|].
  destruct (is_tool_message m) eqn:E; simpl; rewrite ?E, IH; reflexivity.
Qed.

Lemma transcript_call_ids_results rs :
  transcript_call_ids (map tool_message rs) = map result_call_id rs.
Proof.
  unfold transcript_call_ids. induction rs as [|r rs IH]; simpl; [reflexivity|].
  now rewrite IH.
Qed.

Lemma issued_call_ids_app l1 l2 :
  issued_call_ids (l1 ++ l2) = issued_call_ids l1 ++ issued_call_ids l2.
Proof. unfold issued_call_ids. apply flat_map_app. Qed.

(** What a run adds: to the message list, entries whose tool entries are
    the new results, one each and in order; to the results, one per call
    the model issued. *)
Lemma agent_loop_transcript max_iterations fuel st env st' :
  loop max_iterations fuel st = Some (env, st') ->
  exists appended new_results new_log,
    llm_messages st' = llm_messages st ++ appended /\
    all_tool_results st' = all_tool_results st ++ new_results /\
    llm_log st' = llm_log st ++ new_log /\
    filter is_tool_message appended = map tool_message new_results /\
    map result_call_id new_results = issued_call_ids new_log.
Proof.
  revert st. induction fuel as [|fuel IH]; intros st Hrun; [discriminate|].
  simpl in Hrun. destruct (iteration st <? max_iterations)%nat eqn:Hit.
  - remember (call_llm (List.length (llm_log st)) (llm_messages st)) as r eqn:Hr.
    destruct (llm_tool_calls r) as [|c rest] eqn:Hcalls.
    + exists [], [], [r].
      destruct (negb _ && _); simpl in Hrun; injection Hrun as <- <-; simpl;
        rewrite !app_nil_r; unfold issued_call_ids; simpl; rewrite Hcalls;
        auto.
    + pose proof (execute_tool_calls_ids (c :: rest) (world st)) as Hids.
      destruct (execute (c :: rest) (world st)) as [results w'] eqn:Hexec.
      simpl fst in Hids.
      destruct (IH _ Hrun) as [appended [new_results [new_log [Hm [Ha [Hl [Hf Hi]]]]]]].
      simpl in Hm, Ha, Hl.
      exists (assistant_message r :: map tool_message results ++ appended),
             (results ++ new_results), (r :: new_log).
      split; [rewrite Hm, <- app_assoc; reflexivity|].
      split; [rewrite Ha, <- app_assoc; reflexivity|].
      split; [rewrite Hl, <- app_assoc; reflexivity|].
      split.
      * simpl. rewrite filter_app, filter_tool_messages, Hf, map_app. reflexivity.
      * rewrite map_app, Hids, Hi.
        change (r :: new_log) with ([r] ++ new_log).
        rewrite issued_call_ids_app. unfold issued_call_ids at 2. simpl.
        now rewrite Hcalls, app_nil_r.
  - injection Hrun as Hrun.
    destruct (after_loop_state st) as [Hm [Ha [_ [Hl _]]]].
    rewrite Hrun in Hm, Ha, Hl. simpl in Hm, Ha, Hl.
    exists [], [], []. rewrite !app_nil_r. auto.
Qed.
End Loop.

(** *** The boundary check *)

Lemma lstrip_nil l : lstrip l = [] <-> Forall (fun c => is_space c = true) l.
Proof.
  induction l as [|c l IH]; simpl.
  - split; auto.
  - destruct (is_space c) eqn:E.
    + rewrite IH. split; [intros H; now constructor|intros H; now inversion H].
    + split; [discriminate|]. intros H. inversion H. congruence.
Qed.

Lemma lstrip_head l c r : lstrip l = c :: r -> is_space c = false.
Proof.
  induction l as [|a l IH]; simpl; [discriminate|].
  destruct (is_space a) eqn:E; [exact IH|]. now intros [= <- _].
Qed.

Lemma lstrip_spaces l :
  Forall (fun c => is_space c = true) (lstrip l) -> lstrip l = [].
Proof.
  destruct (lstrip l) as [|c r] eqn:E; [reflexivity|].
  intros H. apply lstrip_head in E. inversion H. congruence.
Qed.

Lemma strip_empty s :
  strip s = ""%string <-> Forall (fun c => is_space c = true) (list_ascii_of_string s).
Proof.
  unfold strip. set (l := list_ascii_of_string s).
  assert (Hs : forall k, string_of_list_ascii k = ""%string <-> k = []).
  { intros [|a k]; simpl; split; congruence. }
  assert (Hr : forall k : list ascii, rev k = [] <-> k = []).
  { intros k. split; [|now intros ->].
    intros H. apply (f_equal (@rev ascii)) in H. now rewrite rev_involutive in H. }
  rewrite Hs, Hr. split.
  - intros H. apply lstrip_nil in H. apply lstrip_nil, lstrip_spaces.
    apply Forall_rev in H. now rewrite rev_involutive in H.
  - intros H. apply lstrip_nil in H. now rewrite H.
Qed.

Lemma truthy_some s : truthy (Some s) = false <-> s = ""%string.
Proof. destruct s as [|a s]; cbv [truthy Memory.given]; split; congruence. Qed.

(** The guard of the endpoint fires on exactly the absent and the blank
    identifiers. *)
Lemma no_user_email_iff e : no_user_email e = true <-> absent_or_blank e.
Proof.
  destruct e as [s|]; simpl; [|tauto].
  unfold no_user_email. rewrite orb_true_iff, !negb_true_iff, !truthy_some.
  rewrite strip_empty. split; [|auto].
  intros [->|H]; [constructor|exact H].
Qed.

Lemma skipn_length_app {A : Type} (l l' : list A) :
  skipn (List.length l) (l ++ l') = l'.
Proof. induction l as [|a l IH]; simpl; [reflexivity|exact IH]. Qed.

(** C3: whatever the model answers, and in particular when it asks for a
    tool on every round, the loop of [process_message] returns, after at
    most [max_iterations] calls to the model, hence within
    [max_iterations + 1]; the default bound is 5. *)
Theorem C3_agent_loop_terminates call_llm call_tool format_other
  max_iterations fuel msgs w :
  (max_iterations < fuel)%nat ->
  (exists env st,
     agent_loop call_llm call_tool format_other max_iterations fuel
       (init_state msgs w) = Some (env, st) /\
     (List.length (llm_log st) <= max_iterations)%nat /\
     (List.length (llm_log st) <= max_iterations + 1)%nat /\
     iterations env = List.length (llm_log st)) /\
  (forall system_prompt strict now session_id user_email user_message history,
     fst (process_message call_llm call_tool format_other system_prompt strict
            now max_iterations session_id user_email user_message history w)
     <> StillRunning) /\
  default_max_iterations = 5%nat.
Proof.
  intros Hfuel. split; [|split; [|reflexivity]].
  - destruct (agent_loop_returns call_llm call_tool format_other max_iterations
                fuel (init_state msgs w)) as [env [st Hrun]]; [simpl; lia|].
    exists env, st. split; [assumption|].
    apply agent_loop_counts in Hrun. simpl in Hrun. lia.
  - intros system_prompt strict now session_id user_email user_message history.
    unfold process_message. destruct (negb (truthy user_email)); [discriminate|].
    match goal with |- context [agent_loop _ _ _ _ _ ?s] =>
      destruct (agent_loop_returns call_llm call_tool format_other
                  max_iterations (S max_iterations) s) as [env [st Hrun]];
        [simpl; lia|rewrite Hrun]
    end.
    destruct (env_success env); [|discriminate].
    destruct (Memory.update_message_count _ _ _ _ _ _ _). discriminate.
Qed.

(** C3, at a model that asks for a tool on every round, with the default
    bound: five calls. *)
Lemma C3_agent_loop_terminates_witness :
  exists env st,
    agent_loop Seed.eager_model Seed.one_doctor_registry Seed.no_other_format
      5 6 (init_state [] Seed.empty_world) = Some (env, st) /\
    (List.length (llm_log st) <= 5)%nat /\
    (List.length (llm_log st) <= 5 + 1)%nat /\
    iterations env = List.length (llm_log st).
Proof.
  apply (C3_agent_loop_terminates Seed.eager_model Seed.one_doctor_registry
           Seed.no_other_format 5 6 [] Seed.empty_world).
  lia.
Defined.

(** C4: a run that used up [max_iterations] rounds (every answer of the
    model asked for tools) ends after the loop: with tool results at hand,
    in a success whose text is synthesized from them and which carries the
    warning; with none, in a failure with the apology and an error, never in
    a success. *)
Theorem C4_max_iterations_exhausted call_llm call_tool format_other
  max_iterations fuel msgs w env st :
  agent_loop call_llm call_tool format_other max_iterations fuel
    (init_state msgs w) = Some (env, st) ->
  model_never_answered (llm_log st) ->
  iterations env = max_iterations /\
  List.length (llm_log st) = max_iterations /\
  (all_tool_results st <> [] ->
     env_success env = true /\
     response env = Some (snd (_synthesize_final_response format_other
                                 (llm_messages st) (all_tool_results st))) /\
     warning env = Some max_iterations_warning /\ env_error env = None /\
     tool_calls_made env = List.length (all_tool_results st)) /\
  (all_tool_results st = [] ->
     env_success env = false /\ response env = Some apology /\
     env_error env = Some no_results_error /\ warning env = None /\
     tool_calls_made env = 0%nat).
Proof.
  intros Hrun Hlog.
  pose proof (agent_loop_counts _ _ _ _ _ _ _ _ Hrun) as [Hit [Hlen _]].
  destruct (agent_loop_exhausted _ _ _ _ _ _ _ _ Hrun Hlog) as [last [Hlast Hmax]].
  simpl in Hlen, Hmax. specialize (Hmax (Nat.le_0_l _)).
  destruct (after_loop_state format_other last) as [Hm [Ha [Hi [_ _]]]].
  rewrite Hlast in Hm, Ha, Hi. simpl in Hm, Ha, Hi.
  split; [lia|]. split; [lia|].
  unfold after_loop in Hlast. rewrite <- Ha in Hlast.
  destruct (all_tool_results st) as [|r rs]; simpl in Hlast;
    injection Hlast as <- _; simpl.
  - split; [congruence|]. auto.
  - split; [intros _; repeat split|discriminate].
Qed.

(** C4, with tool results: the model that never answers, five rounds. *)
Lemma C4_max_iterations_exhausted_witness :
  exists env st,
    agent_loop Seed.eager_model Seed.one_doctor_registry Seed.no_other_format
      5 6 (init_state [] Seed.empty_world) = Some (env, st) /\
    iterations env = 5%nat /\ env_success env = true /\
    warning env = Some max_iterations_warning.
Proof.
  destruct (agent_loop Seed.eager_model Seed.one_doctor_registry
              Seed.no_other_format 5 6 (init_state [] Seed.empty_world))
    as [[env st]|] eqn:Hrun.
  2:{ vm_compute in Hrun. discriminate. }
  exists env, st. split; [reflexivity|].
  assert (Hlog : model_never_answered (llm_log st)).
  { pose proof Hrun as H. vm_compute in H. injection H as _ <-.
    unfold model_never_answered. simpl. repeat constructor; discriminate. }
  assert (Hres : all_tool_results st <> []).
  { pose proof Hrun as H. vm_compute in H. injection H as _ <-. discriminate. }
  destruct (C4_max_iterations_exhausted Seed.eager_model
              Seed.one_doctor_registry Seed.no_other_format 5 6 []
              Seed.empty_world env st Hrun Hlog) as [Hit [_ [Hsome _]]].
  destruct (Hsome Hres) as [Hs [_ [Hw _]]]. auto.
Defined.





(** An accepted request, for comparison, reads the memory first and writes
    it last. *)
Example accepted_request_touches_memory :
  memory_log
    (snd (process_message Seed.polite_model Seed.one_doctor_registry
            Seed.no_other_format Seed.plain_prompt false 1000%Z 5
            Seed.shared_session (Some Seed.alice) "Hello" []
            (mkWorld Seed.alice_context []))) =
  [MemRead Seed.shared_session (Some Seed.alice);
   MemWrite Seed.shared_session (Some Seed.alice)].
Proof. reflexivity. Qed.

(** The check inside [process_message] is on truth only: an identifier
    made of spaces passes it, and is stopped by the endpoint alone. *)
Example process_message_takes_spaces :
  fst (process_message Seed.polite_model Seed.one_doctor_registry
         Seed.no_other_format Seed.plain_prompt false 1000%Z 5
         Seed.shared_session (Some "  "%string) "Hello" []
         (mkWorld Seed.alice_context [])) <> Raised missing_user_email.
Proof. discriminate. Qed.

(** With no round allowed there is no tool result, and the run is a
    failure. *)
Example no_rounds_no_results :
  fst (process_message Seed.eager_model Seed.one_doctor_registry
         Seed.no_other_format Seed.plain_prompt false 1000%Z 0
         Seed.shared_session (Some Seed.alice) "Hello" [] Seed.empty_world) =
  Returned (mkEnvelope false (Some apology) 0 0 None (Some no_results_error)).
Proof. reflexivity. Qed.
End OrchestratorFacts.

(** ** The text validators *)

Module InputValidatorTextFacts.
Import Orchestrator.
Import Calendar InputValidator InputValidatorText.

(** *** [str.strip()] *)

Lemma lstrip_idem l : lstrip (lstrip l) = lstrip l.
Proof.
  induction l as [|c l IH]; simpl; [reflexivity|].
  destruct (is_space c) eqn:E; [exact IH|]. simpl. now rewrite E.
Qed.

Lemma lstrip_app_nonspace k c t :
  is_space c = false -> lstrip (k ++ c :: t) = lstrip k ++ c :: t.
Proof.
  intros Hc. induction k as [|a k IH]; simpl.
  - now rewrite Hc.
  - destruct (is_space a); [exact IH|reflexivity].
Qed.

(** What [lstrip] drops is a run of spaces at the front. *)
Lemma lstrip_split l :
  exists p, l = p ++ lstrip l /\ Forall (fun c => is_space c = true) p.
Proof.
  induction l as [|c l [p [Hl Hp]]]; simpl.
  - exists []. split; [reflexivity|constructor].
  - destruct (is_space c) eqn:E.
    + exists (c :: p). split; [simpl; now rewrite <- Hl|now constructor].
    + exists []. split; [reflexivity|constructor].
Qed.

(** The strip on lists of characters. *)
Lemma strip_list s :
  list_ascii_of_string (strip s) =
  rev (lstrip (rev (lstrip (list_ascii_of_string s)))).
Proof. unfold strip. apply list_ascii_of_string_of_list_ascii. Qed.

(** What [strip] drops is a run of spaces at either end. *)
Lemma strip_split s :
  exists p q,
    list_ascii_of_string s = p ++ list_ascii_of_string (strip s) ++ q /\
    Forall (fun c => is_space c = true) p /\
    Forall (fun c => is_space c = true) q.
Proof.
  rewrite strip_list. set (l := list_ascii_of_string s).
  destruct (lstrip_split l) as [p [Hl Hp]].
  destruct (lstrip_split (rev (lstrip l))) as [q [Hr Hq]].
  exists p, (rev q). split; [|split].
  - rewrite <- rev_app_distr, <- Hr, rev_involutive. exact Hl.
  - exact Hp.
  - now apply Forall_rev.
Qed.

Lemma strip_idem s : strip (strip s) = strip s.
Proof.
  unfold strip at 1. rewrite strip_list.
  remember (lstrip (list_ascii_of_string s)) as m eqn:E.
  assert (Hm : lstrip (rev (lstrip (rev m))) = rev (lstrip (rev m))).
  { destruct m as [|c m']; [reflexivity|].
    assert (Hc : is_space c = false)
      by (symmetry in E; exact (OrchestratorFacts.lstrip_head _ c m' E)).
    change (rev (c :: m')) with (rev m' ++ [c]).
    rewrite (lstrip_app_nonspace (rev m') c [] Hc).
    rewrite rev_app_distr. simpl. now rewrite Hc. }
  rewrite Hm, rev_involutive, lstrip_idem. subst m. reflexivity.
Qed.

Lemma strip_length s : (String.length (strip s) <= String.length s)%nat.
Proof.
  destruct (strip_split s) as [p [q [H _]]].
  rewrite <- (string_of_list_ascii_of_string s) at 2.
  rewrite <- (string_of_list_ascii_of_string (strip s)).
  rewrite H. clear H.
  assert (L : forall l, String.length (string_of_list_ascii l) = List.length l).
  { induction l; simpl; congruence. }
  rewrite !L, !length_app. lia.
Qed.

Lemma strip_Forall (P : ascii -> Prop) s :
  Forall P (list_ascii_of_string s) -> Forall P (list_ascii_of_string (strip s)).
Proof.
  destruct (strip_split s) as [p [q [H _]]]. rewrite H.
  intros F. apply Forall_app in F as [_ F]. now apply Forall_app in F as [F _].
Qed.

(** A filter that rejects the spaces does not see the strip. *)
Lemma strip_filter (f : ascii -> bool) s :
  (forall c, is_space c = true -> f c = false) ->
  filter f (list_ascii_of_string (strip s)) = filter f (list_ascii_of_string s).
Proof.
  intros Hf. destruct (strip_split s) as [p [q [H [Hp Hq]]]].
  assert (E : forall k, Forall (fun c => is_space c = true) k -> filter f k = []).
  { induction 1 as [|c k Hc _ IH]; simpl; [reflexivity|]. now rewrite (Hf c Hc). }
  rewrite H, !filter_app, (E p Hp), (E q Hq), app_nil_r. reflexivity.
Qed.

Lemma string_length_list s :
  String.length s = List.length (list_ascii_of_string s).
Proof. induction s; simpl; congruence. Qed.

Lemma nonblank_iff s : nonblank s = true <-> s <> ""%string.
Proof.
  unfold nonblank. destruct (truthy (Some s)) eqn:E.
  - split; [|reflexivity]. intros _ ->. discriminate.
  - apply OrchestratorFacts.truthy_some in E. split; [discriminate|congruence].
Qed.

Lemma nonblank_length s : nonblank s = true <-> (0 < String.length s)%nat.
Proof.
  rewrite nonblank_iff. destruct s; simpl; split; try congruence; try lia.
Qed.

Lemma match_name_iff n :
  match_name n = true <->
  n <> ""%string /\ Forall (fun c => name_char c = true) (list_ascii_of_string n).
Proof.
  unfold match_name. destruct n as [|a n]; simpl.
  - split; [discriminate|]. intros [H _]. now contradiction H.
  - rewrite andb_true_iff, forallb_forall, Forall_forall. split.
    + intros [Ha H]. split; [discriminate|]. intros c [<-|Hc]; auto.
    + intros [_ H]. split; [apply H; now left|]. intros c Hc. apply H. now right.
Qed.

Lemma validate_name_iff name field_name n :
  validate_name name field_name = Returned n <->
  n = strip name /\ (2 <= String.length n <= 100)%nat /\
  Forall (fun c => name_char c = true) (list_ascii_of_string n).
Proof.
  unfold validate_name. split.
  - destruct (negb (nonblank name) || negb (nonblank (strip name)));
      [discriminate|].
    destruct (Nat.ltb_spec (String.length (strip name)) 2); [discriminate|].
    destruct (Nat.ltb_spec 100 (String.length (strip name))); [discriminate|].
    destruct (match_name (strip name)) eqn:M; [|discriminate].
    simpl. intros [= <-]. apply match_name_iff in M as [_ M].
    repeat split; trivial.
  - intros [-> [[Hlo Hhi] Hc]].
    assert (Hs : nonblank (strip name) = true) by (apply nonblank_length; lia).
    assert (Hn : nonblank name = true).
    { apply nonblank_length. pose proof (strip_length name). lia. }
    rewrite Hn, Hs. simpl.
    destruct (Nat.ltb_spec (String.length (strip name)) 2); [lia|].
    destruct (Nat.ltb_spec 100 (String.length (strip name))); [lia|].
    assert (M : match_name (strip name) = true).
    { apply match_name_iff. split; [now apply nonblank_iff|exact Hc]. }
    now rewrite M.
Qed.


(** X2: a validated name passes the validator again, unchanged, under any
    field name. *)
Theorem validate_name_idempotent name field_name field_name' n :
  validate_name name field_name = Returned n ->
  validate_name n field_name' = Returned n.
Proof.
  intros H. apply validate_name_iff in H as [-> [Hl Hc]].
  apply validate_name_iff. rewrite strip_idem. auto.
Qed.

Lemma validate_name_idempotent_witness :
  exists n,
    validate_name "  Mary-Jane O'Neil " "Name" = Returned n /\
    validate_name n "Patient name" = Returned n.
Proof.
  exists "Mary-Jane O'Neil"%string.
  assert (H : validate_name "  Mary-Jane O'Neil " "Name"
              = Returned "Mary-Jane O'Neil"%string) by reflexivity.
  split; [exact H|].
  exact (validate_name_idempotent _ _ "Patient name" _ H).
Defined.
(** *** [validate_phone] *)

Lemma up_to_dollar_fixed l : ~ In (ascii_of_nat 10) l -> up_to_dollar l = l.
Proof.
  unfold up_to_dollar. intros H. destruct (rev l) as [|c r] eqn:E; [reflexivity|].
  destruct (Ascii.eqb_spec c (ascii_of_nat 10)) as [->|_]; [|reflexivity].
  contradiction H. apply in_rev. rewrite E. now left.
Qed.

Lemma cleaned_no_newline phone : ~ In (ascii_of_nat 10) (cleaned phone).
Proof. unfold cleaned. intros H. apply filter_In in H as [_ H]. discriminate. Qed.

Lemma cleaned_strip phone : cleaned (strip phone) = cleaned phone.
Proof.
  unfold cleaned. apply strip_filter. intros c Hc.
  unfold phone_formatting. now rewrite Hc.
Qed.

Lemma match_phone_cleaned phone :
  match_phone (cleaned phone) = true <->
  (10 <= List.length (cleaned phone) <= 15)%nat /\
  Forall (fun c => is_digit c = true) (cleaned phone).
Proof.
  unfold match_phone. rewrite (up_to_dollar_fixed _ (cleaned_no_newline phone)).
  rewrite !andb_true_iff, !Nat.leb_le, forallb_forall, Forall_forall. tauto.
Qed.

Lemma validate_phone_iff phone p :
  validate_phone phone = Returned p <->
  p = strip phone /\ (10 <= List.length (cleaned phone) <= 15)%nat /\
  Forall (fun c => is_digit c = true) (cleaned phone).
Proof.
  unfold validate_phone. split.
  - destruct (nonblank phone); [|discriminate]. simpl.
    destruct (match_phone (cleaned phone)) eqn:M; [|discriminate].
    simpl. intros [= <-]. apply match_phone_cleaned in M. tauto.
  - intros [-> H].
    assert (Hn : nonblank phone = true).
    { apply nonblank_iff. intros ->. cbn in H. lia. }
    apply match_phone_cleaned in H. now rewrite Hn, H.
Qed.



(** *** [validate_time] *)

Local Open Scope Z_scope.

Lemma digit_of_range c d : digit_of c = Some d -> 0 <= d <= 9.
Proof.
  unfold digit_of.
  destruct (48 <=? Z.of_nat (nat_of_ascii c)) eqn:A;
    destruct (Z.of_nat (nat_of_ascii c) <=? 57) eqn:B; simpl; try discriminate.
  intros [= <-]. lia.
Qed.

Lemma parse_hour_range f h : parse_hour f = Some h -> 0 <= h < 24.
Proof.
  destruct f as [|a [|b [|? ?]]]; cbn [parse_hour]; try discriminate.
  - intros H. apply digit_of_range in H. lia.
  - destruct (digit_of a) as [x|] eqn:A; [|discriminate].
    destruct (digit_of b) as [y|] eqn:B; [|discriminate].
    apply digit_of_range in A, B.
    destruct (Z.eqb_spec x 2), (Z.leb_spec y 3), (Z.leb_spec x 1);
      cbn [andb orb]; try discriminate; intros E;
      assert (h = 10 * x + y) by congruence; lia.
Qed.

Lemma parse_minute_range f m : parse_minute f = Some m -> 0 <= m < 60.
Proof.
  destruct f as [|a [|b [|? ?]]]; cbn [parse_minute]; try discriminate.
  - intros H. apply digit_of_range in H. lia.
  - destruct (digit_of a) as [x|] eqn:A; [|discriminate].
    destruct (digit_of b) as [y|] eqn:B; [|discriminate].
    apply digit_of_range in A, B.
    destruct (Z.leb_spec x 5); [|discriminate].
    intros E. assert (m = 10 * x + y) by congruence. lia.
Qed.

Lemma strptime_time_range s h m :
  strptime_time s = Some (h, m) -> 0 <= h < 24 /\ 0 <= m < 60.
Proof.
  unfold strptime_time.
  destruct (split_on _ _) as [|fh [|fm [|? ?]]]; try discriminate.
  destruct (parse_hour fh) as [h'|] eqn:H; [|discriminate].
  destruct (parse_minute fm) as [m'|] eqn:M; [|discriminate].
  intros [= <- <-]. split; [eapply parse_hour_range|eapply parse_minute_range]; eauto.
Qed.


(** The readings of a 24-hour clock, checked one by one. *)
Lemma clock_readings :
  forallb (fun h =>
    forallb (fun m =>
      match strptime_time (clock h m) with
      | Some (h', m') => (h' =? h) && (m' =? m)
      | None => false
      end) (map Z.of_nat (seq 0 60))) (map Z.of_nat (seq 0 24)) = true.
Proof. vm_compute. reflexivity. Qed.

Lemma in_range_seq n k : 0 <= k < Z.of_nat n -> In k (map Z.of_nat (seq 0 n)).
Proof.
  intros H. apply in_map_iff. exists (Z.to_nat k). split; [lia|].
  apply in_seq. lia.
Qed.

Lemma strptime_time_clock h m :
  0 <= h < 24 -> 0 <= m < 60 -> strptime_time (clock h m) = Some (h, m).
Proof.
  intros Hh Hm. pose proof clock_readings as H.
  rewrite forallb_forall in H. specialize (H h (in_range_seq 24 h Hh)).
  rewrite forallb_forall in H. specialize (H m (in_range_seq 60 m Hm)).
  destruct (strptime_time (clock h m)) as [[h' m']|]; [|discriminate].
  apply andb_true_iff in H as [H1 H2].
  apply Z.eqb_eq in H1, H2. now subst.
Qed.

(** X5: of the readings [HH:MM] of a 24-hour clock, those from 08:00 to 17:59
    are returned and all others are refused with the business-hours
    message: the last start that passes is one minute before closing. *)
Theorem validate_time_business_hours h m :
  0 <= h < 24 -> 0 <= m < 60 ->
  validate_time (clock h m) =
  if (8 <=? h) && (h <? 18) then Returned (clock h m)
  else ValidationError "Appointments only available 8:00 AM - 6:00 PM".
Proof.
  intros Hh Hm. unfold validate_time. rewrite (strptime_time_clock h m Hh Hm).
  destruct (Z.ltb_spec h 8), (Z.leb_spec 18 h), (Z.leb_spec 8 h),
    (Z.ltb_spec h 18); simpl; try lia; reflexivity.
Qed.

Lemma validate_time_business_hours_witness :
  validate_time "17:59" = Returned "17:59"%string /\
  validate_time "18:00" =
    ValidationError "Appointments only available 8:00 AM - 6:00 PM".
Proof.
  split.
  - exact (validate_time_business_hours 17 59 ltac:(lia) ltac:(lia)).
  - exact (validate_time_business_hours 18 0 ltac:(lia) ltac:(lia)).
Defined.

Local Close Scope Z_scope.

(** *** [sanitize_text] *)

Lemma list_of_filter (f : ascii -> bool) l :
  list_ascii_of_string (string_of_list_ascii (filter f l)) = filter f l.
Proof. apply list_ascii_of_string_of_list_ascii. Qed.

Lemma filter_fixed {A : Type} (f : A -> bool) l :
  Forall (fun c => f c = true) l -> filter f l = l.
Proof.
  induction 1 as [|c l Hc _ IH]; simpl; [reflexivity|]. now rewrite Hc, IH.
Qed.

(** X6: what [sanitize_text] returns holds none of the control characters it
    removes and is no longer than [max_length]; the ends of the result
    need not be stripped, and a second pass does just that. *)
Theorem sanitize_text_returns text max_length r :
  sanitize_text text max_length = Returned r ->
  Forall (fun c => is_control c = false) (list_ascii_of_string r) /\
  (Z.of_nat (String.length r) <= Z.max 0 max_length)%Z /\
  sanitize_text r max_length = Returned (strip r).
Proof.
  unfold sanitize_text at 1.
  destruct (nonblank text) eqn:N; simpl.
  2:{ intros [= <-]. split; [constructor|]. split; [simpl; lia|reflexivity]. }
  destruct (Z.ltb_spec max_length (Z.of_nat (String.length (strip text))))
    as [|Hlen]; [discriminate|].
  intros [= <-].
  set (l := list_ascii_of_string (strip text)) in *.
  set (r := string_of_list_ascii (filter (fun c => negb (is_control c)) l)).
  assert (Hr : list_ascii_of_string r = filter (fun c => negb (is_control c)) l)
    by apply list_of_filter.
  assert (Hc : Forall (fun c => is_control c = false) (list_ascii_of_string r)).
  { rewrite Hr. apply Forall_forall. intros c Hc.
    apply filter_In in Hc as [_ Hc]. now apply negb_true_iff in Hc. }
  assert (Hl : (String.length r <= String.length (strip text))%nat).
  { rewrite !string_length_list, Hr. apply filter_length_le. }
  split; [exact Hc|]. split; [lia|].
  unfold sanitize_text. destruct (nonblank r) eqn:Nr; simpl.
  2:{ apply not_true_iff_false in Nr. rewrite nonblank_iff in Nr.
      destruct r; [reflexivity|]. contradiction Nr. discriminate. }
  pose proof (strip_length r) as Hs.
  destruct (Z.ltb_spec max_length (Z.of_nat (String.length (strip r))));
    [lia|].
  f_equal. rewrite filter_fixed; [apply string_of_list_ascii_of_string|].
  apply strip_Forall. revert Hc. apply Forall_impl. intros c ->. reflexivity.
Qed.

Lemma sanitize_text_returns_witness :
  exists r,
    sanitize_text (String (ascii_of_nat 0) " fever ") default_max_length
      = Returned r /\
    r = " fever"%string /\
    sanitize_text r default_max_length = Returned "fever"%string.
Proof.
  exists " fever"%string.
  assert (H : sanitize_text (String (ascii_of_nat 0) " fever ")
                default_max_length = Returned " fever"%string) by reflexivity.
  split; [exact H|]. split; [reflexivity|].
  exact (proj2 (proj2 (sanitize_text_returns _ _ _ H))).
Defined.
End InputValidatorTextFacts.

(** ** The rate limiter *)

Module RateLimiterFacts.
Import RateLimiter.
Local Open Scope Z_scope.

Lemma item_assign ip ip' l d :
  item ip' (assign ip l d) = if String.eqb ip ip' then l else item ip' d.
Proof.
  induction d as [|[k old] d IH]; simpl.
  - reflexivity.
  - destruct (String.eqb_spec k ip) as [->|Hk]; simpl.
    + destruct (String.eqb ip ip'); reflexivity.
    + destruct (String.eqb_spec k ip') as [->|Hk'].
      * destruct (String.eqb_spec ip ip') as [->|_]; [congruence|reflexivity].
      * exact IH.
Qed.

Lemma item_delete ip ip' d :
  item ip' (delete ip d) = if String.eqb ip ip' then [] else item ip' d.
Proof.
  unfold delete. induction d as [|[k old] d IH]; simpl.
  - now destruct (String.eqb ip ip').
  - destruct (String.eqb_spec k ip) as [->|Hk]; simpl.
    + rewrite IH. destruct (String.eqb_spec ip ip'); reflexivity.
    + destruct (String.eqb_spec k ip') as [->|Hk'].
      * destruct (String.eqb_spec ip ip') as [->|_]; [congruence|reflexivity].
      * exact IH.
Qed.

Lemma newer_than_twice b c l :
  b <= c -> newer_than c (newer_than b l) = newer_than c l.
Proof.
  intros H. unfold newer_than. induction l as [|t l IH]; simpl; [reflexivity|].
  destruct (Z.ltb_spec b t); simpl.
  - now rewrite IH.
  - destruct (Z.ltb_spec c t); [lia|exact IH].
Qed.

Lemma newer_than_app b l l' :
  newer_than b (l ++ l') = newer_than b l ++ newer_than b l'.
Proof. apply filter_app. Qed.

(** What a check leaves in the store: the list of the caller is filtered,
    and gets the time of the call when the call passes; the other lists
    stay. *)
Lemma check_rate_limit_item now ip self ip' :
  item ip' (requests (snd (check_rate_limit now ip self))) =
  if String.eqb ip ip'
  then newer_than (now - one_minute) (item ip (requests self)) ++
       match fst (check_rate_limit now ip self) with
       | Passed => [now]
       | HTTPException _ _ => []
       end
  else item ip' (requests self).
Proof.
  unfold check_rate_limit.
  destruct (requests_per_minute self <=? _); simpl;
    rewrite !item_assign; try rewrite String.eqb_refl;
    destruct (String.eqb ip ip'); try reflexivity.
  now rewrite app_nil_r.
Qed.

Lemma check_rate_limit_limit now ip self :
  requests_per_minute (snd (check_rate_limit now ip self)) =
  requests_per_minute self.
Proof. unfold check_rate_limit. now destruct (_ <=? _). Qed.

Lemma check_rate_limit_passed now ip self :
  fst (check_rate_limit now ip self) = Passed <->
  Z.of_nat (List.length (newer_than (now - one_minute) (item ip (requests self))))
  < requests_per_minute self.
Proof.
  unfold check_rate_limit. destruct (Z.leb_spec (requests_per_minute self)
    (Z.of_nat (List.length (newer_than (now - one_minute)
                              (item ip (requests self)))))); simpl.
  - split; [discriminate|lia].
  - split; [trivial|reflexivity].
Qed.

(** *** Isolation of the clients *)

(** X7: whether a client passes, and what is then recorded for it, depends on
    the limit and on the list of that client only; and a check made for
    one client leaves the list of every other client as it was. *)
Theorem check_rate_limit_per_client now ip self other :
  requests_per_minute self = requests_per_minute other ->
  item ip (requests self) = item ip (requests other) ->
  fst (check_rate_limit now ip self) = fst (check_rate_limit now ip other) /\
  item ip (requests (snd (check_rate_limit now ip self))) =
  item ip (requests (snd (check_rate_limit now ip other))) /\
  forall ip', ip' <> ip ->
    item ip' (requests (snd (check_rate_limit now ip self))) =
    item ip' (requests self).
Proof.
  intros Hl Hi.
  assert (Hf : fst (check_rate_limit now ip self)
               = fst (check_rate_limit now ip other)).
  { unfold check_rate_limit. rewrite Hl, Hi. now destruct (_ <=? _). }
  split; [exact Hf|]. split.
  - rewrite !check_rate_limit_item, String.eqb_refl, Hf, Hi. reflexivity.
  - intros ip' Hne. rewrite check_rate_limit_item.
    destruct (String.eqb_spec ip ip'); [congruence|reflexivity].
Qed.

Lemma check_rate_limit_per_client_witness :
  let busy := mkLimiter 1 [("10.0.0.1", [5]); ("10.0.0.2", [7])]%string in
  let quiet := mkLimiter 1 [("10.0.0.2", [7])]%string in
  fst (check_rate_limit 8 "10.0.0.2" busy)
  = fst (check_rate_limit 8 "10.0.0.2" quiet) /\
  item "10.0.0.1" (requests (snd (check_rate_limit 8 "10.0.0.2" busy))) = [5].
Proof.
  intros busy quiet.
  destruct (check_rate_limit_per_client 8 "10.0.0.2" busy quiet
              eq_refl eq_refl) as [H1 [_ H3]].
  split; [exact H1|]. apply (H3 "10.0.0.1"%string). discriminate.
Defined.

(** *** The bound *)

Lemma run_snoc limit trace req :
  run limit (trace ++ [req]) = serve (run limit trace) req.
Proof. unfold run. now rewrite fold_left_app. Qed.

Lemma serve_fst acc req :
  fst (serve acc req) =
  fst acc ++ match fst (check_rate_limit (fst req) (snd req) (snd acc)) with
             | Passed => [req]
             | HTTPException _ _ => []
             end.
Proof.
  unfold serve. destruct (check_rate_limit _ _ _) as [[|] s]; simpl;
    [reflexivity|now rewrite app_nil_r].
Qed.

Lemma serve_snd acc req :
  snd (serve acc req) = snd (check_rate_limit (fst req) (snd req) (snd acc)).
Proof. unfold serve. now destruct (check_rate_limit _ _ _) as [[|] s]. Qed.

Lemma run_limit limit trace : requests_per_minute (snd (run limit trace)) = limit.
Proof.
  induction trace as [|req trace IH] using rev_ind; [reflexivity|].
  now rewrite run_snoc, serve_snd, check_rate_limit_limit.
Qed.

Lemma times_of_app ip l l' : times_of ip (l ++ l') = times_of ip l ++ times_of ip l'.
Proof. unfold times_of. now rewrite filter_app, map_app. Qed.

Lemma clock_monotone_snoc trace req :
  clock_monotone (trace ++ [req]) ->
  clock_monotone trace /\ Forall (fun r => fst r <= fst req) trace.
Proof.
  unfold clock_monotone. induction trace as [|a trace IH]; simpl.
  - intros _. split; constructor.
  - intros H. inversion H as [|? ? Hs Hf]; subst.
    destruct (IH Hs) as [IH1 IH2]. split.
    + constructor; [exact IH1|].
      apply Forall_app in Hf. tauto.
    + constructor; [|exact IH2].
      apply Forall_app in Hf as [_ Hf]. now inversion Hf.
Qed.

(** While the clock does not run backwards, the list kept for a client
    and the full record of its served requests agree on everything that
    can still be inside a window. *)
Lemma run_store limit trace :
  clock_monotone trace ->
  forall ip b,
    Forall (fun r => fst r - one_minute <= b) trace ->
    newer_than b (item ip (requests (snd (run limit trace)))) =
    newer_than b (times_of ip (fst (run limit trace))).
Proof.
  induction trace as [|req trace IH] using rev_ind; [reflexivity|].
  intros Hm ip b Hb. apply clock_monotone_snoc in Hm as [Hm Hle].
  apply Forall_app in Hb as [Hb Hreq]. inversion Hreq as [|? ? Hreq' _]; subst.
  rewrite run_snoc, serve_snd, serve_fst, check_rate_limit_item.
  rewrite times_of_app, newer_than_app.
  destruct (String.eqb_spec (snd req) ip) as [<-|Hne].
  - rewrite newer_than_app, newer_than_twice by exact Hreq'.
    rewrite (IH Hm (snd req) b Hb). f_equal.
    destruct (fst (check_rate_limit _ _ _)); unfold times_of; simpl;
      [now rewrite String.eqb_refl|reflexivity].
  - rewrite (IH Hm ip b Hb).
    assert (E : times_of ip
                  match fst (check_rate_limit (fst req) (snd req)
                               (snd (run limit trace))) with
                  | Passed => [req]
                  | HTTPException _ _ => []
                  end = []).
    { destruct (fst (check_rate_limit _ _ _)); unfold times_of; simpl;
        [|reflexivity].
      destruct (String.eqb_spec (snd req) ip); [congruence|reflexivity]. }
    rewrite E. simpl. now rewrite app_nil_r.
Qed.

(** X8: while the clock does not run backwards, a request that is served is
    at most the [requests_per_minute]-th request served to its client
    within the minute that ends with it; requests that were refused do not
    count. *)
Theorem served_within_limit limit trace now ip :
  clock_monotone (trace ++ [(now, ip)]) ->
  fst (check_rate_limit now ip (snd (run limit trace))) = Passed ->
  fst (run limit (trace ++ [(now, ip)])) = fst (run limit trace) ++ [(now, ip)] /\
  Z.of_nat (List.length
              (newer_than (now - one_minute)
                 (times_of ip (fst (run limit (trace ++ [(now, ip)]))))))
  <= limit.
Proof.
  intros Hm Hp. apply clock_monotone_snoc in Hm as [Hm Hle].
  assert (Hs : fst (run limit (trace ++ [(now, ip)]))
               = fst (run limit trace) ++ [(now, ip)]).
  { rewrite run_snoc, serve_fst. simpl. now rewrite Hp. }
  split; [exact Hs|]. rewrite Hs, times_of_app, newer_than_app, length_app.
  apply check_rate_limit_passed in Hp. rewrite run_limit in Hp.
  rewrite (run_store limit trace Hm ip (now - one_minute)) in Hp.
  - assert (L : Z.of_nat (List.length (newer_than (now - one_minute)
                                          (times_of ip [(now, ip)]))) <= 1).
    { unfold times_of. simpl. rewrite String.eqb_refl. simpl.
      destruct (_ <? _); simpl; lia. }
    lia.
  - revert Hle. apply Forall_impl. simpl. intros r Hr. lia.
Qed.

Lemma served_within_limit_witness :
  let trace := [(0, "10.0.0.1"); (1000000, "10.0.0.1"); (2000000, "10.0.0.1");
                (59000000, "10.0.0.2")]%string in
  fst (run 2 (trace ++ [(60000000, "10.0.0.1"%string)]))
  = [(0, "10.0.0.1"); (1000000, "10.0.0.1"); (59000000, "10.0.0.2");
     (60000000, "10.0.0.1")]%string.
Proof.
  intros trace.
  assert (Hm : clock_monotone (trace ++ [(60000000, "10.0.0.1"%string)])).
  { unfold clock_monotone. repeat constructor; simpl; lia. }
  exact (proj1 (served_within_limit 2 trace 60000000 "10.0.0.1" Hm eq_refl)).
Defined.

(** *** The periodic cleanup *)

Lemma newer_than_idem b l : newer_than b (newer_than b l) = newer_than b l.
Proof. apply newer_than_twice. lia. Qed.

Lemma cleanup_entry_item b d k ip :
  item ip (cleanup_entry b d k) =
  if String.eqb k ip then newer_than b (item k d) else item ip d.
Proof.
  unfold cleanup_entry.
  destruct (item k (assign k (newer_than b (item k d)) d)) as [|t l] eqn:E.
  - rewrite item_delete, item_assign.
    rewrite item_assign, String.eqb_refl in E.
    destruct (String.eqb k ip); [now rewrite E|reflexivity].
  - now rewrite item_assign.
Qed.

Lemma cleanup_fold_item b keys d ip :
  item ip (fold_left (cleanup_entry b) keys d) =
  if existsb (fun k => String.eqb k ip) keys
  then newer_than b (item ip d) else item ip d.
Proof.
  revert d. induction keys as [|k keys IH]; intros d; simpl; [reflexivity|].
  rewrite IH, cleanup_entry_item.
  destruct (String.eqb_spec k ip) as [->|Hk]; simpl.
  - rewrite newer_than_idem. now destruct (existsb _ keys).
  - reflexivity.
Qed.

Lemma item_missing ip d :
  existsb (fun k => String.eqb k ip) (map fst d) = false -> item ip d = [].
Proof.
  induction d as [|[k l] d IH]; simpl; [reflexivity|].
  destruct (String.eqb k ip); simpl; [discriminate|exact IH].
Qed.

Lemma cleanup_item now self ip :
  item ip (requests (cleanup_old_entries now self)) =
  newer_than (now - one_minute) (item ip (requests self)).
Proof.
  unfold cleanup_old_entries. simpl. rewrite cleanup_fold_item.
  destruct (existsb _ _) eqn:E; [reflexivity|].
  now rewrite (item_missing _ _ E).
Qed.

(** X9: a round of the cleanup does not show in any later check: the
    answer and the list recorded for the caller are those of the limiter
    that was not cleaned. *)
Theorem cleanup_not_observable now later ip self :
  now <= later ->
  fst (check_rate_limit later ip (cleanup_old_entries now self)) =
  fst (check_rate_limit later ip self) /\
  item ip (requests (snd (check_rate_limit later ip
                            (cleanup_old_entries now self)))) =
  item ip (requests (snd (check_rate_limit later ip self))).
Proof.
  intros Hle.
  assert (Hr : newer_than (later - one_minute)
                 (item ip (requests (cleanup_old_entries now self)))
               = newer_than (later - one_minute) (item ip (requests self))).
  { rewrite cleanup_item. apply newer_than_twice. lia. }
  assert (Hf : fst (check_rate_limit later ip (cleanup_old_entries now self))
               = fst (check_rate_limit later ip self)).
  { unfold check_rate_limit. rewrite Hr. simpl.
    now destruct (requests_per_minute self <=? _). }
  split; [exact Hf|].
  now rewrite !check_rate_limit_item, String.eqb_refl, Hr, Hf.
Qed.

Lemma cleanup_not_observable_witness :
  let self := mkLimiter 2 [("10.0.0.1", [0; 30000000]); ("10.0.0.2", [1])]%string in
  requests (cleanup_old_entries 70000000 self) = [("10.0.0.1"%string, [30000000])] /\
  fst (check_rate_limit 80000000 "10.0.0.2" (cleanup_old_entries 70000000 self))
  = fst (check_rate_limit 80000000 "10.0.0.2" self).
Proof.
  intros self. split; [reflexivity|].
  exact (proj1 (cleanup_not_observable 70000000 80000000 "10.0.0.2" self
                  ltac:(lia))).
Defined.
End RateLimiterFacts.

(** ** The file-name sanitizer *)

Module SecurityValidatorFacts.
Import SecurityValidator.

Lemma rsplit_dot_some l name ext :
  rsplit_dot l = Some (name, ext) ->
  l = name ++ "."%char :: ext /\ ~ In "."%char ext.
Proof.
  revert name. induction l as [|c l IH]; intros name; simpl; [discriminate|].
  destruct (rsplit_dot l) as [[n e]|] eqn:E.
  - intros [= <- <-]. destruct (IH n eq_refl) as [-> Hd]. now split.
  - destruct (Ascii.eqb_spec c "."%char) as [->|_]; [|discriminate].
    intros [= <- <-]. split; [reflexivity|].
    clear IH. induction l as [|a l IHl]; simpl in *; [tauto|].
    destruct (rsplit_dot l) as [[n e]|]; [discriminate|].
    destruct (Ascii.eqb_spec a "."%char) as [->|Ha]; [discriminate|].
    intros [H|H]; [congruence|]. now apply IHl.
Qed.

Lemma rsplit_dot_none l : ~ In "."%char l -> rsplit_dot l = None.
Proof.
  induction l as [|c l IH]; simpl; [reflexivity|]. intros H.
  rewrite IH by tauto.
  destruct (Ascii.eqb_spec c "."%char) as [->|_]; [|reflexivity].
  contradiction H. now left.
Qed.

Lemma rsplit_dot_app name ext :
  ~ In "."%char ext -> rsplit_dot (name ++ "."%char :: ext) = Some (name, ext).
Proof.
  intros H. induction name as [|c name IH]; simpl.
  - now rewrite (rsplit_dot_none ext H).
  - now rewrite IH.
Qed.

Lemma firstn_incl {A : Type} n (l : list A) c : In c (firstn n l) -> In c l.
Proof.
  intros H. rewrite <- (firstn_skipn n l). apply in_or_app. now left.
Qed.

(** The two shapes of a name cut by the limit. *)
Lemma limit_length_cases l :
  limit_length l = l /\ (List.length l <= max_filename_length)%nat \/
  (max_filename_length < List.length l)%nat /\
  ((exists name, limit_length l = firstn 250 name /\
                 forall c, In c name -> In c l) \/
   (exists name ext, limit_length l = firstn 250 name ++ "."%char :: ext /\
                     l = name ++ "."%char :: ext /\ ext <> [] /\
                     ~ In "."%char ext)).
Proof.
  unfold limit_length.
  destruct (Nat.ltb_spec max_filename_length (List.length l)) as [Hlong|Hshort];
    [right; split; [exact Hlong|]|left; split; [reflexivity|exact Hshort]].
  destruct (rsplit_dot l) as [[name ext]|] eqn:E.
  - apply rsplit_dot_some in E as [-> Hd]. destruct ext as [|a ext].
    + left. exists name. split; [now rewrite app_nil_r|].
      intros c Hc. apply in_or_app. now left.
    + right. exists name, (a :: ext). repeat split; trivial. discriminate.
  - left. exists l. split; [now rewrite app_nil_r|trivial].
Qed.

Lemma limit_length_Forall (P : ascii -> Prop) l :
  P "."%char -> Forall P l -> Forall P (limit_length l).
Proof.
  intros Hdot Hl.
  destruct (limit_length_cases l)
    as [[-> _]|[_ [[name [-> Hn]]|[name [ext [-> [E _]]]]]]].
  - exact Hl.
  - apply Forall_forall. intros c Hc. rewrite Forall_forall in Hl.
    apply Hl, Hn. eapply firstn_incl; eauto.
  - rewrite E in Hl. apply Forall_app in Hl as [Hname Hext].
    apply Forall_app. split; [|exact Hext].
    apply Forall_forall. intros c Hc. rewrite Forall_forall in Hname.
    apply Hname. eapply firstn_incl; eauto.
Qed.

Lemma limit_length_idem l : limit_length (limit_length l) = limit_length l.
Proof.
  destruct (limit_length_cases l)
    as [[E _]|[_ [[name [-> _]]|[name [ext [-> [_ [Hext Hd]]]]]]]].
  - now rewrite !E.
  - unfold limit_length at 1.
    destruct (Nat.ltb_spec max_filename_length (List.length (firstn 250 name)));
      [|reflexivity].
    pose proof (firstn_le_length 250 name). unfold max_filename_length in *. lia.
  - unfold limit_length at 1.
    destruct (Nat.ltb_spec max_filename_length
                (List.length (firstn 250 name ++ "."%char :: ext)));
      [|reflexivity].
    rewrite (rsplit_dot_app _ _ Hd), firstn_firstn.
    destruct ext; [congruence|reflexivity].
Qed.

Lemma cleaned_chars filename :
  Forall (fun c => filename_char c = true)
    (map (fun c => if filename_char c then c else "_"%char)
       (filter (fun c => negb (is_separator c)) (list_ascii_of_string filename))).
Proof.
  apply Forall_forall. intros c Hc. apply in_map_iff in Hc as [a [<- _]].
  destruct (filename_char a) eqn:E; [exact E|reflexivity].
Qed.

Lemma sanitize_filename_list filename :
  list_ascii_of_string (sanitize_filename filename) =
  limit_length
    (map (fun c => if filename_char c then c else "_"%char)
       (filter (fun c => negb (is_separator c)) (list_ascii_of_string filename))).
Proof. unfold sanitize_filename. apply list_ascii_of_string_of_list_ascii. Qed.

Lemma filename_char_not_separator c :
  filename_char c = true -> is_separator c = false.
Proof.
  unfold filename_char, is_separator.
  destruct (Ascii.eqb_spec c "/"%char) as [->|_]; [discriminate|].
  destruct (Ascii.eqb_spec c (ascii_of_nat 92)) as [->|_]; [discriminate|].
  reflexivity.
Qed.

(** A name made of letters, digits, dots, underscores and hyphens passes
    the two substitutions as it is. *)
Lemma clean_fixed l :
  Forall (fun c => filename_char c = true) l ->
  map (fun c => if filename_char c then c else "_"%char)
    (filter (fun c => negb (is_separator c)) l) = l.
Proof.
  induction 1 as [|c l Hc _ IH]; simpl; [reflexivity|].
  rewrite (filename_char_not_separator c Hc). simpl. now rewrite Hc, IH.
Qed.

(** X10: the result holds letters, digits, dots, underscores and hyphens only:
    no path separator, no space, no control character. *)
Theorem sanitize_filename_alphabet filename :
  Forall (fun c => filename_char c = true /\ is_separator c = false)
    (list_ascii_of_string (sanitize_filename filename)).
Proof.
  rewrite sanitize_filename_list.
  apply limit_length_Forall; [split; reflexivity|].
  pose proof (cleaned_chars filename) as H. revert H. apply Forall_impl.
  intros c Hc. split; [exact Hc|now apply filename_char_not_separator].
Qed.

(** X11: sanitizing twice is sanitizing once. *)
Theorem sanitize_filename_idempotent filename :
  sanitize_filename (sanitize_filename filename) = sanitize_filename filename.
Proof.
  unfold sanitize_filename at 1. rewrite clean_fixed.
  - rewrite sanitize_filename_list, limit_length_idem. reflexivity.
  - rewrite sanitize_filename_list.
    apply limit_length_Forall; [reflexivity|apply cleaned_chars].
Qed.

(** X12: the limit of 255 characters holds for the names whose extension has
    at most four characters; the cut is made in the stem only, so a longer
    result is a stem of at most 250 characters followed by an extension of
    five or more. *)
Theorem sanitize_filename_length filename :
  (String.length (sanitize_filename filename) <= 255)%nat \/
  exists stem ext,
    list_ascii_of_string (sanitize_filename filename) = stem ++ "."%char :: ext /\
    (List.length stem <= 250)%nat /\ (4 < List.length ext)%nat /\
    ~ In "."%char ext.
Proof.
  rewrite InputValidatorTextFacts.string_length_list, sanitize_filename_list.
  set (l := map _ _).
  destruct (limit_length_cases l)
    as [[-> H]|[_ [[name [-> _]]|[name [ext [-> [_ [_ Hd]]]]]]]].
  - left. exact H.
  - left. pose proof (firstn_le_length 250 name). lia.
  - pose proof (firstn_le_length 250 name) as Hn.
    destruct (Nat.le_gt_cases (List.length ext) 4) as [Hshort|Hlong].
    + left. rewrite length_app. cbn [List.length]. lia.
    + right. exists (firstn 250 name), ext. repeat split; trivial.
Qed.

(** X13: a clean name with a stem of at most 250 characters and an extension
    without a dot is returned whole, whatever its length. *)
Theorem sanitize_filename_keeps_extension stem ext :
  Forall (fun c => filename_char c = true) stem ->
  Forall (fun c => filename_char c = true) ext ->
  ~ In "."%char ext -> ext <> [] -> (List.length stem <= 250)%nat ->
  sanitize_filename (string_of_list_ascii (stem ++ "."%char :: ext)) =
  string_of_list_ascii (stem ++ "."%char :: ext).
Proof.
  intros Hs He Hd Hne Hl. unfold sanitize_filename.
  rewrite list_ascii_of_string_of_list_ascii, clean_fixed.
  2:{ apply Forall_app. split; [exact Hs|]. constructor; [reflexivity|exact He]. }
  f_equal. unfold limit_length.
  destruct (_ <? _)%nat; [|reflexivity].
  rewrite (rsplit_dot_app _ _ Hd), firstn_all2 by exact Hl.
  destruct ext; [congruence|reflexivity].
Qed.

Lemma sanitize_filename_keeps_extension_witness :
  let name := (list_ascii_of_string "scan" ++ "."%char :: repeat "x"%char 300) in
  sanitize_filename (string_of_list_ascii name) = string_of_list_ascii name /\
  String.length (sanitize_filename (string_of_list_ascii name)) = 305%nat.
Proof.
  intros name.
  assert (H : sanitize_filename (string_of_list_ascii name)
              = string_of_list_ascii name).
  { apply (sanitize_filename_keeps_extension (list_ascii_of_string "scan")
             (repeat "x"%char 300)).
    - repeat constructor.
    - apply Forall_forall. intros c Hc. apply repeat_spec in Hc. now subst.
    - intros Hc. apply repeat_spec in Hc. discriminate.
    - discriminate.
    - simpl. lia. }
  split; [exact H|]. rewrite H. vm_compute. reflexivity.
Defined.
End SecurityValidatorFacts.

(** ** The retry wrapper of the API service *)

Module ApiServiceFacts.
Import ApiService.

Section Retry.
Variables V E : Type.
Variable fn : nat -> Settled V E.
Variable maxRetries : nat.
Variable delay : Z.

Local Notation "'loop'" := (retry_loop V E fn maxRetries delay).

Lemma backoff_cons from n :
  backoff delay from (S n) =
  (delay * Z.of_nat (from + 1))%Z :: backoff delay (S from) n.
Proof. reflexivity. Qed.

(** The loop from round [i], when the first call that succeeds is call
    [i + d]. *)
Lemma retry_loop_success d : forall i fuel eff value,
  calls eff = i -> (i + d < maxRetries)%nat -> (d < fuel)%nat ->
  (forall j, (i <= j < i + d)%nat -> exists error, fn j = Failed error) ->
  fn (i + d) = Fulfilled value ->
  loop fuel i eff =
  Some (Resolved (Some value),
        mkEffects (S (i + d)) (timeouts eff ++ backoff delay i d)).
Proof.
  induction d as [|d IH]; intros i fuel eff value Hc Hlt Hfuel Hfail Hok;
    (destruct fuel as [|fuel]; [lia|]); cbn [retry_loop];
    (destruct (Nat.ltb_spec i maxRetries); [|lia]).
  - rewrite Nat.add_0_r in Hok. rewrite Hc, Hok.
    now rewrite Nat.add_0_r, app_nil_r.
  - destruct (Hfail i ltac:(lia)) as [error He]. rewrite Hc, He.
    destruct (Nat.eqb_spec i (maxRetries - 1)); [lia|].
    rewrite (IH (S i) fuel _ value); cbn [calls timeouts]; try lia.
    + rewrite backoff_cons, <- app_assoc. do 3 f_equal. lia.
    + intros j Hj. apply Hfail. lia.
    + now replace (S i + d)%nat with (i + S d)%nat by lia.
Qed.

(** The loop from round [i], when every call fails. *)
Lemma retry_loop_failure d : forall i fuel eff error,
  calls eff = i -> (i + d + 1 = maxRetries)%nat -> (d < fuel)%nat ->
  (forall j, (i <= j < maxRetries)%nat -> exists e, fn j = Failed e) ->
  fn (maxRetries - 1) = Failed error ->
  loop fuel i eff =
  Some (Threw error,
        mkEffects maxRetries (timeouts eff ++ backoff delay i d)).
Proof.
  induction d as [|d IH]; intros i fuel eff error Hc Hlt Hfuel Hfail Hlast;
    (destruct fuel as [|fuel]; [lia|]); cbn [retry_loop];
    (destruct (Nat.ltb_spec i maxRetries); [|lia]).
  - replace (maxRetries - 1)%nat with i in Hlast by lia. rewrite Hc, Hlast.
    destruct (Nat.eqb_spec i (maxRetries - 1)); [|lia].
    rewrite app_nil_r. do 3 f_equal. lia.
  - destruct (Hfail i ltac:(lia)) as [e He]. rewrite Hc, He.
    destruct (Nat.eqb_spec i (maxRetries - 1)); [lia|].
    rewrite (IH (S i) fuel _ error); cbn [calls timeouts]; try lia; trivial.
    + now rewrite backoff_cons, <- app_assoc.
    + intros j Hj. apply Hfail. lia.
Qed.

(** The loop ends, whatever the calls come to. *)
Lemma retry_loop_returns d : forall i fuel eff,
  (i + d = maxRetries)%nat -> (d < fuel)%nat ->
  exists completion eff',
    loop fuel i eff = Some (completion, eff') /\
    (calls eff' <= calls eff + d)%nat /\
    (List.length (timeouts eff') <= List.length (timeouts eff) + (d - 1))%nat /\
    (completion = Resolved None -> d = 0%nat /\ eff' = eff).
Proof.
  induction d as [|d IH]; intros i fuel eff Hd Hfuel;
    (destruct fuel as [|fuel]; [lia|]); cbn [retry_loop].
  - destruct (Nat.ltb_spec i maxRetries); [lia|].
    exists (Resolved None), eff. repeat split; lia.
  - destruct (Nat.ltb_spec i maxRetries); [|lia].
    destruct (fn (calls eff)) as [value|error].
    + eexists _, _. split; [reflexivity|]. cbn [calls timeouts].
      split; [lia|]. split; [lia|]. discriminate.
    + destruct (Nat.eqb_spec i (maxRetries - 1)).
      * eexists _, _. split; [reflexivity|]. cbn [calls timeouts].
        split; [lia|]. split; [lia|]. discriminate.
      * destruct (IH (S i) fuel
                    (mkEffects (S (calls eff))
                       (timeouts eff ++ [(delay * Z.of_nat (i + 1))%Z])))
          as [c [eff' [Hrun [Hcalls [Htime Hnone]]]]]; try lia.
        exists c, eff'. split; [exact Hrun|].
        cbn [calls timeouts] in *. rewrite length_app in Htime. simpl in Htime.
        split; [lia|]. split; [lia|]. intros Hc. destruct (Hnone Hc). lia.
Qed.
End Retry.

Lemma total_backoff delay n :
  (2 * total (backoff delay 0 n) = delay * Z.of_nat n * (Z.of_nat n + 1))%Z.
Proof.
  assert (A : forall l z, fold_right Z.add z l = (fold_right Z.add 0 l + z)%Z).
  { induction l as [|a l IHl]; intros z; cbn [fold_right]; [lia|].
    rewrite IHl. lia. }
  unfold backoff, total. induction n as [|n IH].
  - cbn [seq map fold_right]. lia.
  - rewrite seq_S, map_app, fold_right_app. cbn [map fold_right].
    rewrite A. lia.
Qed.


(** X15: the first call that succeeds ends the loop: its value is the result,
    no call follows it, and before the attempts after the first the loop
    has slept [delay], twice [delay], and so on. *)
Theorem retryRequest_first_success (V E : Type) (fn : nat -> Settled V E)
  maxRetries delay k value :
  (k < maxRetries)%nat ->
  (forall j, (j < k)%nat -> exists error, fn j = Failed error) ->
  fn k = Fulfilled value ->
  retryRequest V E fn maxRetries delay =
  Some (Resolved (Some value), mkEffects (S k) (backoff delay 0 k)).
Proof.
  intros Hk Hfail Hok. unfold retryRequest.
  rewrite (retry_loop_success V E fn maxRetries delay k 0 (S maxRetries)
             (mkEffects 0 []) value); trivial; try lia.
  intros j Hj. apply Hfail. lia.
Qed.

Lemma retryRequest_first_success_witness :
  retryRequest nat string
    (fun k => if (k <? 2)%nat then Failed "timeout"%string else Fulfilled k)
    default_maxRetries default_delay =
  Some (Resolved (Some 2%nat), mkEffects 3 [1000; 2000]%Z).
Proof.
  apply (retryRequest_first_success nat string _ 3 1000 2 2%nat).
  - lia.
  - intros j Hj. exists "timeout"%string.
    destruct j as [|[|j]]; [reflexivity|reflexivity|lia].
  - reflexivity.
Defined.

(** X16: when every call fails, [fn] is called [maxRetries] times and the error
    thrown is that of the last call; the loop does not sleep after it, and
    has slept [delay * maxRetries * (maxRetries - 1) / 2] in all. *)
Theorem retryRequest_exhausted (V E : Type) (fn : nat -> Settled V E)
  maxRetries delay error :
  (forall j, (j < maxRetries)%nat -> exists e, fn j = Failed e) ->
  (0 < maxRetries)%nat ->
  fn (maxRetries - 1)%nat = Failed error ->
  retryRequest V E fn maxRetries delay =
  Some (Threw error,
        mkEffects maxRetries (backoff delay 0 (maxRetries - 1))) /\
  (2 * total (backoff delay 0 (maxRetries - 1)) =
   delay * Z.of_nat maxRetries * (Z.of_nat maxRetries - 1))%Z.
Proof.
  intros Hfail Hpos Hlast. split.
  - unfold retryRequest.
    rewrite (retry_loop_failure V E fn maxRetries delay (maxRetries - 1) 0
               (S maxRetries) (mkEffects 0 []) error); trivial; try lia.
    intros j Hj. apply Hfail. lia.
  - rewrite total_backoff, Nat2Z.inj_sub by lia. change (Z.of_nat 1) with 1%Z.
    ring.
Qed.

Lemma retryRequest_exhausted_witness :
  retryRequest nat nat (fun k => Failed (500 + k)%nat)
    default_maxRetries default_delay =
  Some (Threw 502%nat, mkEffects 3 [1000; 2000]%Z) /\
  total [1000; 2000]%Z = 3000%Z.
Proof.
  split; [|reflexivity].
  apply (retryRequest_exhausted nat nat (fun k => Failed (500 + k)%nat) 3 1000
           502%nat).
  - intros j _. now exists (500 + j)%nat.
  - unfold default_maxRetries. lia.
  - reflexivity.
Defined.
End ApiServiceFacts.

(** ** The client *)

Module ClientFacts.
Import Client.

(** *** The storage keys *)

Lemma getItem_setItem key value s k :
  getItem k (setItem key value s) =
  if String.eqb k key then Some value else getItem k s.
Proof. reflexivity. Qed.

Lemma getItem_removeItem key s k :
  getItem k (removeItem key s) = if String.eqb k key then None else getItem k s.
Proof. reflexivity. Qed.

Lemma eqb_false a b : a <> b -> String.eqb a b = false.
Proof. intros H. now destruct (String.eqb_spec a b). Qed.

(** A key that is none of those an instance of the hook writes to. *)
Lemma perform_other (Messages : Type) (JSON_stringify : Messages -> string)
  userEmail e s k :
  k <> MESSAGES (STORAGE_KEYS userEmail) ->
  k <> SESSION_ID (STORAGE_KEYS userEmail) ->
  ~ In k OLD_KEYS ->
  getItem k (perform Messages JSON_stringify userEmail e s) = getItem k s.
Proof.
  intros Hm Hs Ho. destruct e as [|messages|[id|]|]; cbn [perform].
  - unfold migrate, OLD_KEYS. cbn [fold_left].
    assert (H1 : k <> "smart_doctor_messages"%string)
      by (intros ->; apply Ho; now left).
    assert (H2 : k <> "smart_doctor_session_id"%string)
      by (intros ->; apply Ho; right; now left).
    repeat match goal with
           | |- context [if truthy ?x then _ else _] => destruct (truthy x)
           end;
      rewrite ?getItem_removeItem, ?(eqb_false _ _ H1), ?(eqb_false _ _ H2);
      reflexivity.
  - unfold persist_messages. now rewrite getItem_setItem, (eqb_false _ _ Hm).
  - unfold persist_session. destruct (truthy (Some id)); [|reflexivity].
    now rewrite getItem_setItem, (eqb_false _ _ Hs).
  - reflexivity.
  - unfold clearMessages.
    now rewrite !getItem_removeItem, (eqb_false _ _ Hm), (eqb_false _ _ Hs).
Qed.

Lemma perform_all_other (Messages : Type) (JSON_stringify : Messages -> string)
  userEmail effects s k :
  k <> MESSAGES (STORAGE_KEYS userEmail) ->
  k <> SESSION_ID (STORAGE_KEYS userEmail) ->
  ~ In k OLD_KEYS ->
  getItem k (perform_all Messages JSON_stringify userEmail effects s) =
  getItem k s.
Proof.
  intros Hm Hs Ho. unfold perform_all. revert s.
  induction effects as [|e effects IH]; intros s; cbn [fold_left]; [reflexivity|].
  rewrite IH. now apply perform_other.
Qed.

Lemma messages_key_inj a b :
  MESSAGES (STORAGE_KEYS a) = MESSAGES (STORAGE_KEYS b) -> a = b.
Proof. cbn. congruence. Qed.

Lemma session_key_inj a b :
  SESSION_ID (STORAGE_KEYS a) = SESSION_ID (STORAGE_KEYS b) -> a = b.
Proof. cbn. congruence. Qed.

Lemma keys_apart a b :
  MESSAGES (STORAGE_KEYS a) <> SESSION_ID (STORAGE_KEYS b).
Proof. cbn. congruence. Qed.

Lemma scoped_keys_not_old a :
  ~ In (MESSAGES (STORAGE_KEYS a)) OLD_KEYS /\
  ~ In (SESSION_ID (STORAGE_KEYS a)) OLD_KEYS.
Proof.
  split; cbn; intros [H|[H|[]]]; congruence.
Qed.

(** X17: whatever an instance of the hook for one user does to the storage,
    the stored messages and session of every other user, and the stored
    user identifier, are as before; so is what an instance for the other
    user loads. *)
Theorem storage_isolated (Messages : Type) (no_messages : Messages)
  (JSON_stringify : Messages -> string) (JSON_parse : string -> option Messages)
  userEmail other effects initialSessionId s :
  userEmail <> other ->
  let s' := perform_all Messages JSON_stringify userEmail effects s in
  getItem (MESSAGES (STORAGE_KEYS other)) s'
  = getItem (MESSAGES (STORAGE_KEYS other)) s /\
  getItem (SESSION_ID (STORAGE_KEYS other)) s'
  = getItem (SESSION_ID (STORAGE_KEYS other)) s /\
  getItem USER_EMAIL_KEY s' = getItem USER_EMAIL_KEY s /\
  load_messages Messages no_messages JSON_parse other s'
  = load_messages Messages no_messages JSON_parse other s /\
  load_session other initialSessionId s' = load_session other initialSessionId s.
Proof.
  intros Hne s'.
  assert (Hm : getItem (MESSAGES (STORAGE_KEYS other)) s'
               = getItem (MESSAGES (STORAGE_KEYS other)) s).
  { apply perform_all_other.
    - intros H. apply messages_key_inj in H. congruence.
    - apply keys_apart.
    - apply scoped_keys_not_old. }
  assert (Hs : getItem (SESSION_ID (STORAGE_KEYS other)) s'
               = getItem (SESSION_ID (STORAGE_KEYS other)) s).
  { apply perform_all_other.
    - intros H. symmetry in H. now apply keys_apart in H.
    - intros H. apply session_key_inj in H. congruence.
    - apply scoped_keys_not_old. }
  repeat split; trivial.
  - apply perform_all_other; unfold USER_EMAIL_KEY, OLD_KEYS.
    + cbn. congruence.
    + cbn. congruence.
    + intros [H|[H|[]]]; discriminate.
  - unfold load_messages. now rewrite Hm.
  - unfold load_session. now rewrite Hs.
Qed.

Lemma storage_isolated_witness :
  let s := setItem (MESSAGES (STORAGE_KEYS "bob@example.com")) "[1]"
             (fun _ => None) in
  let s' := perform_all nat Orchestrator.nat_to_string "alice@example.com"
              [Migrate nat; PersistMessages nat 7; ClearMessages nat] s in
  getItem (MESSAGES (STORAGE_KEYS "bob@example.com")) s' = Some "[1]"%string.
Proof.
  intros s s'.
  destruct (storage_isolated nat 0 Orchestrator.nat_to_string (fun _ => None)
              "alice@example.com" "bob@example.com"
              [Migrate nat; PersistMessages nat 7; ClearMessages nat] None s)
    as [H _]; [discriminate|].
  exact H.
Defined.

(** *** Reloading the page *)

Lemma truthy_nonempty v : v <> ""%string -> truthy (Some v) = true.
Proof.
  intros H. unfold truthy. destruct (Orchestrator.truthy (Some v)) eqn:E;
    [reflexivity|].
  now apply OrchestratorFacts.truthy_some in E.
Qed.

(** X18: what a fresh instance of the hook loads is what the last one
    persisted: the messages, when [JSON.parse] reads back what
    [JSON.stringify] wrote, and the session id, which has precedence over
    [initialSessionId]; after [clearMessages] it loads no messages and
    [initialSessionId]. *)
Theorem chat_survives_reload (Messages : Type) (no_messages : Messages)
  (JSON_stringify : Messages -> string) (JSON_parse : string -> option Messages)
  userEmail messages sessionId initialSessionId s :
  JSON_parse (JSON_stringify messages) = Some messages ->
  JSON_stringify messages <> ""%string ->
  sessionId <> ""%string ->
  (let s' := persist_session userEmail (Some sessionId)
               (persist_messages Messages JSON_stringify userEmail messages s) in
   load_messages Messages no_messages JSON_parse userEmail s' = messages /\
   load_session userEmail initialSessionId s' = Some sessionId) /\
  (let s' := clearMessages userEmail s in
   load_messages Messages no_messages JSON_parse userEmail s' = no_messages /\
   load_session userEmail initialSessionId s' = initialSessionId).
Proof.
  intros Hjson Htext Hid. split; intros s'; subst s'.
  - unfold load_messages, load_session, persist_session, persist_messages.
    rewrite (truthy_nonempty sessionId Hid). split.
    + rewrite getItem_setItem, (eqb_false _ _ (keys_apart userEmail userEmail)).
      rewrite getItem_setItem, String.eqb_refl.
      now rewrite (truthy_nonempty _ Htext), Hjson.
    + rewrite getItem_setItem, String.eqb_refl.
      now rewrite (truthy_nonempty sessionId Hid).
  - unfold load_messages, load_session, clearMessages. split.
    + rewrite getItem_removeItem, (eqb_false _ _ (keys_apart userEmail userEmail)).
      now rewrite getItem_removeItem, String.eqb_refl.
    + now rewrite getItem_removeItem, String.eqb_refl.
Qed.

Lemma chat_survives_reload_witness :
  let parse := fun text => if String.eqb text "[]" then Some 0%nat
                           else if String.eqb text "[1]" then Some 1%nat
                           else None in
  let stringify := fun n : nat => match n with O => "[]" | _ => "[1]" end%string in
  let s' := persist_session "alice@example.com" (Some "abc123"%string)
              (persist_messages nat stringify "alice@example.com" 1%nat
                 (fun _ => None)) in
  load_messages nat 0%nat parse "alice@example.com" s' = 1%nat /\
  load_session "alice@example.com" (Some "other"%string) s' = Some "abc123"%string.
Proof.
  intros parse stringify.
  exact (proj1 (chat_survives_reload nat 0%nat stringify parse
                  "alice@example.com" 1%nat "abc123" (Some "other"%string)
                  (fun _ => None) eq_refl ltac:(discriminate)
                  ltac:(discriminate))).
Defined.

(** *** The user identifier *)

Lemma uniqueEmail_nonempty now random : uniqueEmail now random <> ""%string.
Proof. unfold uniqueEmail. cbn. discriminate. Qed.

Lemma uniqueEmail_not_blank now random :
  ~ Orchestrator.absent_or_blank (Some (uniqueEmail now random)).
Proof.
  unfold uniqueEmail. cbn. intros H. inversion H as [|c l Hc _]. discriminate.
Qed.

(** X19: the identifier picked on the first visit is stored and is the one
    every later visit gets, whatever the clock and the random digits are
    by then; it is not empty. *)
Theorem userEmail_stable now random s now' random' :
  let (userEmail, s') := initial_userEmail now random s in
  userEmail <> ""%string /\
  getItem USER_EMAIL_KEY s' = Some userEmail /\
  initial_userEmail now' random' s' = (userEmail, s').
Proof.
  unfold initial_userEmail.
  destruct (getItem USER_EMAIL_KEY s) as [email|] eqn:G.
  - destruct (truthy (Some email)) eqn:T.
    + rewrite G, T. repeat split; trivial.
      intros ->. discriminate.
    + pose proof (uniqueEmail_nonempty now random) as Hn.
      rewrite getItem_setItem, String.eqb_refl, (truthy_nonempty _ Hn).
      repeat split; trivial.
  - pose proof (uniqueEmail_nonempty now random) as Hn.
    rewrite getItem_setItem, String.eqb_refl, (truthy_nonempty _ Hn).
    repeat split; trivial.
Qed.

(** X20: a request sent under a generated identifier is not refused for want
    of a user: the guard of the hook lets it through, and so does the
    guard of the chat endpoint. *)
Theorem generated_identifier_accepted call_llm call_tool format_other
  system_prompt strict clock max_iterations fresh_session history w
  now random session text :
  truthy (Some (uniqueEmail now random)) = true /\
  Orchestrator.no_user_email (Some (uniqueEmail now random)) = false /\
  fst (Orchestrator.chat call_llm call_tool format_other system_prompt strict
         clock max_iterations fresh_session history
         (Orchestrator.mkChat session text "patient"
            (Some (uniqueEmail now random))) w)
  <> Orchestrator.HTTPException 400 Orchestrator.missing_user_email.
Proof.
  assert (Hg : Orchestrator.no_user_email (Some (uniqueEmail now random)) = false).
  { apply not_true_iff_false. rewrite OrchestratorFacts.no_user_email_iff.
    apply uniqueEmail_not_blank. }
  split; [apply truthy_nonempty, uniqueEmail_nonempty|]. split; [exact Hg|].
  unfold Orchestrator.chat. cbn [Orchestrator.user_email]. rewrite Hg.
  destruct (Orchestrator.process_message _ _ _ _ _ _ _ _ _ _ _ _)
    as [[env|e|] w']; cbn [fst]; discriminate.
Qed.
(** *** The doctor list of the dashboard *)

Lemma existsb_eqb v seen : existsb (String.eqb v) seen = true <-> In v seen.
Proof.
  rewrite existsb_exists. split.
  - intros [x [Hx E]]. apply String.eqb_eq in E. now subst.
  - intros H. exists v. split; [exact H|apply String.eqb_refl].
Qed.

Lemma set_values_In seen values x :
  In x (set_values seen values) <-> In x values /\ ~ In x seen.
Proof.
  revert seen. induction values as [|v rest IH]; intros seen; cbn [set_values].
  - simpl. tauto.
  - destruct (existsb (String.eqb v) seen) eqn:E.
    + apply existsb_eqb in E. rewrite IH. simpl. split.
      * tauto.
      * intros [[->|H] Hn]; [contradiction|tauto].
    + assert (Hv : ~ In v seen).
      { intros H. apply existsb_eqb in H. congruence. }
      simpl. rewrite IH. simpl. split.
      * intros [->|[H Hn]]; [tauto|]. split; [tauto|]. intros Hs. apply Hn. tauto.
      * intros [[->|H] Hn]; [tauto|].
        destruct (string_dec v x) as [->|Hne]; [tauto|]. right.
        split; [exact H|]. intros [Hs|Hs]; congruence.
Qed.

Lemma set_values_NoDup seen values : NoDup (set_values seen values).
Proof.
  revert seen. induction values as [|v rest IH]; intros seen; cbn [set_values].
  - constructor.
  - destruct (existsb (String.eqb v) seen); [apply IH|].
    constructor; [|apply IH].
    rewrite set_values_In. simpl. tauto.
Qed.

(** X21: the options of the select: every specialization that some doctor
    has, each one once. *)
Theorem specializations_complete doctors :
  NoDup (specializations doctors) /\
  forall spec,
    In spec (specializations doctors) <->
    exists doc, In doc doctors /\ Appointments.specialization doc = spec.
Proof.
  unfold specializations. split; [apply set_values_NoDup|].
  intros spec. rewrite set_values_In, in_map_iff. simpl. split.
  - intros [[doc [E H]] _]. now exists doc.
  - intros [doc [H E]]. split; [now exists doc|tauto].
Qed.

Lemma indicator_sum y keys :
  NoDup keys -> In y keys ->
  list_sum (map (fun k => if String.eqb y k then 1 else 0) keys) = 1.
Proof.
  induction 1 as [|k keys Hk Hnd IH]; simpl; [tauto|].
  intros [->|Hy].
  - rewrite String.eqb_refl. f_equal.
    clear IH Hnd. induction keys as [|a keys IHk]; simpl; [reflexivity|].
    destruct (String.eqb_spec y a) as [->|_]; [simpl in Hk; tauto|].
    apply IHk. simpl in Hk. tauto.
  - destruct (String.eqb_spec y k) as [->|_]; [contradiction|]. now apply IH.
Qed.

Lemma list_sum_add {A : Type} (f g : A -> nat) keys :
  list_sum (map (fun k => f k + g k) keys) =
  list_sum (map f keys) + list_sum (map g keys).
Proof. induction keys as [|k keys IH]; simpl; [reflexivity|]. rewrite IH. lia. Qed.

Lemma partition_count {A : Type} (f : A -> string) keys (l : list A) :
  NoDup keys -> (forall x, In x l -> In (f x) keys) ->
  List.length l =
  list_sum (map (fun k => List.length (filter (fun x => String.eqb (f x) k) l)) keys).
Proof.
  intros Hnd. induction l as [|x l IH]; intros Hin.
  - simpl. clear Hnd Hin. induction keys as [|k keys IHk]; simpl; [reflexivity|exact IHk].
  - rewrite (map_ext _ (fun k => (if String.eqb (f x) k then 1 else 0) +
                                 List.length (filter (fun x => String.eqb (f x) k) l))).
    + rewrite list_sum_add, indicator_sum, <- IH; trivial.
      * intros y Hy. apply Hin. now right.
      * apply Hin. now left.
    + intros k. simpl. now destruct (String.eqb (f x) k).
Qed.

Lemma filteredDoctors_by_spec doctors spec :
  spec <> "all"%string ->
  filteredDoctors doctors "" spec =
  filter (fun doc => String.eqb (Appointments.specialization doc) spec) doctors.
Proof.
  intros H. unfold filteredDoctors. cbn [truthy Orchestrator.truthy Memory.given].
  now rewrite (eqb_false _ _ H).
Qed.

(** X22: with an empty search box, the options of the select split the
    list: each option shows at least one doctor, only doctors of that
    specialization, and every doctor is shown under exactly one option, as
    long as no specialization is called "all"; the option "all" shows
    every doctor. *)
Theorem select_partitions doctors :
  ~ In "all"%string (specializations doctors) ->
  filteredDoctors doctors "" "all" = doctors /\
  (forall spec, In spec (specializations doctors) ->
     filteredDoctors doctors "" spec <> [] /\
     Forall (fun doc => Appointments.specialization doc = spec)
       (filteredDoctors doctors "" spec)) /\
  List.length doctors =
  list_sum (map (fun spec => List.length (filteredDoctors doctors "" spec))
              (specializations doctors)).
Proof.
  intros Hall.
  assert (Hnd : NoDup (specializations doctors)) by apply set_values_NoDup.
  assert (Hspec : forall spec,
            In spec (specializations doctors) <->
            exists doc, In doc doctors /\ Appointments.specialization doc = spec).
  { intros spec. unfold specializations.
    rewrite set_values_In, in_map_iff. simpl. split.
    - intros [[doc [E H]] _]. now exists doc.
    - intros [doc [H E]]. split; [now exists doc|tauto]. }
  split; [reflexivity|]. split.
  - intros spec Hin.
    assert (Hne : spec <> "all"%string) by congruence.
    rewrite (filteredDoctors_by_spec _ _ Hne). split.
    + apply Hspec in Hin as [doc [Hd E]]. intros Hnil.
      assert (Hf : In doc (filter (fun doc =>
                     String.eqb (Appointments.specialization doc) spec) doctors)).
      { apply filter_In. split; [exact Hd|]. now apply String.eqb_eq. }
      now rewrite Hnil in Hf.
    + apply Forall_forall. intros doc Hd. apply filter_In in Hd as [_ E].
      now apply String.eqb_eq.
  - rewrite (partition_count Appointments.specialization
               (specializations doctors) doctors Hnd).
    + f_equal. apply map_ext_in. intros spec Hin.
      rewrite filteredDoctors_by_spec; [reflexivity|congruence].
    + intros doc Hd. apply Hspec. now exists doc.
Qed.

Lemma select_partitions_witness :
  let doctors :=
    [Seed.dr_ahuja;
     Appointments.mkDoctor 2%Z "Dr. Priya Sharma" "Cardiology" [] 540%Z 1020%Z 30%Z;
     Appointments.mkDoctor 3%Z "Dr. Amit Patel" "General Physician" [] 540%Z 1020%Z 30%Z] in
  specializations doctors = ["General Physician"; "Cardiology"]%string /\
  List.length doctors =
  list_sum (map (fun spec => List.length (filteredDoctors doctors "" spec))
              (specializations doctors)).
Proof.
  intros doctors. split; [reflexivity|].
  refine (proj2 (proj2 (select_partitions doctors _))).
  cbn. intros [H|[H|[]]]; discriminate.
Defined.

(** *** The search box *)

Lemma starts_with_iff s t : starts_with s t = true <-> exists q, s = t ++ q.
Proof.
  revert s. induction t as [|b t IH]; intros s; simpl.
  - split; [intros _; now exists s|reflexivity].
  - destruct s as [|a s].
    + split; [discriminate|]. intros [q H]. discriminate.
    + rewrite andb_true_iff, IH. split.
      * intros [E [q ->]]. apply Ascii.eqb_eq in E. subst. now exists q.
      * intros [q [= -> ->]]. split; [apply Ascii.eqb_refl|now exists q].
Qed.

Lemma includes_from_iff s t :
  includes_from s t = true <-> exists p q, s = p ++ t ++ q.
Proof.
  induction s as [|a s IH]; cbn [includes_from]; rewrite orb_true_iff, starts_with_iff.
  - split.
    + intros [[q H]|H]; [|discriminate]. now exists [], q.
    + intros [p [q H]]. left. destruct p; [|discriminate]. now exists q.
  - rewrite IH. split.
    + intros [[q H]|[p [q H]]]; [now exists [], q|].
      exists (a :: p), q. simpl. now rewrite H.
    + intros [[|b p] [q H]]; [left; now exists q|].
      right. injection H as _ H. now exists p, q.
Qed.

Lemma includes_refl s : includes s s = true.
Proof. unfold includes. apply includes_from_iff. exists [], []. now rewrite app_nil_r. Qed.

Lemma includes_trans s t u :
  includes s t = true -> includes t u = true -> includes s u = true.
Proof.
  unfold includes. rewrite !includes_from_iff.
  intros [p [q ->]] [p' [q' ->]]. exists (p ++ p'), (q' ++ q).
  now rewrite <- !app_assoc.
Qed.

Lemma includes_empty t : includes "" t = true -> t = ""%string.
Proof.
  unfold includes. rewrite includes_from_iff. intros [p [q H]].
  destruct p; [|discriminate]. destruct t; [reflexivity|discriminate].
Qed.

Lemma toLowerCase_empty s : toLowerCase s = ""%string <-> s = ""%string.
Proof. unfold toLowerCase. destruct s; simpl; split; congruence. Qed.

Lemma truthy_empty s : truthy (Some s) = false <-> s = ""%string.
Proof. apply OrchestratorFacts.truthy_some. Qed.

(** X23: a search term that holds another one, capitals aside, shows no
    doctor that the other one hides: typing on only narrows the list. *)
Theorem search_narrows doctors term longer filterSpec :
  includes (toLowerCase longer) (toLowerCase term) = true ->
  incl (filteredDoctors doctors longer filterSpec)
       (filteredDoctors doctors term filterSpec).
Proof.
  intros Hinc doc. unfold filteredDoctors.
  assert (Hs : In doc (if truthy (Some longer)
                       then filter (matches_search longer) doctors else doctors) ->
               In doc (if truthy (Some term)
                       then filter (matches_search term) doctors else doctors)).
  { destruct (truthy (Some term)) eqn:Tt.
    - destruct (truthy (Some longer)) eqn:Tl.
      + rewrite !filter_In. intros [Hd Hm]. split; [exact Hd|].
        unfold matches_search in *. apply orb_true_iff in Hm.
        apply orb_true_iff. destruct Hm as [Hm|Hm]; [left|right];
          eapply includes_trans; eauto.
      + apply truthy_empty in Tl. subst longer.
        apply (includes_empty (toLowerCase term)) in Hinc.
        apply (proj1 (toLowerCase_empty term)) in Hinc. subst term.
        discriminate.
    - destruct (truthy (Some longer)); [|trivial].
      rewrite filter_In. tauto. }
  destruct (negb (String.eqb filterSpec "all")); [|exact Hs].
  rewrite !filter_In. intros [Hd Hf]. split; [now apply Hs|exact Hf].
Qed.

Lemma search_narrows_witness :
  incl (filteredDoctors [Seed.dr_ahuja] "Dr. RAJ" "all")
       (filteredDoctors [Seed.dr_ahuja] "raj" "all") /\
  filteredDoctors [Seed.dr_ahuja] "Dr. RAJ" "all" = [Seed.dr_ahuja].
Proof.
  split; [|reflexivity].
  apply (search_narrows [Seed.dr_ahuja] "raj" "Dr. RAJ" "all"). reflexivity.
Defined.
End ClientFacts.

(** ** Dates between the client and [validate_date] *)

Module ClientDatesFacts.
Import Calendar InputValidator ClientDates.
Local Open Scope Z_scope.

Lemma split_on_last sep f : ~ In sep f -> split_on sep f = [f].
Proof.
  induction f as [|c f IH]; simpl; [reflexivity|]. intros H.
  destruct (Ascii.eqb_spec c sep) as [->|_]; [tauto|].
  rewrite IH by tauto. reflexivity.
Qed.

Lemma split_on_field sep f rest :
  ~ In sep f -> split_on sep (f ++ sep :: rest) = f :: split_on sep rest.
Proof.
  induction f as [|c f IH]; simpl; intros H.
  - now rewrite Ascii.eqb_refl.
  - destruct (Ascii.eqb_spec c sep) as [->|_]; [tauto|].
    rewrite IH by tauto. reflexivity.
Qed.

Lemma list_of_append a b :
  list_ascii_of_string (a ++ b) = list_ascii_of_string a ++ list_ascii_of_string b.
Proof. induction a as [|c a IH]; simpl; [reflexivity|]. now rewrite IH. Qed.

Lemma no_hyphen_In s : no_hyphen s = true -> ~ In "-"%char (list_ascii_of_string s).
Proof.
  unfold no_hyphen. rewrite forallb_forall. intros H Hin.
  specialize (H _ Hin). now rewrite Ascii.eqb_refl in H.
Qed.

(** The years, months and days of the calendar, checked one by one. *)
Lemma years_read_back : read_back_upto four_digits parse_year 9999 = true.
Proof. vm_compute. reflexivity. Qed.

Lemma months_read_back : read_back_upto two_digits parse_month 12 = true.
Proof. vm_compute. reflexivity. Qed.

Lemma days_read_back : read_back_upto two_digits parse_day 31 = true.
Proof. vm_compute. reflexivity. Qed.

Lemma read_back (render : Z -> string) (parse : list ascii -> option Z) n :
  read_back_upto render parse n = true ->
  forall v, 1 <= v <= n ->
    ~ In "-"%char (list_ascii_of_string (render v)) /\
    parse (list_ascii_of_string (render v)) = Some v.
Proof.
  unfold read_back_upto. intros H v Hv. rewrite forallb_forall in H.
  assert (Hin : In v (map Z.of_nat (seq 1 (Z.to_nat n)))).
  { apply in_map_iff. exists (Z.to_nat v). split; [lia|]. apply in_seq. lia. }
  specialize (H v Hin). apply andb_true_iff in H as [Hh Hp].
  split; [now apply no_hyphen_In|].
  destruct (parse _) as [v'|]; [|discriminate].
  apply Z.eqb_eq in Hp. now subst.
Qed.

Lemma days_in_month_le y m : days_in_month y m <= 31.
Proof.
  unfold days_in_month.
  destruct (m =? 2); [destruct (is_leap y); lia|].
  destruct ((m =? 4) || (m =? 6) || (m =? 9) || (m =? 11)); lia.
Qed.

Lemma valid_date_bounds d :
  valid_date d = true ->
  1 <= year d <= 9999 /\ 1 <= month d <= 12 /\
  1 <= day d <= days_in_month (year d) (month d).
Proof.
  unfold valid_date, valid_month. rewrite !andb_true_iff, !Z.leb_le. tauto.
Qed.

Lemma iso_date_read_back d :
  valid_date d = true -> strptime_date (toISODate d) = Some d.
Proof.
  intros Hv. destruct (valid_date_bounds d Hv) as [Hy [Hm Hd]].
  pose proof (days_in_month_le (year d) (month d)) as Hd31.
  destruct (read_back four_digits parse_year 9999 years_read_back (year d))
    as [Hy1 Hy2]; [lia|].
  destruct (read_back two_digits parse_month 12 months_read_back (month d))
    as [Hm1 Hm2]; [lia|].
  destruct (read_back two_digits parse_day 31 days_read_back (day d))
    as [Hd1 Hd2]; [lia|].
  unfold strptime_date, toISODate.
  rewrite !list_of_append. cbn [list_ascii_of_string app].
  rewrite (split_on_field _ _ _ Hy1), (split_on_field _ _ _ Hm1),
    (split_on_last _ _ Hd1), Hy2, Hm2, Hd2.
  destruct d as [y m dd]. cbn [year month day] in *. now rewrite Hv.
Qed.

(** X24: the date string the client builds is read back by the server as the
    same date, for every date of the calendar; so two dates are never
    written alike. *)
Theorem strptime_date_toISODate d :
  valid_date d = true ->
  strptime_date (toISODate d) = Some d /\
  forall d', valid_date d' = true -> toISODate d' = toISODate d -> d' = d.
Proof.
  intros Hv. split; [now apply iso_date_read_back|].
  intros d' Hv' E. apply iso_date_read_back in Hv, Hv'.
  rewrite E in Hv'. congruence.
Qed.

Lemma strptime_date_toISODate_witness :
  toISODate Seed.a_saturday = "2025-12-20"%string /\
  strptime_date (toISODate Seed.a_saturday) = Some Seed.a_saturday.
Proof.
  split; [reflexivity|].
  exact (proj1 (strptime_date_toISODate Seed.a_saturday eq_refl)).
Defined.

Lemma date_ltb_irrefl d : date_ltb d d = false.
Proof.
  unfold date_ltb. rewrite !Z.ltb_irrefl, !Z.eqb_refl. reflexivity.
Qed.


(** X26: whenever [validate_date] can return at all, it returns today's date
    as the client writes it. *)
Theorem validate_date_today today :
  valid_date today = true -> month today <= 6 ->
  day today <= days_in_month (year today) (month today + 6) ->
  validate_date today (toISODate today) = Returned today.
Proof.
  intros Hv Hm Hd. destruct (valid_date_bounds today Hv) as [Hy [Hm' Hd']].
  unfold validate_date, replace_month, valid_month.
  rewrite (iso_date_read_back today Hv), date_ltb_irrefl.
  destruct (Z.leb_spec 1 (month today + 6)); [|lia].
  destruct (Z.leb_spec (month today + 6) 12); [|lia].
  destruct (Z.leb_spec 1 (day today)); [|lia].
  destruct (Z.leb_spec (day today)
              (days_in_month (year today) (month today + 6))); [|lia].
  cbn [andb negb]. unfold date_ltb. cbn [year month day].
  rewrite Z.ltb_irrefl, Z.eqb_refl, Z.ltb_irrefl. cbn [orb andb].
  destruct (Z.ltb_spec (month today + 6) (month today)); [lia|].
  destruct (Z.eqb_spec (month today + 6) (month today)); [lia|reflexivity].
Qed.

Lemma validate_date_today_witness :
  validate_date (mkdate 2025 6 30) "2025-06-30" = Returned (mkdate 2025 6 30).
Proof.
  apply (validate_date_today (mkdate 2025 6 30)); [reflexivity| |]; cbn; lia.
Defined.
End ClientDatesFacts.

(** ** The conflict queries and the unique index *)

Module SchemaFacts.
Import Calendar Appointments Schema.
Local Open Scope Z_scope.

(** X27: with positive lengths, every row found by the exact-slot query is
    found by the overlap query too. *)
Theorem exact_slot_overlaps did appt_date appt_time duration a :
  0 < duration -> 0 < duration_minutes a ->
  exact_slot_filter did appt_date appt_time a = true ->
  overlap_filter did appt_date appt_time (appt_time + duration) a = true.
Proof.
  intros Hd Ha. unfold exact_slot_filter, overlap_filter, appointment_end_time.
  rewrite !andb_true_iff, Z.eqb_eq, !Z.ltb_lt.
  intros [[[H1 H2] H3] H4]. repeat split; trivial; lia.
Qed.

Lemma exact_slot_overlaps_witness :
  exact_slot_filter 1 Seed.a_monday (hm 10 0)
    (Seed.booking 5 1 Seed.a_monday (hm 10 0) "scheduled") = true /\
  overlap_filter 1 Seed.a_monday (hm 10 0) (hm 10 0 + 30)
    (Seed.booking 5 1 Seed.a_monday (hm 10 0) "scheduled") = true.
Proof.
  split; [reflexivity|].
  apply (exact_slot_overlaps 1 Seed.a_monday (hm 10 0) 30); [lia|cbn; lia|].
  reflexivity.
Defined.

(** X28: a stored appointment that ends when the requested one starts, or
    starts when it ends, does not overlap it: slots that touch do not
    conflict. *)
Theorem touching_slots_do_not_overlap did appt_date appt_time duration a :
  appointment_end_time a <= appt_time \/
  appt_time + duration <= appointment_time a ->
  overlap_filter did appt_date appt_time (appt_time + duration) a = false.
Proof.
  intros H. unfold overlap_filter.
  destruct (Z.ltb_spec (appointment_time a) (appt_time + duration)),
    (Z.ltb_spec appt_time (appointment_end_time a));
    rewrite ?andb_false_r; try reflexivity; lia.
Qed.

Lemma touching_slots_do_not_overlap_witness :
  find_overlapping Seed.recorded_monday 1 Seed.a_monday (hm 10 30)
    (hm 10 30 + 30) = [].
Proof.
  assert (H : forall a, In a Seed.recorded_monday ->
                overlap_filter 1 Seed.a_monday (hm 10 30) (hm 10 30 + 30) a
                = false).
  { intros a [<-|[<-|[<-|[]]]];
      apply touching_slots_do_not_overlap; cbn; lia. }
  unfold find_overlapping.
  destruct (filter _ Seed.recorded_monday) as [|a l] eqn:E; [reflexivity|].
  assert (Hin : In a (a :: l)) by now left.
  rewrite <- E in Hin. apply filter_In in Hin as [Hin Ha].
  rewrite (H a Hin) in Ha. discriminate.
Defined.

Lemma same_slot_sym a b : same_slot a b = same_slot b a.
Proof.
  unfold same_slot, date_eqb.
  now rewrite (Z.eqb_sym (doctor_id a)), (Z.eqb_sym (appointment_time a)),
    (Z.eqb_sym (year _)), (Z.eqb_sym (month _)), (Z.eqb_sym (day _)).
Qed.

Lemma slots_distinct_snoc db a :
  slots_distinct db -> existsb (same_slot a) db = false ->
  slots_distinct (db ++ [a]).
Proof.
  unfold slots_distinct. intros Hdb Ha.
  assert (Hall : Forall (fun x => same_slot x a = false) db).
  { apply Forall_forall. intros x Hx. rewrite same_slot_sym.
    destruct (same_slot a x) eqn:E; [|reflexivity].
    assert (existsb (same_slot a) db = true)
      by (apply existsb_exists; now exists x).
    congruence. }
  clear Ha. induction Hdb as [|x db Hx Hdb IH]; simpl.
  - constructor; constructor.
  - inversion Hall as [|? ? Hxa Hrest]; subst. constructor.
    + apply Forall_app. split; [exact Hx|]. now constructor.
    + now apply IH.
Qed.

(** X29: the insert keeps the slots of the table distinct: it adds the row at
    the end of a table that had no row on its slot, and changes nothing
    when it refuses. *)
Theorem insert_keeps_slots_distinct db a :
  slots_distinct db ->
  match insert_appointment db a with
  | inr db' => db' = db ++ [a] /\ slots_distinct db'
  | inl _ => exists b, In b db /\ same_slot a b = true
  end.
Proof.
  intros Hdb. unfold insert_appointment.
  destruct (existsb (same_slot a) db) eqn:E.
  - apply existsb_exists in E. exact E.
  - split; [reflexivity|]. now apply slots_distinct_snoc.
Qed.

Lemma insert_keeps_slots_distinct_witness :
  slots_distinct Seed.recorded_monday /\
  exists db',
    insert_appointment Seed.recorded_monday
      (Seed.booking 7 4 Seed.a_monday (hm 9 0) "scheduled") = inr db' /\
    slots_distinct db'.
Proof.
  assert (H : slots_distinct Seed.recorded_monday).
  { unfold slots_distinct, Seed.recorded_monday. repeat constructor. }
  split; [exact H|].
  pose proof (insert_keeps_slots_distinct Seed.recorded_monday
                (Seed.booking 7 4 Seed.a_monday (hm 9 0) "scheduled") H) as Hi.
  destruct (insert_appointment _ _) as [e|db'] eqn:E.
  - vm_compute in E. discriminate.
  - exists db'. split; [reflexivity|]. exact (proj2 Hi).
Defined.
End SchemaFacts.

(** ** A run that the model ends *)

Module AgentAnswerFacts.
Import Orchestrator.

Section Loop.
Variable call_llm : nat -> list Message -> LLMResponse.
Variable call_tool : ToolCall -> World -> ResultData * World.
Variable format_other : ToolResult -> string.

Local Notation "'loop'" := (agent_loop call_llm call_tool format_other).

(** The last answer in the log of a run, when it asked for no tool, is the
    answer the run returned on. *)
Lemma agent_loop_answered max_iterations fuel : forall st env st' log answer,
  model_never_answered (llm_log st) ->
  loop max_iterations fuel st = Some (env, st') ->
  llm_log st' = log ++ [answer] -> llm_tool_calls answer = [] ->
  env = mkEnvelope true (response env) (List.length (all_tool_results st'))
          (List.length (llm_log st') - List.length (llm_log st) + iteration st)
          None None /\
  response env =
    (if negb (truthy (llm_content answer)) && nonempty (all_tool_results st')
     then Some (snd (_synthesize_final_response format_other (llm_messages st')
                       (all_tool_results st')))
     else llm_content answer).
Proof.
  induction fuel as [|fuel IH]; intros st env st' log answer Hlog Hrun Hlast Hnone;
    [discriminate|].
  cbn [agent_loop] in Hrun.
  destruct (iteration st <? max_iterations)%nat.
  - destruct (llm_tool_calls (call_llm (List.length (llm_log st)) (llm_messages st)))
      as [|c calls] eqn:Hcalls.
    + destruct (negb (truthy (llm_content _)) && nonempty (all_tool_results st))
        eqn:Hsyn; cbn in Hrun; injection Hrun as <- <-; cbn in *;
        apply app_inj_tail in Hlast as [_ <-]; rewrite Hsyn;
        rewrite length_app; cbn; split; try reflexivity;
        f_equal; lia.
    + destruct (execute_tool_calls call_tool (c :: calls) (world st))
        as [tool_results w'] eqn:Hexec.
      assert (Hlog' : model_never_answered
                        (llm_log st ++
                         [call_llm (List.length (llm_log st)) (llm_messages st)])).
      { apply Forall_app. split; [exact Hlog|].
        constructor; [congruence|constructor]. }
      pose proof (OrchestratorFacts.agent_loop_counts call_llm call_tool
                    format_other _ _ _ _ _ Hrun) as [_ [Hlen [Hit _]]].
      cbn [llm_log iteration] in Hlen, Hit. rewrite length_app in Hlen.
      cbn [List.length] in Hlen.
      eapply IH in Hrun; [|exact Hlog'|exact Hlast|exact Hnone].
      destruct Hrun as [Henv Hresp].
      split; [|exact Hresp]. rewrite Henv at 1. cbn [llm_log iteration].
      rewrite length_app. cbn [List.length]. f_equal. lia.
  - exfalso. injection Hrun as Hrun.
    destruct (OrchestratorFacts.after_loop_state format_other st)
      as [_ [_ [_ [Hl _]]]].
    rewrite Hrun in Hl. cbn [snd] in Hl. rewrite Hl in Hlast. unfold model_never_answered in Hlog.
    rewrite Hlast in Hlog. apply Forall_app in Hlog as [_ Hlog].
    inversion Hlog. congruence.
Qed.
End Loop.

(** X30: when the model ends the run, with an answer that asks for no tool,
    the envelope reports success, without warning or error, after as many
    iterations as answers; the response is the content of that answer as
    it came, unless the content is empty and tools had run, in which case
    it is the synthesized text. An empty content with no tool result is
    passed on as it is. *)
Theorem model_ended_run call_llm call_tool format_other max_iterations fuel
  msgs w env st log answer :
  agent_loop call_llm call_tool format_other max_iterations fuel
    (init_state msgs w) = Some (env, st) ->
  llm_log st = log ++ [answer] -> llm_tool_calls answer = [] ->
  env_success env = true /\ warning env = None /\ env_error env = None /\
  iterations env = List.length (llm_log st) /\
  tool_calls_made env = List.length (all_tool_results st) /\
  (truthy (llm_content answer) = true -> response env = llm_content answer) /\
  (all_tool_results st = [] -> response env = llm_content answer) /\
  (truthy (llm_content answer) = false -> all_tool_results st <> [] ->
   response env =
   Some (snd (_synthesize_final_response format_other (llm_messages st)
                (all_tool_results st)))).
Proof.
  intros Hrun Hlast Hnone.
  destruct (agent_loop_answered call_llm call_tool format_other max_iterations
              fuel (init_state msgs w) env st log answer
              ltac:(constructor) Hrun Hlast Hnone) as [Henv Hresp].
  rewrite Henv. cbn [env_success warning env_error iterations tool_calls_made
                     response init_state llm_log iteration List.length].
  repeat split; trivial.
  - lia.
  - intros Ht. rewrite Hresp, Ht. reflexivity.
  - intros Hn. rewrite Hresp, Hn. now rewrite andb_false_r.
  - intros Ht Hn. rewrite Hresp, Ht.
    destruct (all_tool_results st); [congruence|reflexivity].
Qed.

Lemma model_ended_run_witness :
  exists env st,
    agent_loop Seed.polite_model Seed.one_doctor_registry Seed.no_other_format
      default_max_iterations 6 (init_state [] Seed.empty_world) = Some (env, st) /\
    env_success env = true /\ iterations env = 1%nat /\
    response env = Some "How can I help you today?"%string.
Proof.
  destruct (agent_loop Seed.polite_model Seed.one_doctor_registry
              Seed.no_other_format default_max_iterations 6
              (init_state [] Seed.empty_world)) as [[env st]|] eqn:Hrun.
  2:{ vm_compute in Hrun. discriminate. }
  exists env, st. split; [reflexivity|].
  assert (Hlog : llm_log st = [] ++ [Seed.polite_model 0 []]).
  { vm_compute in Hrun. injection Hrun as _ <-. reflexivity. }
  destruct (model_ended_run _ _ _ _ _ _ _ _ _ _ _ Hrun Hlog eq_refl)
    as [Hs [_ [_ [Hi [_ [Hr _]]]]]].
  split; [exact Hs|]. split.
  - rewrite Hi, Hlog. reflexivity.
  - exact (Hr eq_refl).
Defined.
End AgentAnswerFacts.
